(** * parsejson: a recursive-descent JSON parser, embedded and verified

    The development follows [src/parsejson.h] and [src/parsejson.cpp]:
    the cursor [ParseBuffer], the fat node [JSONItem], the scanners
    [skip_whitespace], [can_read], [parse_number], [parse_string], the
    container parsers [parse_array] and [parse_object], the dispatcher
    [parse_json] and the teardown [destroy_json].

    Nodes live in an explicit heap ([gmap] from addresses to [JSONItem]),
    so that allocation, linking through [next]/[prev]/[child] and
    deallocation are all visible.  C++ exceptions are the [Throw] outcome,
    reads outside the string are the [Undefined] outcome. *)

From Stdlib Require Import ZArith List Ascii String SpecFloat Lia.
From stdpp Require Import gmap.

Local Open Scope Z_scope.

(** ** Characters *)

Module Char.

Definition code (c : ascii) : nat := nat_of_ascii c.

Definition eqb (a b : ascii) : bool := Ascii.eqb a b.

Definition between (lo hi : nat) (c : ascii) : bool :=
  (Nat.leb lo (code c) && Nat.leb (code c) hi)%bool.

(** [std::isspace] in the "C" locale: space, \t, \n, \v, \f, \r.  Bytes
    above 127 are not whitespace. *)
Definition isspace (c : ascii) : bool :=
  (Nat.eqb (code c) 32 || between 9 13 c)%bool.

(** [std::isdigit]. *)
Definition isdigit (c : ascii) : bool := between 48 57 c.

Definition isxdigit (c : ascii) : bool :=
  (isdigit c || between 65 70 c || between 97 102 c)%bool.

Definition isalpha (c : ascii) : bool :=
  (between 65 90 c || between 97 122 c)%bool.

Definition tolower (c : ascii) : ascii :=
  if between 65 90 c then ascii_of_nat (code c + 32) else c.

Definition digit_val (c : ascii) : Z := Z.of_nat (code c) - 48.

Definition xdigit_val (c : ascii) : Z :=
  if isdigit c then Z.of_nat (code c) - 48
  else if between 65 70 c then Z.of_nat (code c) - 55
  else Z.of_nat (code c) - 87.

Definition NUL : ascii := "000"%char.
Definition BS : ascii := "008"%char.
Definition TAB : ascii := "009"%char.
Definition LF : ascii := "010"%char.
Definition FF : ascii := "012"%char.
Definition CR : ascii := "013"%char.
Definition quote : ascii := "034"%char.
Definition backslash : ascii := "092"%char.

End Char.

(** A string literal as the byte sequence of [std::string]. *)
Definition bytes (s : string) : list ascii := list_ascii_of_string s.

(** JSON text written with apostrophes where the input has double quotes:
    [json "{'a': 1}"] is the input [{"a": 1}]. *)
Definition json (s : string) : list ascii :=
  map (fun c => if Char.eqb c "'" then Char.quote else c) (bytes s).

(** ** The data model of parsejson.h *)

Record ParseBuffer := mkBuffer {
  raw_json : list ascii;
  depth : Z;      (* uint32_t *)
  pos : nat       (* size_t *)
}.

Inductive JSONType :=
| j_object | j_array | j_string | j_number | j_bool | j_null.

(** Addresses of nodes; [NULL] is [None]. *)
Abbreviation ptr := positive.

Record JSONItem := mkItem {
  next : option ptr;
  prev : option ptr;
  child : option ptr;
  name : list ascii;
  type : JSONType;
  double_val : spec_float;
  uint_val : Z;
  int_val : Z;
  string_val : list ascii;
  bool_val : bool
}.

(** The message of a [ParseError], by the [throw] that builds it; the
    position is the [%zu] argument of the message where it has one. *)
Inductive ParseError :=
| BadNumber (at_pos : nat)
| PrematurelyTerminatedEscape (at_pos : nat)
| UnknownEscape (at_pos : nat)
| NestingLimitExceeded (at_pos : nat)
| BadObjectMemberName (at_pos : nat)
| BadNameValueSeparator (at_pos : nat)
| InvalidArrayContinuation (at_pos : nat)
| InvalidObjectContinuation (at_pos : nat)
| UnexpectedEOF
| InvalidJSON
| TrailingJunk.

(** ** Outcomes

    [Ok] is a normal return, [Throw] an exception in flight, [Undefined] a
    read or write the C++ standard gives no meaning to (an index past
    [size()], a pointer that is not live) and [OutOfFuel] is the embedding
    running out of recursion budget. *)
Inductive outcome (A : Type) : Type :=
| Ok (a : A)
| Throw (e : ParseError)
| Undefined
| OutOfFuel.

Arguments Ok {A} a.
Arguments Throw {A} e.
Arguments Undefined {A}.
Arguments OutOfFuel {A}.

(** ** Scanners over the cursor *)

Definition scan (A : Type) : Type := ParseBuffer -> outcome A * ParseBuffer.

Definition set_pos (b : ParseBuffer) (p : nat) : ParseBuffer :=
  {| raw_json := raw_json b; depth := depth b; pos := p |}.

Definition set_depth (b : ParseBuffer) (d : Z) : ParseBuffer :=
  {| raw_json := raw_json b; depth := d; pos := pos b |}.

Definition raw_size (b : ParseBuffer) : nat := length (raw_json b).

(** [raw_json[i]]: the byte for [i < raw_json.size()], the terminating NUL for
    [i = raw_json.size()] (guaranteed since C++11), undefined beyond. *)
Definition char_at (b : ParseBuffer) (i : nat) : option ascii :=
  match raw_json b !! i with
  | Some c => Some c
  | None => if Nat.eqb i (raw_size b) then Some Char.NUL else None
  end.

(** The loop of [skip_whitespace], run over the bytes from [pos] on: past
    the last byte it reads the NUL and stops. *)
Fixpoint skip_whitespace_from (rest : list ascii) (p : nat) : nat :=
  match rest with
  | c :: rest' => if Char.isspace c then skip_whitespace_from rest' (S p) else p
  | [] => p
  end.

Definition skip_whitespace : scan unit := fun b =>
  if Nat.leb (pos b) (raw_size b)
  then (Ok tt, set_pos b (skip_whitespace_from (drop (pos b) (raw_json b)) (pos b)))
  else (Undefined, b).

Definition can_read (b : ParseBuffer) (n : nat) : bool :=
  (negb (Nat.eqb (raw_size b) 0) && Nat.leb (pos b + n) (raw_size b))%bool.

(** ** [strtod]

    [parse_number] delegates to the C library.  The model follows the
    subject sequence of C11 7.22.1.3 in the "C" locale: leading white
    space, an optional sign, then a decimal significand with an optional
    exponent, or [0x] and a hexadecimal significand with an optional binary
    exponent, or [inf]/[infinity], or [nan]/[nan(...)].  The result is the
    binary64 value nearest to the lexeme (ties to even), as a [spec_float],
    together with the number of bytes consumed; nothing is consumed when
    there is no subject sequence. *)
Module Strtod.

Definition prec : Z := 53.
Definition emax : Z := 1024.

Fixpoint span (p : ascii -> bool) (l : list ascii) : list ascii * list ascii :=
  match l with
  | c :: l' =>
      if p c then let (a, r) := span p l' in (c :: a, r) else ([], l)
  | [] => ([], [])
  end.

Definition number_of (base : Z) (val : ascii -> Z) (ds : list ascii) : Z :=
  fold_left (fun acc c => acc * base + val c) ds 0.

(** An optional sign: is it a minus, and how many bytes it takes. *)
Definition sign (l : list ascii) : bool * nat :=
  match l with
  | c :: _ =>
      if Char.eqb c "-" then (true, 1%nat)
      else if Char.eqb c "+" then (false, 1%nat)
      else (false, 0%nat)
  | [] => (false, 0%nat)
  end.

(** Digits with an optional radix point and at least one digit: the
    digits read as one integer, the number of digits after the point and
    the bytes consumed. *)
Definition significand (isd : ascii -> bool) (base : Z) (val : ascii -> Z)
    (l : list ascii) : option (Z * nat * nat) :=
  let (ip, l1) := span isd l in
  let '(fp, dot) :=
    match l1 with
    | c :: l2 => if Char.eqb c "." then (fst (span isd l2), 1%nat) else ([], 0%nat)
    | [] => ([], 0%nat)
    end in
  match ip ++ fp with
  | [] => None
  | ds => Some (number_of base val ds, length fp, (length ip + dot + length fp)%nat)
  end.

(** An exponent part introduced by [marker] (in either case): its value
    and length, or nothing consumed when no digit follows. *)
Definition exponent (marker : ascii) (l : list ascii) : Z * nat :=
  match l with
  | c :: l' =>
      if Char.eqb (Char.tolower c) marker then
        let (neg, sn) := sign l' in
        let ds := fst (span Char.isdigit (drop sn l')) in
        match ds with
        | [] => (0, 0%nat)
        | _ => let e := number_of 10 Char.digit_val ds in
               (if neg then - e else e, (1 + sn + length ds)%nat)
        end
      else (0, 0%nat)
  | [] => (0, 0%nat)
  end.

(** [p/q] rounded to binary64: the quotient is taken with more than
    [prec] + 2 bits and a sticky bit for the remainder. *)
Definition round_ratio (neg : bool) (p q : Z) : spec_float :=
  let k := Z.max 0 (Z.log2 q + 56 - Z.log2 p) in
  let n := (p * 2 ^ k) / q in
  let sticky := if (p * 2 ^ k) mod q =? 0 then 0 else 1 in
  match 2 * n + sticky with
  | Zpos m => binary_round prec emax neg m (- k - 1)
  | _ => S754_zero neg
  end.

(** [m * base ^ e], rounded, for [base] 10 or 2. *)
Definition scaled (neg : bool) (m base e : Z) : spec_float :=
  match m with
  | Zpos mp =>
      if base =? 2 then binary_round prec emax neg mp e
      else if 0 <=? e then
        match m * base ^ e with
        | Zpos v => binary_round prec emax neg v 0
        | _ => S754_zero neg
        end
      else round_ratio neg m (base ^ (- e))
  | _ => S754_zero neg
  end.

Definition decimal (neg : bool) (l : list ascii) : option (spec_float * nat) :=
  match significand Char.isdigit 10 Char.digit_val l with
  | Some (m, frac, n) =>
      let (e, en) := exponent "e" (drop n l) in
      Some (scaled neg m 10 (e - Z.of_nat frac), (n + en)%nat)
  | None => None
  end.

Definition hexadecimal (neg : bool) (l : list ascii) : option (spec_float * nat) :=
  match l with
  | z :: x :: l' =>
      if (Char.eqb z "0" && Char.eqb (Char.tolower x) "x")%bool then
        match significand Char.isxdigit 16 Char.xdigit_val l' with
        | Some (m, frac, n) =>
            let (e, en) := exponent "p" (drop n l') in
            Some (scaled neg m 2 (e - 4 * Z.of_nat frac), (2 + n + en)%nat)
        | None => None
        end
      else None
  | _ => None
  end.

Definition starts_with (word : string) (l : list ascii) : bool :=
  let w := bytes word in
  bool_decide (map Char.tolower (take (length w) l) = w).

Definition is_nchar (c : ascii) : bool :=
  (Char.isdigit c || Char.isalpha c || Char.eqb c "_")%bool.

Definition special (neg : bool) (l : list ascii) : option (spec_float * nat) :=
  if starts_with "infinity" l then Some (S754_infinity neg, 8%nat)
  else if starts_with "inf" l then Some (S754_infinity neg, 3%nat)
  else if starts_with "nan" l then
    match drop 3 l with
    | c :: l' =>
        if Char.eqb c "(" then
          let (ns, r) := span is_nchar l' in
          match r with
          | d :: _ => if Char.eqb d ")" then Some (S754_nan, (5 + length ns)%nat)
                      else Some (S754_nan, 3%nat)
          | [] => Some (S754_nan, 3%nat)
          end
        else Some (S754_nan, 3%nat)
    | [] => Some (S754_nan, 3%nat)
    end
  else None.

Definition subject (neg : bool) (l : list ascii) : option (spec_float * nat) :=
  match hexadecimal neg l with
  | Some r => Some r
  | None =>
      match decimal neg l with
      | Some r => Some r
      | None => special neg l
      end
  end.

(** The value and [endptr - nptr]. *)
Definition strtod (l : list ascii) : spec_float * nat :=
  let ws := length (fst (span Char.isspace l)) in
  let (neg, sn) := sign (drop ws l) in
  match subject neg (drop (ws + sn) l) with
  | Some (v, n) => (v, (ws + sn + n)%nat)
  | None => (S754_zero false, 0%nat)
  end.

End Strtod.

(** ** [parse_number] and [parse_string] *)

(** [strtod] runs on the NUL-terminated bytes from [pos]; [endptr] equal to
    the start means no conversion. *)
Definition parse_number : scan spec_float := fun b =>
  if Nat.leb (pos b) (raw_size b) then
    let (double_val, consumed) := Strtod.strtod (drop (pos b) (raw_json b)) in
    if Nat.eqb consumed 0 then (Throw (BadNumber (pos b)), b)
    else (Ok double_val, set_pos b (pos b + consumed))
  else (Undefined, b).

(** How control leaves a [case] of the [switch] on the escaped byte: by
    [break], or by running on into the [default] label. *)
Inductive case_exit :=
| Break (out_str : list ascii)
| IntoDefault (out_str : list ascii).

Definition switch_escape (e : ascii) (out_str : list ascii) : case_exit :=
  if Char.eqb e "b" then Break (out_str ++ [Char.BS])
  else if Char.eqb e "f" then Break (out_str ++ [Char.FF])
  else if Char.eqb e "n" then Break (out_str ++ [Char.LF])
  else if Char.eqb e "r" then Break (out_str ++ [Char.CR])
  else if Char.eqb e "t" then Break (out_str ++ [Char.TAB])
  else if (Char.eqb e Char.quote || Char.eqb e Char.backslash || Char.eqb e "/")%bool
  then IntoDefault (out_str ++ [e])     (* no [break] after the append *)
  else IntoDefault out_str.

(** The [while] loop of [parse_string] over the bytes from [p] on; it
    yields the outcome of the loop and the value of [pos] at that point. *)
Fixpoint parse_string_from (rest : list ascii) (p : nat) (out_str : list ascii)
    : outcome (list ascii) * nat :=
  match rest with
  | [] => (Ok out_str, p)                       (* [pos < size()] fails *)
  | c :: rest' =>
      if Char.eqb c Char.quote then (Ok out_str, p)
      else if negb (Char.eqb c Char.backslash)
      then parse_string_from rest' (S p) (out_str ++ [c])
      else
        match rest' with
        | [] => (Throw (PrematurelyTerminatedEscape p), p)  (* size - pos < 2 *)
        | e :: rest'' =>
            match switch_escape e out_str with
            | Break out_str' => parse_string_from rest'' (p + 2) out_str'
            | IntoDefault _ => (Throw (UnknownEscape p), p)
            end
        end
  end.

Definition parse_string : scan (list ascii) := fun b =>
  if Nat.leb (pos b) (raw_size b) then
    match parse_string_from (drop (pos b) (raw_json b)) (pos b) [] with
    | (Ok out_str, p) => (Ok out_str, set_pos b (S p))   (* consume closing quote *)
    | (r, p) => (r, set_pos b p)
    end
  else (Undefined, b).

(** ** The heap and the state monad of the parser *)

Record world := mkWorld {
  buf : ParseBuffer;
  heap : gmap ptr JSONItem;
  brk : ptr                      (* the next address [new] hands out *)
}.

Definition M (A : Type) : Type := world -> outcome A * world.

Definition ret {A} (a : A) : M A := fun w => (Ok a, w).

Definition bind {A B} (m : M A) (k : A -> M B) : M B := fun w =>
  match m w with
  | (Ok a, w') => k a w'
  | (Throw e, w') => (Throw e, w')
  | (Undefined, w') => (Undefined, w')
  | (OutOfFuel, w') => (OutOfFuel, w')
  end.

Definition throw {A} (e : ParseError) : M A := fun w => (Throw e, w).
Definition out_of_fuel {A} : M A := fun w => (OutOfFuel, w).

(** [try { m } catch (ParseError &pe) { h pe }]. *)
Definition try_catch {A} (m : M A) (h : ParseError -> M A) : M A := fun w =>
  match m w with
  | (Throw e, w') => h e w'
  | r => r
  end.

Notation "x <- m ;; k" := (bind m (fun x => k))
  (at level 100, m at next level, right associativity).
Notation "m ;; k" := (bind m (fun _ => k))
  (at level 100, right associativity).

Definition set_buf (w : world) (b : ParseBuffer) : world :=
  {| buf := b; heap := heap w; brk := brk w |}.

Definition set_heap (w : world) (h : gmap ptr JSONItem) : world :=
  {| buf := buf w; heap := h; brk := brk w |}.

Definition on_buffer {A} (f : scan A) : M A := fun w =>
  let (r, b) := f (buf w) in (r, set_buf w b).

Definition get_buf : M ParseBuffer := fun w => (Ok (buf w), w).

(** [input_buffer.raw_json[input_buffer.pos]]. *)
Definition peek : M ascii := fun w =>
  match char_at (buf w) (pos (buf w)) with
  | Some c => (Ok c, w)
  | None => (Undefined, w)
  end.

(** [input_buffer.pos += n]. *)
Definition advance (n : nat) : M unit := fun w =>
  (Ok tt, set_buf w (set_pos (buf w) (pos (buf w) + n))).

Definition uint32 (z : Z) : Z := z mod 2 ^ 32.

Definition incr_depth : M unit := fun w =>
  (Ok tt, set_buf w (set_depth (buf w) (uint32 (depth (buf w) + 1)))).

Definition decr_depth : M unit := fun w =>
  (Ok tt, set_buf w (set_depth (buf w) (uint32 (depth (buf w) - 1)))).

(** [new JSONItem()]: value-initialisation zeroes the fields. *)
Definition zero_item : JSONItem :=
  {| next := None; prev := None; child := None; name := [];
     type := j_object; double_val := S754_zero false; uint_val := 0;
     int_val := 0; string_val := []; bool_val := false |}.

Definition new_JSONItem : M ptr := fun w =>
  (Ok (brk w),
   {| buf := buf w; heap := <[brk w := zero_item]> (heap w); brk := Pos.succ (brk w) |}).

(** Reading or writing through a pointer that is null or not live is
    undefined. *)
Definition load (p : option ptr) : M JSONItem := fun w =>
  match p with
  | Some a =>
      match heap w !! a with
      | Some it => (Ok it, w)
      | None => (Undefined, w)
      end
  | None => (Undefined, w)
  end.

Definition update (p : option ptr) (f : JSONItem -> JSONItem) : M unit :=
  it <- load p ;;
  fun w =>
    match p with
    | Some a => (Ok tt, set_heap w (<[a := f it]> (heap w)))
    | None => (Undefined, w)
    end.

(** [delete item]. *)
Definition delete_item (a : ptr) : M unit := fun w =>
  match heap w !! a with
  | Some _ => (Ok tt, set_heap w (delete a (heap w)))
  | None => (Undefined, w)
  end.

Definition with_next (v : option ptr) (it : JSONItem) : JSONItem :=
  {| next := v; prev := prev it; child := child it; name := name it;
     type := type it; double_val := double_val it; uint_val := uint_val it;
     int_val := int_val it; string_val := string_val it; bool_val := bool_val it |}.

Definition with_prev (v : option ptr) (it : JSONItem) : JSONItem :=
  {| next := next it; prev := v; child := child it; name := name it;
     type := type it; double_val := double_val it; uint_val := uint_val it;
     int_val := int_val it; string_val := string_val it; bool_val := bool_val it |}.

Definition with_child (v : option ptr) (it : JSONItem) : JSONItem :=
  {| next := next it; prev := prev it; child := v; name := name it;
     type := type it; double_val := double_val it; uint_val := uint_val it;
     int_val := int_val it; string_val := string_val it; bool_val := bool_val it |}.

Definition with_name (v : list ascii) (it : JSONItem) : JSONItem :=
  {| next := next it; prev := prev it; child := child it; name := v;
     type := type it; double_val := double_val it; uint_val := uint_val it;
     int_val := int_val it; string_val := string_val it; bool_val := bool_val it |}.

Definition with_type (v : JSONType) (it : JSONItem) : JSONItem :=
  {| next := next it; prev := prev it; child := child it; name := name it;
     type := v; double_val := double_val it; uint_val := uint_val it;
     int_val := int_val it; string_val := string_val it; bool_val := bool_val it |}.

Definition with_double_val (v : spec_float) (it : JSONItem) : JSONItem :=
  {| next := next it; prev := prev it; child := child it; name := name it;
     type := type it; double_val := v; uint_val := uint_val it;
     int_val := int_val it; string_val := string_val it; bool_val := bool_val it |}.

Definition with_string_val (v : list ascii) (it : JSONItem) : JSONItem :=
  {| next := next it; prev := prev it; child := child it; name := name it;
     type := type it; double_val := double_val it; uint_val := uint_val it;
     int_val := int_val it; string_val := v; bool_val := bool_val it |}.

Definition with_bool_val (v : bool) (it : JSONItem) : JSONItem :=
  {| next := next it; prev := prev it; child := child it; name := name it;
     type := type it; double_val := double_val it; uint_val := uint_val it;
     int_val := int_val it; string_val := string_val it; bool_val := v |}.

(** ** [destroy_json]

    The loop walks the [next] chain and recurses into [child]; each round
    of the embedding is one iteration or one call. *)
Fixpoint destroy_json_rounds (fuel : nat) (item : option ptr) : M unit :=
  match fuel with
  | O => out_of_fuel
  | S fuel' =>
      match item with
      | None => ret tt
      | Some a =>
          it <- load (Some a) ;;
          (match child it with
           | Some c => destroy_json_rounds fuel' (Some c)
           | None => ret tt
           end) ;;
          delete_item a ;;
          destroy_json_rounds fuel' (next it)
      end
  end.

(** Every round but the last frees a node or descends towards one, so one
    more round than there are live nodes is enough on any tree. *)
Definition destroy_json (item : option ptr) : M unit := fun w =>
  destroy_json_rounds (S (size (heap w))) item w.

(** ** The parser *)

Section Parser.

(** [PARSER_NESTING_LIMIT], a compile-time macro of the header. *)
Variable NESTING_LIMIT : Z.

(** [can_read(input_buffer, 1) && raw_json[pos] == c], and its negation
    [!can_read(input_buffer, 1) || raw_json[pos] != c]: the byte is read
    only when the guard holds. *)
Definition looking_at (b : ParseBuffer) (c : ascii) : bool :=
  (can_read b 1 &&
   match char_at b (pos b) with Some x => Char.eqb x c | None => false end)%bool.

(** [raw_json.compare(pos, n, word) == 0], used under a [can_read]
    guard, so with [pos <= size()]. *)
Definition compare_at (b : ParseBuffer) (n : nat) (word : string) : bool :=
  bool_decide (take n (drop (pos b) (raw_json b)) = bytes word).

(** The linking step shared by both container loops. *)
Definition link (parse_json : M ptr) (head current : option ptr)
    : M (option ptr * option ptr) :=
  match head with
  | None =>
      p <- parse_json ;;
      ret (Some p, Some p)
  | Some _ =>
      new_item <- parse_json ;;
      update current (with_next (Some new_item)) ;;
      update (Some new_item) (with_prev current) ;;
      ret (head, Some new_item)
  end.

(** One round of the [while] loop of [parse_array]; [continue] stands for
    the next round.  The result is [head] as the code after the loop
    finds it, whether the loop ends by its condition or by [break]. *)
Definition parse_array_round (parse_json : M ptr)
    (continue : option ptr -> option ptr -> M (option ptr))
    (head current : option ptr) : M (option ptr) :=
  c <- peek ;;
  b <- get_buf ;;
  if (negb (Char.eqb c "]") && Nat.ltb (pos b) (raw_size b))%bool then
    on_buffer skip_whitespace ;;
    hc <- link parse_json head current ;;
    on_buffer skip_whitespace ;;
    c <- peek ;;
    if Char.eqb c "]" then ret (fst hc)
    else if negb (Char.eqb c ",") then
      b <- get_buf ;;
      throw (InvalidArrayContinuation (pos b))
    else
      advance 1 ;;
      continue (fst hc) (snd hc)
  else ret head.

Definition parse_array_body
    (loop : option ptr -> option ptr -> M (option ptr)) : M (option ptr) :=
  incr_depth ;;
  b <- get_buf ;;
  if depth b >? NESTING_LIMIT then throw (NestingLimitExceeded (pos b))
  else
    on_buffer skip_whitespace ;;
    c <- peek ;;
    if Char.eqb c "]" then ret None
    else
      head <- loop None None ;;
      c <- peek ;;
      if negb (Char.eqb c "]") then throw UnexpectedEOF
      else
        advance 1 ;;
        decr_depth ;;
        ret head.

Definition parse_object_round (parse_json : M ptr)
    (continue : option ptr -> option ptr -> M (option ptr))
    (head current : option ptr) : M (option ptr) :=
  c <- peek ;;
  b <- get_buf ;;
  if (negb (Char.eqb c "}") && Nat.ltb (pos b) (raw_size b))%bool then
    on_buffer skip_whitespace ;;
    b <- get_buf ;;
    if negb (looking_at b Char.quote) then throw (BadObjectMemberName (pos b))
    else
      advance 1 ;;
      name <- on_buffer parse_string ;;
      on_buffer skip_whitespace ;;
      b <- get_buf ;;
      if negb (looking_at b ":") then throw (BadNameValueSeparator (pos b))
      else
        advance 1 ;;
        on_buffer skip_whitespace ;;
        hc <- link parse_json head current ;;
        update (snd hc) (with_name name) ;;
        on_buffer skip_whitespace ;;
        c <- peek ;;
        if Char.eqb c "}" then ret (fst hc)
        else
          b <- get_buf ;;
          if negb (looking_at b ",") then throw (InvalidObjectContinuation (pos b))
          else
            advance 1 ;;
            continue (fst hc) (snd hc)
  else ret head.

Definition parse_object_body
    (loop : option ptr -> option ptr -> M (option ptr)) : M (option ptr) :=
  incr_depth ;;
  b <- get_buf ;;
  if depth b >? NESTING_LIMIT then throw (NestingLimitExceeded (pos b))
  else
    on_buffer skip_whitespace ;;
    c <- peek ;;
    if Char.eqb c "}" then ret None
    else
      head <- loop None None ;;
      c <- peek ;;
      if negb (Char.eqb c "}") then throw UnexpectedEOF
      else
        advance 1 ;;
        decr_depth ;;
        ret head.

Definition starts_number (b : ParseBuffer) : bool :=
  (can_read b 1 &&
   match char_at b (pos b) with
   | Some x => Char.eqb x "-" || Char.eqb x "+" || Char.isdigit x
   | None => false
   end)%bool.

(** The [if]/[else if] chain inside the [try] block of [parse_json]. *)
Definition dispatch (parse_array parse_object : M (option ptr)) (item : ptr)
    : M unit :=
  b <- get_buf ;;
  if looking_at b Char.quote then
    update (Some item) (with_type j_string) ;;
    advance 1 ;;
    s <- on_buffer parse_string ;;
    update (Some item) (with_string_val s)
  else if starts_number b then
    update (Some item) (with_type j_number) ;;
    v <- on_buffer parse_number ;;
    update (Some item) (with_double_val v)
  else if looking_at b "[" then
    update (Some item) (with_type j_array) ;;
    advance 1 ;;
    c <- parse_array ;;
    update (Some item) (with_child c)
  else if looking_at b "{" then
    update (Some item) (with_type j_object) ;;
    advance 1 ;;
    c <- parse_object ;;
    update (Some item) (with_child c)
  else if (can_read b 4 && compare_at b 4 "null")%bool then
    update (Some item) (with_type j_null) ;;
    advance 4
  else if (can_read b 1 && compare_at b 4 "true")%bool then
    update (Some item) (with_type j_bool) ;;
    update (Some item) (with_bool_val true) ;;
    advance 4
  else if (can_read b 1 && compare_at b 5 "false")%bool then
    update (Some item) (with_type j_bool) ;;
    update (Some item) (with_bool_val false) ;;
    advance 5
  else throw InvalidJSON.

Definition parse_json_body (parse_array parse_object : M (option ptr)) : M ptr :=
  item <- new_JSONItem ;;
  on_buffer skip_whitespace ;;
  try_catch (dispatch parse_array parse_object item)
    (fun pe => destroy_json (Some item) ;; throw pe) ;;
  on_buffer skip_whitespace ;;
  b <- get_buf ;;
  if ((depth b =? 0) && negb (Nat.eqb (pos b) (raw_size b)))%bool
  then throw TrailingJunk
  else ret item.

(** The mutual recursion of [parse_json], [parse_array] and
    [parse_object], with one unit of fuel per call of [parse_json] and
    per round of a loop. *)
Fixpoint parse_json (fuel : nat) : M ptr :=
  match fuel with
  | O => out_of_fuel
  | S fuel' =>
      parse_json_body (parse_array_body (parse_array_loop fuel'))
                      (parse_object_body (parse_object_loop fuel'))
  end
with parse_array_loop (fuel : nat) (head current : option ptr) : M (option ptr) :=
  match fuel with
  | O => out_of_fuel
  | S fuel' =>
      parse_array_round (parse_json fuel') (parse_array_loop fuel') head current
  end
with parse_object_loop (fuel : nat) (head current : option ptr) : M (option ptr) :=
  match fuel with
  | O => out_of_fuel
  | S fuel' =>
      parse_object_round (parse_json fuel') (parse_object_loop fuel') head current
  end.

Definition parse_array (fuel : nat) : M (option ptr) :=
  parse_array_body (parse_array_loop fuel).

Definition parse_object (fuel : nat) : M (option ptr) :=
  parse_object_body (parse_object_loop fuel).

(** A caller's fresh cursor over [raw], and no node allocated yet. *)
Definition fresh (raw : list ascii) : world :=
  {| buf := {| raw_json := raw; depth := 0; pos := 0 |}; heap := ∅; brk := 1%positive |}.

(** The public entry point: [parse_json] on a fresh cursor, with two
    units of fuel per byte.  A result other than [OutOfFuel] is the result
    with any larger budget ([Fuel.parse_stable]). *)
Definition parse (raw : list ascii) : outcome ptr * world :=
  parse_json (2 * length raw + 2) (fresh raw).

End Parser.

Definition PARSER_NESTING_LIMIT : Z := 1000.

(** ** A grammar of inputs

    JSON texts built from the scalars [null], [true], [false], unsigned
    integers and string literals without escapes, and from non-empty
    arrays and objects, written without white space. *)
Module Document.

Inductive doc :=
| Null
| Bool (b : bool)
| Str (s : list ascii)
| Num (digits : list ascii)
| Arr (es : elems)
| Obj (ms : members)
with elems :=
| Last (d : doc)
| More (d : doc) (es : elems)
with members :=
| LastMember (k : list ascii) (d : doc)
| MoreMembers (k : list ascii) (d : doc) (ms : members).

Scheme doc_mut := Induction for doc Sort Prop
  with elems_mut := Induction for elems Sort Prop
  with members_mut := Induction for members Sort Prop.
Combined Scheme doc_mutind from doc_mut, elems_mut, members_mut.

Fixpoint text (d : doc) : list ascii :=
  match d with
  | Null => bytes "null"
  | Bool true => bytes "true"
  | Bool false => bytes "false"
  | Str s => Char.quote :: s ++ [Char.quote]
  | Num digits => digits
  | Arr es => "["%char :: elems_text es ++ ["]"%char]
  | Obj ms => "{"%char :: members_text ms ++ ["}"%char]
  end
with elems_text (es : elems) : list ascii :=
  match es with
  | Last d => text d
  | More d es' => text d ++ ","%char :: elems_text es'
  end
with members_text (ms : members) : list ascii :=
  match ms with
  | LastMember k d => Char.quote :: k ++ Char.quote :: ":"%char :: text d
  | MoreMembers k d ms' =>
      Char.quote :: k ++ Char.quote :: ":"%char :: text d ++ ","%char :: members_text ms'
  end.

(** The number of containers open around the innermost value. *)
Fixpoint nesting (d : doc) : Z :=
  match d with
  | Arr es => 1 + elems_nesting es
  | Obj ms => 1 + members_nesting ms
  | _ => 0
  end
with elems_nesting (es : elems) : Z :=
  match es with
  | Last d => nesting d
  | More d es' => Z.max (nesting d) (elems_nesting es')
  end
with members_nesting (ms : members) : Z :=
  match ms with
  | LastMember _ d => nesting d
  | MoreMembers _ d ms' => Z.max (nesting d) (members_nesting ms')
  end.

(** A byte that [parse_string] copies as it is. *)
Definition plain (c : ascii) : bool :=
  (negb (Char.eqb c Char.quote) && negb (Char.eqb c Char.backslash))%bool.

Definition plain_string (s : list ascii) : bool := forallb plain s.

Definition unsigned_integer (digits : list ascii) : bool :=
  (negb (Nat.eqb (length digits) 0) && forallb Char.isdigit digits)%bool.

(** The texts the development reasons about in general, a part of the
    JSON texts only: numbers are unsigned decimal integers, strings and
    names have no quote and no backslash, containers are non-empty by the
    shape of [elems] and [members], and [text] writes no white space.
    Signed or fractional numbers, escapes, empty containers and interior
    white space are outside; they are met on concrete inputs. *)
Fixpoint well_formed (d : doc) : bool :=
  match d with
  | Null | Bool _ => true
  | Str s => plain_string s
  | Num digits => unsigned_integer digits
  | Arr es => elems_well_formed es
  | Obj ms => members_well_formed ms
  end
with elems_well_formed (es : elems) : bool :=
  match es with
  | Last d => well_formed d
  | More d es' => (well_formed d && elems_well_formed es')%bool
  end
with members_well_formed (ms : members) : bool :=
  match ms with
  | LastMember k d => (plain_string k && well_formed d)%bool
  | MoreMembers k d ms' =>
      (plain_string k && well_formed d && members_well_formed ms')%bool
  end.

(** Calls of [parse_json] and rounds of loops on the longest path. *)
Fixpoint cost (d : doc) : nat :=
  match d with
  | Arr es => S (elems_cost es)
  | Obj ms => S (members_cost ms)
  | _ => 1
  end
with elems_cost (es : elems) : nat :=
  match es with
  | Last d => S (cost d)
  | More d es' => S (Nat.max (cost d) (elems_cost es'))
  end
with members_cost (ms : members) : nat :=
  match ms with
  | LastMember _ d => S (cost d)
  | MoreMembers _ d ms' => S (Nat.max (cost d) (members_cost ms'))
  end.

(** What may follow a value inside a text of the grammar. *)
Definition delimited (rest : list ascii) : Prop :=
  match rest with
  | [] => True
  | c :: _ => c = ","%char \/ c = "]"%char \/ c = "}"%char
  end.

(** [n] arrays around [d]. *)
Fixpoint nest (n : nat) (d : doc) : doc :=
  match n with
  | O => d
  | S n' => Arr (Last (nest n' d))
  end.

End Document.

(** ** Outcomes of runs

    The shapes of results that the theorems speak about. *)
Module Behaviour.

Import Document.

(** [OutOfFuel] lies below every result. *)
Definition below {A} (x y : outcome A * world) : Prop :=
  fst x = OutOfFuel \/ x = y.

Definition refines {A} (m m' : M A) : Prop := forall w, below (m w) (m' w).

Definition no_leading_space (l : list ascii) : Prop :=
  match l with
  | c :: _ => Char.isspace c = false
  | [] => True
  end.

(** The result of the dispatcher on a scalar of [n] bytes: the node
    [item] stays live and no other node changes. *)
Definition scalar_dispatched (pa po : M (option ptr)) raw dp p
    (h1 : gmap ptr JSONItem) k1 item (n : nat) : Prop :=
  exists h',
    dispatch pa po item (mkWorld (mkBuffer raw dp p) h1 k1)
      = (Ok tt, mkWorld (mkBuffer raw dp (p + n)) h' k1) /\
    is_Some (h' !! item) /\
    (forall a, a <> item -> h' !! a = h1 !! a).

(** [current], when there is a [head], is a live node at or above [base]
    and below the next address [k]. *)
Definition linked (base k : ptr) (h : gmap ptr JSONItem) (head current : option ptr) : Prop :=
  head = None \/
  exists c, is_Some head /\ current = Some c /\
            (base <= c)%positive /\ (c < k)%positive /\ is_Some (h !! c).

(** [parse_json] returns the node it allocated at [k], [p'] is the new
    position, and no node below [k] changed. *)
Definition returns_node (r : outcome ptr * world) raw dp (p' : nat)
    (h : gmap ptr JSONItem) (k : ptr) : Prop :=
  exists h' k',
    r = (Ok k, mkWorld (mkBuffer raw dp p') h' k') /\
    (k < k')%positive /\ is_Some (h' !! k) /\
    (forall a, (a < k)%positive -> h' !! a = h !! a).

(** A loop returns a non-null [head], and no node below [base] changed. *)
Definition returns_chain (r : outcome (option ptr) * world) raw dp (p' : nat)
    (h : gmap ptr JSONItem) (k base : ptr) : Prop :=
  exists hd h' k',
    r = (Ok (Some hd), mkWorld (mkBuffer raw dp p') h' k') /\
    (k <= k')%positive /\
    (forall a, (a < base)%positive -> h' !! a = h !! a).

(** The nesting limit is reported, and no node below [base] changed. *)
Definition hits_limit {A} (r : outcome A * world)
    (h : gmap ptr JSONItem) (k base : ptr) : Prop :=
  exists q b' h' k',
    r = (Throw (NestingLimitExceeded q), mkWorld b' h' k') /\
    (k <= k')%positive /\
    (forall a, (a < base)%positive -> h' !! a = h !! a).

(** [parse_json] at depth [dp] on the text of [d] followed by [rest]:
    whether it returns or reports the limit is decided by the nesting. *)
Definition json_parses (NESTING_LIMIT : Z) (d : doc) : Prop :=
  forall fuel raw dp p h k rest,
    (cost d <= fuel)%nat -> (p <= length raw)%nat ->
    drop p raw = text d ++ rest -> delimited rest ->
    0 <= dp <= NESTING_LIMIT -> (dp = 0 -> rest = []) ->
    let r := parse_json NESTING_LIMIT fuel (mkWorld (mkBuffer raw dp p) h k) in
    if dp + nesting d <=? NESTING_LIMIT
    then returns_node r raw dp (p + length (text d)) h k
    else hits_limit r h k k.

Definition elems_parse (NESTING_LIMIT : Z) (es : elems) : Prop :=
  forall fuel raw dp p h k rest base head current,
    (elems_cost es <= fuel)%nat -> (p <= length raw)%nat ->
    drop p raw = elems_text es ++ "]"%char :: rest ->
    1 <= dp <= NESTING_LIMIT -> (base <= k)%positive ->
    linked base k h head current ->
    let r := parse_array_loop NESTING_LIMIT fuel head current
               (mkWorld (mkBuffer raw dp p) h k) in
    if dp + elems_nesting es <=? NESTING_LIMIT
    then returns_chain r raw dp (p + length (elems_text es)) h k base
    else hits_limit r h k base.

Definition members_parse (NESTING_LIMIT : Z) (ms : members) : Prop :=
  forall fuel raw dp p h k rest base head current,
    (members_cost ms <= fuel)%nat -> (p <= length raw)%nat ->
    drop p raw = members_text ms ++ "}"%char :: rest ->
    1 <= dp <= NESTING_LIMIT -> (base <= k)%positive ->
    linked base k h head current ->
    let r := parse_object_loop NESTING_LIMIT fuel head current
               (mkWorld (mkBuffer raw dp p) h k) in
    if dp + members_nesting ms <=? NESTING_LIMIT
    then returns_chain r raw dp (p + length (members_text ms)) h k base
    else hits_limit r h k base.

(** The node of a scalar number: no name, no sibling, no child. *)
Definition number_node (v : spec_float) : JSONItem :=
  {| next := None; prev := None; child := None; name := [];
     type := j_number; double_val := v; uint_val := 0; int_val := 0;
     string_val := []; bool_val := false |}.

(** [n] opening brackets and [n] closing ones: arrays nested [n] deep
    around nothing. *)
Definition brackets (n : nat) : list ascii :=
  replicate n "["%char ++ replicate n "]"%char.

(** The sibling chain from [p] along [next], and the children of a node. *)
Fixpoint chain_from (fuel : nat) (h : gmap ptr JSONItem) (p : option ptr) : list ptr :=
  match fuel, p with
  | S fuel', Some a =>
      a :: chain_from fuel' h (match h !! a with Some it => next it | None => None end)
  | _, _ => []
  end.

Definition children (h : gmap ptr JSONItem) (a : ptr) : list ptr :=
  match h !! a with
  | Some it => chain_from (S (size h)) h (child it)
  | None => []
  end.

End Behaviour.

(** ** The nesting of a text

    The deepest nesting of brackets in a text, outside its string
    literals: [open] counts the containers open at the current byte. *)
Fixpoint deepest (l : list ascii) (in_string escaped : bool) (open best : Z) : Z :=
  match l with
  | [] => best
  | c :: l' =>
      if in_string then
        if escaped then deepest l' true false open best
        else if Char.eqb c Char.backslash then deepest l' true true open best
        else if Char.eqb c Char.quote then deepest l' false false open best
        else deepest l' true false open best
      else if Char.eqb c Char.quote then deepest l' true false open best
      else if (Char.eqb c "[" || Char.eqb c "{")%bool
      then deepest l' false false (open + 1) (Z.max best (open + 1))
      else if (Char.eqb c "]" || Char.eqb c "}")%bool
      then deepest l' false false (open - 1) best
      else deepest l' false false open best
  end.

Definition max_nesting (l : list ascii) : Z := deepest l false false 0 0.

(** ** The lexemes of [strtod]

    The subject sequences of C11 7.22.1.3, by their parts: an optional
    sign, then a decimal or a hexadecimal floating constant, an infinity
    or a NaN, letters in either case. *)
Module Lexeme.

Inductive sign_mark := NoSign | Plus | Minus.

Definition sign_text (s : sign_mark) : list ascii :=
  match s with
  | NoSign => []
  | Plus => ["+"%char]
  | Minus => ["-"%char]
  end.

(** An exponent part: its letter, an optional sign and decimal digits. *)
Record exponent_part := mkExponent {
  marker : ascii;
  exponent_sign : sign_mark;
  exponent_digits : list ascii
}.

Definition exponent_text (e : option exponent_part) : list ascii :=
  match e with
  | None => []
  | Some x => marker x :: sign_text (exponent_sign x) ++ exponent_digits x
  end.

(** The radix character and the digits after it. *)
Definition fraction_text (f : option (list ascii)) : list ascii :=
  match f with
  | None => []
  | Some fp => "."%char :: fp
  end.

Definition digits_of (f : option (list ascii)) : list ascii :=
  match f with
  | None => []
  | Some fp => fp
  end.

Inductive form :=
| Decimal (ip : list ascii) (fp : option (list ascii)) (e : option exponent_part)
| Hexadecimal (x : ascii) (ip : list ascii) (fp : option (list ascii))
    (e : option exponent_part)
| Infinity (word : list ascii)
| NaN (word : list ascii) (seq : option (list ascii)).

Definition form_text (f : form) : list ascii :=
  match f with
  | Decimal ip fp e => ip ++ fraction_text fp ++ exponent_text e
  | Hexadecimal x ip fp e => "0"%char :: x :: ip ++ fraction_text fp ++ exponent_text e
  | Infinity w => w
  | NaN w seq =>
      w ++ match seq with
           | None => []
           | Some s => "("%char :: s ++ [")"%char]
           end
  end.

Record lexeme := mkLexeme {
  lexeme_sign : sign_mark;
  lexeme_form : form
}.

Definition lexeme_text (l : lexeme) : list ascii :=
  sign_text (lexeme_sign l) ++ form_text (lexeme_form l).

(** A letter in either case. *)
Definition letter (lower upper c : ascii) : bool :=
  (Char.eqb c lower || Char.eqb c upper)%bool.

(** [w] spells [word], each letter in either case. *)
Fixpoint spells (word : list (ascii * ascii)) (w : list ascii) : bool :=
  match word, w with
  | [], [] => true
  | (lower, upper) :: word', c :: w' => (letter lower upper c && spells word' w')%bool
  | _, _ => false
  end.

Definition INF : list (ascii * ascii) :=
  [("i", "I"); ("n", "N"); ("f", "F")]%char.

Definition INFINITY : list (ascii * ascii) :=
  [("i", "I"); ("n", "N"); ("f", "F"); ("i", "I"); ("n", "N"); ("i", "I");
   ("t", "T"); ("y", "Y")]%char.

Definition NAN : list (ascii * ascii) :=
  [("n", "N"); ("a", "A"); ("n", "N")]%char.

(** The characters of an n-char-sequence: digits, letters and the
    underscore. *)
Definition nchar (c : ascii) : bool :=
  (Char.between 48 57 c || Char.between 65 90 c || Char.between 97 122 c ||
   Char.eqb c "_")%bool.

(** An exponent part is introduced by its letter in either case and has
    at least one digit. *)
Definition exponent_ok (lower upper : ascii) (e : option exponent_part) : bool :=
  match e with
  | None => true
  | Some x =>
      (letter lower upper (marker x) &&
       negb (Nat.eqb (length (exponent_digits x)) 0) &&
       forallb Char.isdigit (exponent_digits x))%bool
  end.

(** A nonempty sequence of digits optionally containing a radix
    character. *)
Definition digits_ok (isd : ascii -> bool) (ip : list ascii) (fp : option (list ascii))
    : bool :=
  (forallb isd ip && forallb isd (digits_of fp) &&
   negb (Nat.eqb (length (ip ++ digits_of fp)) 0))%bool.

Definition is_lexeme (l : lexeme) : bool :=
  match lexeme_form l with
  | Decimal ip fp e => (digits_ok Char.isdigit ip fp && exponent_ok "e" "E" e)%bool
  | Hexadecimal x ip fp e =>
      (letter "x" "X" x && digits_ok Char.isxdigit ip fp && exponent_ok "p" "P" e)%bool
  | Infinity w => (spells INF w || spells INFINITY w)%bool
  | NaN w seq => (spells NAN w && forallb nchar (digits_of seq))%bool
  end.

(** The lexemes on which the dispatcher of [parse_json] takes the number
    branch: those that start with a sign or a digit. *)
Definition routed (l : lexeme) : bool :=
  match lexeme_text l with
  | c :: _ => (Char.eqb c "-" || Char.eqb c "+" || Char.isdigit c)%bool
  | [] => false
  end.

(** What may follow a lexeme in a JSON text: white space, a comma, a
    closing bracket or brace, or nothing. *)
Definition follows (c : ascii) : bool :=
  (Char.isspace c || Char.eqb c "," || Char.eqb c "]" || Char.eqb c "}")%bool.

Definition ended (rest : list ascii) : Prop :=
  match rest with
  | [] => True
  | c :: _ => follows c = true
  end.

(** The head of what follows a sequence of digits is no digit, and no
    radix character when the sequence has none. *)
Definition closes (isd : ascii -> bool) (fp : option (list ascii)) (rest : list ascii)
    : Prop :=
  match rest with
  | [] => True
  | c :: _ => isd c = false /\ (fp = None -> Char.eqb c "." = false)
  end.

(** The head of what follows an exponent part, or its place, does not
    continue it. *)
Definition closes_exponent (m : ascii) (e : option exponent_part) (rest : list ascii)
    : Prop :=
  match rest with
  | [] => True
  | c :: _ => Char.isdigit c = false /\ Char.eqb (Char.tolower c) m = false
  end.

(** No byte of a decimal lexeme is an x. *)
Definition no_x (c : ascii) : bool := negb (Char.eqb (Char.tolower c) "x").

End Lexeme.

(** ** Literals with escapes

    How bytes are written inside a string literal so that [parse_string]
    reads them back. *)
Module Literal.

(** The five control characters go through their escapes, every other
    byte stands for itself. *)
Definition written (c : ascii) : list ascii :=
  if Char.eqb c Char.BS then [Char.backslash; "b"%char]
  else if Char.eqb c Char.FF then [Char.backslash; "f"%char]
  else if Char.eqb c Char.LF then [Char.backslash; "n"%char]
  else if Char.eqb c Char.CR then [Char.backslash; "r"%char]
  else if Char.eqb c Char.TAB then [Char.backslash; "t"%char]
  else [c].

Definition literal (s : list ascii) : list ascii := flat_map written s.

(** The escapes whose [case] ends in [break]. *)
Definition decodable (e : ascii) : bool :=
  (Char.eqb e "b" || Char.eqb e "f" || Char.eqb e "n" || Char.eqb e "r" || Char.eqb e "t")%bool.

(** The bytes on which one of the branches of the dispatcher can start. *)
Definition opens_value (c : ascii) : bool :=
  (Char.eqb c Char.quote || Char.eqb c "-" || Char.eqb c "+" || Char.isdigit c ||
   Char.eqb c "[" || Char.eqb c "{" ||
   Char.eqb c "n" || Char.eqb c "t" || Char.eqb c "f")%bool.

(** Nothing, or a byte that is neither white space nor the start of a
    value. *)
Definition no_value_at (rest : list ascii) : bool :=
  match rest with
  | [] => true
  | c :: _ => (negb (Char.isspace c) && negb (opens_value c))%bool
  end.

End Literal.

(** ** The tree of a text

    What [parse_json] builds in the heap for a text of the grammar, node
    by node, and what a client reads back from a tree. *)
Module Tree.

Import Document Behaviour.

(** The number of nodes of a value: one for itself and those of its
    elements. *)
Fixpoint nodes (d : doc) : positive :=
  match d with
  | Arr es => Pos.succ (elems_nodes es)
  | Obj ms => Pos.succ (members_nodes ms)
  | _ => 1
  end
with elems_nodes (es : elems) : positive :=
  match es with
  | Last d => nodes d
  | More d es' => nodes d + elems_nodes es'
  end
with members_nodes (ms : members) : positive :=
  match ms with
  | LastMember _ d => nodes d
  | MoreMembers _ d ms' => nodes d + members_nodes ms'
  end.

(** The node of [d] at address [k], with its name and sibling links: the
    first child of a container is the next address. *)
Definition node_of (d : doc) (k : ptr) (nm : list ascii) (pv nx : option ptr) : JSONItem :=
  {| next := nx; prev := pv;
     child := match d with Arr _ | Obj _ => Some (Pos.succ k) | _ => None end;
     name := nm;
     type := match d with
             | Null => j_null | Bool _ => j_bool | Str _ => j_string
             | Num _ => j_number | Arr _ => j_array | Obj _ => j_object
             end;
     double_val := match d with Num ds => fst (Strtod.strtod ds) | _ => S754_zero false end;
     uint_val := 0; int_val := 0;
     string_val := match d with Str s => s | _ => [] end;
     bool_val := match d with Bool b => b | _ => false end |}.

(** The nodes of [d] lie in the heap from [k] on, in the order of the
    text; the elements of a container are chained through [next] and
    [prev], the members of an object carry their names. *)
Fixpoint rep (h : gmap ptr JSONItem) (k : ptr) (d : doc) (nm : list ascii)
    (pv nx : option ptr) {struct d} : Prop :=
  h !! k = Some (node_of d k nm pv nx) /\
  match d with
  | Arr es => rep_elems h (Pos.succ k) es None
  | Obj ms => rep_members h (Pos.succ k) ms None
  | _ => True
  end
with rep_elems (h : gmap ptr JSONItem) (k : ptr) (es : elems) (pv : option ptr)
    {struct es} : Prop :=
  match es with
  | Last d => rep h k d [] pv None
  | More d es' =>
      rep h k d [] pv (Some (k + nodes d)%positive) /\
      rep_elems h (k + nodes d) es' (Some k)
  end
with rep_members (h : gmap ptr JSONItem) (k : ptr) (ms : members) (pv : option ptr)
    {struct ms} : Prop :=
  match ms with
  | LastMember nm d => rep h k d nm pv None
  | MoreMembers nm d ms' =>
      rep h k d nm pv (Some (k + nodes d)%positive) /\
      rep_members h (k + nodes d) ms' (Some k)
  end.

(** JSON values as a client sees them; the elements of a container come
    with the [name] found on their nodes. *)
#[warnings="-register-all"] Inductive value :=
| VNull
| VBool (b : bool)
| VString (s : list ascii)
| VNumber (v : spec_float)
| VArray (es : list (list ascii * value))
| VObject (ms : list (list ascii * value)).

(** Reading a tree as a client does: the kind from [type], the scalar
    from the field of that kind, the elements along [child] and [next],
    each with its name.  Walking a chain, the reader checks that the
    [prev] of each node is the node it came from, [before]. *)
Fixpoint read (fuel : nat) (h : gmap ptr JSONItem) (a : ptr) : option value :=
  match fuel with
  | O => None
  | S fuel' =>
      match h !! a with
      | None => None
      | Some it =>
          match type it with
          | j_null => Some VNull
          | j_bool => Some (VBool (bool_val it))
          | j_string => Some (VString (string_val it))
          | j_number => Some (VNumber (double_val it))
          | j_array =>
              match read_chain fuel' h None (child it) with
              | Some l => Some (VArray l)
              | None => None
              end
          | j_object =>
              match read_chain fuel' h None (child it) with
              | Some l => Some (VObject l)
              | None => None
              end
          end
      end
  end
with read_chain (fuel : nat) (h : gmap ptr JSONItem) (before p : option ptr)
    : option (list (list ascii * value)) :=
  match fuel with
  | O => None
  | S fuel' =>
      match p with
      | None => Some []
      | Some a =>
          match h !! a, read fuel' h a with
          | Some it, Some v =>
              if bool_decide (prev it = before) then
                match read_chain fuel' h (Some a) (next it) with
                | Some l => Some ((name it, v) :: l)
                | None => None
                end
              else None
          | _, _ => None
          end
      end
  end.

(** The root is read as a chain of its own: the result is the list of
    the root and its siblings, each with its name. *)
Definition read_tree (h : gmap ptr JSONItem) (root : ptr)
    : option (list (list ascii * value)) :=
  read_chain (2 * size h + 1) h None (Some root).

(** The value a text of the grammar denotes. *)
Fixpoint value_of (d : doc) : value :=
  match d with
  | Null => VNull
  | Bool b => VBool b
  | Str s => VString s
  | Num ds => VNumber (fst (Strtod.strtod ds))
  | Arr es => VArray (elems_values es)
  | Obj ms => VObject (members_values ms)
  end
with elems_values (es : elems) : list (list ascii * value) :=
  match es with
  | Last d => [([], value_of d)]
  | More d es' => ([], value_of d) :: elems_values es'
  end
with members_values (ms : members) : list (list ascii * value) :=
  match ms with
  | LastMember nm d => [(nm, value_of d)]
  | MoreMembers nm d ms' => (nm, value_of d) :: members_values ms'
  end.

(** The state of a loop between two elements: [current] is a live node
    below [k] when there is a [head], and null otherwise. *)
Definition attached (h : gmap ptr JSONItem) (k : ptr) (head current : option ptr) : Prop :=
  match current with
  | Some c => (c < k)%positive /\ is_Some head /\ is_Some (h !! c)
  | None => head = None
  end.

Definition first_of (head : option ptr) (k : ptr) : ptr :=
  match head with Some hd => hd | None => k end.

(** [parse_json] on the text of [d] allocates exactly the nodes of [d]
    from [k] on and touches no other node. *)
Definition json_builds (NESTING_LIMIT : Z) (d : doc) : Prop :=
  forall fuel raw dp p h k rest,
    (cost d <= fuel)%nat -> (p <= length raw)%nat ->
    drop p raw = text d ++ rest -> delimited rest ->
    0 <= dp <= NESTING_LIMIT -> (dp = 0 -> rest = []) ->
    dp + nesting d <= NESTING_LIMIT ->
    exists h',
      parse_json NESTING_LIMIT fuel (mkWorld (mkBuffer raw dp p) h k)
      = (Ok k, mkWorld (mkBuffer raw dp (p + length (text d))) h' (k + nodes d)) /\
      rep h' k d [] None None /\
      (forall a, (a < k \/ k + nodes d <= a)%positive -> h' !! a = h !! a).

(** A loop builds the chain of its elements from [k] on, hangs it after
    [current], and touches no other node. *)
Definition elems_build (NESTING_LIMIT : Z) (es : elems) : Prop :=
  forall fuel raw dp p h k rest head current,
    (elems_cost es <= fuel)%nat -> (p <= length raw)%nat ->
    drop p raw = elems_text es ++ "]"%char :: rest ->
    1 <= dp <= NESTING_LIMIT -> dp + elems_nesting es <= NESTING_LIMIT ->
    attached h k head current ->
    exists h',
      parse_array_loop NESTING_LIMIT fuel head current (mkWorld (mkBuffer raw dp p) h k)
      = (Ok (Some (first_of head k)),
         mkWorld (mkBuffer raw dp (p + length (elems_text es))) h' (k + elems_nodes es)) /\
      rep_elems h' k es current /\
      (forall c, current = Some c -> h' !! c = with_next (Some k) <$> h !! c) /\
      (forall a, (a < k \/ k + elems_nodes es <= a)%positive -> current <> Some a ->
                 h' !! a = h !! a).

Definition members_build (NESTING_LIMIT : Z) (ms : members) : Prop :=
  forall fuel raw dp p h k rest head current,
    (members_cost ms <= fuel)%nat -> (p <= length raw)%nat ->
    drop p raw = members_text ms ++ "}"%char :: rest ->
    1 <= dp <= NESTING_LIMIT -> dp + members_nesting ms <= NESTING_LIMIT ->
    attached h k head current ->
    exists h',
      parse_object_loop NESTING_LIMIT fuel head current (mkWorld (mkBuffer raw dp p) h k)
      = (Ok (Some (first_of head k)),
         mkWorld (mkBuffer raw dp (p + length (members_text ms))) h' (k + members_nodes ms)) /\
      rep_members h' k ms current /\
      (forall c, current = Some c -> h' !! c = with_next (Some k) <$> h !! c) /\
      (forall a, (a < k \/ k + members_nodes ms <= a)%positive -> current <> Some a ->
                 h' !! a = h !! a).

(** What may follow a value where [parse_json] was called: a delimiter of
    the grammar, white space, or the end. *)
Definition ends_value (rest : list ascii) : bool :=
  match rest with
  | [] => true
  | c :: _ => (Char.isspace c || Char.eqb c "," || Char.eqb c "]" || Char.eqb c "}")%bool
  end.

(** The dispatcher of [parse_json] on the text of [d], with the fresh node
    at [k]: it fills that node, allocates the other nodes of [d] after it
    and touches no other node. *)
Definition dispatch_builds (NESTING_LIMIT : Z) (d : doc) : Prop :=
  forall f raw dp p (h : gmap ptr JSONItem) k rest,
    (cost d <= S f)%nat -> (p <= length raw)%nat ->
    drop p raw = text d ++ rest -> ends_value rest = true ->
    0 <= dp <= NESTING_LIMIT -> dp + nesting d <= NESTING_LIMIT ->
    exists h',
      dispatch (parse_array_body NESTING_LIMIT (parse_array_loop NESTING_LIMIT f))
               (parse_object_body NESTING_LIMIT (parse_object_loop NESTING_LIMIT f))
               k (mkWorld (mkBuffer raw dp p) (<[k := zero_item]> h) (Pos.succ k))
      = (Ok tt, mkWorld (mkBuffer raw dp (p + length (text d))) h' (k + nodes d)) /\
      rep h' k d [] None None /\
      (forall a, (a < k \/ k + nodes d <= a)%positive -> h' !! a = h !! a).

(** [h'] is [h] without the addresses from [lo] up to [hi]. *)
Definition cleared (h h' : gmap ptr JSONItem) (lo hi : ptr) : Prop :=
  (forall a, (lo <= a < hi)%positive -> h' !! a = None) /\
  (forall a, (a < lo \/ hi <= a)%positive -> h' !! a = h !! a).

End Tree.

(** ** Fuel

    More fuel never changes an outcome other than [OutOfFuel]: the three
    recursive functions are monotone for the order in which [OutOfFuel]
    lies below every result. *)
Module Fuel.

Import Behaviour.

Lemma refines_refl {A} (m : M A) : refines m m.
Proof. intros w. right. reflexivity. Qed.

Lemma refines_bottom {A} (m : M A) : refines out_of_fuel m.
Proof. intros w. left. reflexivity. Qed.

Lemma refines_bind {A B} (m m' : M A) (k k' : A -> M B) :
  refines m m' -> (forall a, refines (k a) (k' a)) ->
  refines (bind m k) (bind m' k').
Proof.
  intros Hm Hk w. unfold bind.
  destruct (Hm w) as [Hbot | Heq].
  - left. destruct (m w) as [[] ?]; simpl in *; congruence.
  - rewrite <- Heq. destruct (m w) as [[a| | |] w1]; try (right; reflexivity).
    apply Hk.
Qed.

Lemma refines_try_catch {A} (m m' : M A) (h : ParseError -> M A) :
  refines m m' -> refines (try_catch m h) (try_catch m' h).
Proof.
  intros Hm w. unfold try_catch.
  destruct (Hm w) as [Hbot | Heq].
  - left. destruct (m w) as [[] ?]; simpl in *; congruence.
  - rewrite <- Heq. right. reflexivity.
Qed.

Lemma refines_if {A} (c : bool) (m1 m1' m2 m2' : M A) :
  refines m1 m1' -> refines m2 m2' ->
  refines (if c then m1 else m2) (if c then m1' else m2').
Proof. destruct c; auto. Qed.

Ltac step :=
  match goal with
  | |- refines ?m ?m => apply refines_refl
  | |- refines (if ?c then _ else _) (if ?c then _ else _) => apply refines_if
  | |- refines (try_catch _ _) (try_catch _ _) => apply refines_try_catch
  | |- refines (bind _ _) (bind _ _) => apply refines_bind; [ | intro ]
  | |- _ => assumption
  end.

Section Monotone.

Variable NESTING_LIMIT : Z.

Lemma refines_link (pj pj' : M ptr) head current :
  refines pj pj' -> refines (link pj head current) (link pj' head current).
Proof. intros H. unfold link. destruct head; repeat step. Qed.

Lemma refines_array_round (pj pj' : M ptr) k k' head current :
  refines pj pj' -> (forall h c, refines (k h c) (k' h c)) ->
  refines (parse_array_round pj k head current)
          (parse_array_round pj' k' head current).
Proof.
  intros Hpj Hk. unfold parse_array_round.
  repeat first [ apply refines_link | apply Hk | step ].
Qed.

Lemma refines_object_round (pj pj' : M ptr) k k' head current :
  refines pj pj' -> (forall h c, refines (k h c) (k' h c)) ->
  refines (parse_object_round pj k head current)
          (parse_object_round pj' k' head current).
Proof.
  intros Hpj Hk. unfold parse_object_round.
  repeat first [ apply refines_link | apply Hk | step ].
Qed.

Lemma refines_array_body loop loop' :
  (forall h c, refines (loop h c) (loop' h c)) ->
  refines (parse_array_body NESTING_LIMIT loop)
          (parse_array_body NESTING_LIMIT loop').
Proof. intros Hl. unfold parse_array_body. repeat first [ apply Hl | step ]. Qed.

Lemma refines_object_body loop loop' :
  (forall h c, refines (loop h c) (loop' h c)) ->
  refines (parse_object_body NESTING_LIMIT loop)
          (parse_object_body NESTING_LIMIT loop').
Proof. intros Hl. unfold parse_object_body. repeat first [ apply Hl | step ]. Qed.

Lemma refines_json_body pa pa' po po' :
  refines pa pa' -> refines po po' ->
  refines (parse_json_body pa po) (parse_json_body pa' po').
Proof.
  intros Ha Ho. unfold parse_json_body, dispatch. repeat step.
Qed.

Lemma refines_step (n : nat) :
  refines (parse_json NESTING_LIMIT n) (parse_json NESTING_LIMIT (S n)) /\
  (forall h c, refines (parse_array_loop NESTING_LIMIT n h c)
                       (parse_array_loop NESTING_LIMIT (S n) h c)) /\
  (forall h c, refines (parse_object_loop NESTING_LIMIT n h c)
                       (parse_object_loop NESTING_LIMIT (S n) h c)).
Proof.
  induction n as [| n (IHj & IHa & IHo)].
  - repeat split; intros; apply refines_bottom.
  - repeat split; intros.
    + change (refines
        (parse_json_body (parse_array_body NESTING_LIMIT (parse_array_loop NESTING_LIMIT n))
                         (parse_object_body NESTING_LIMIT (parse_object_loop NESTING_LIMIT n)))
        (parse_json_body (parse_array_body NESTING_LIMIT (parse_array_loop NESTING_LIMIT (S n)))
                         (parse_object_body NESTING_LIMIT (parse_object_loop NESTING_LIMIT (S n))))).
      apply refines_json_body;
        [ apply refines_array_body | apply refines_object_body ]; assumption.
    + change (refines
        (parse_array_round (parse_json NESTING_LIMIT n) (parse_array_loop NESTING_LIMIT n) h c)
        (parse_array_round (parse_json NESTING_LIMIT (S n))
                           (parse_array_loop NESTING_LIMIT (S n)) h c)).
      apply refines_array_round; assumption.
    + change (refines
        (parse_object_round (parse_json NESTING_LIMIT n) (parse_object_loop NESTING_LIMIT n) h c)
        (parse_object_round (parse_json NESTING_LIMIT (S n))
                            (parse_object_loop NESTING_LIMIT (S n)) h c)).
      apply refines_object_round; assumption.
Qed.

Lemma below_trans {A} (x y z : outcome A * world) :
  below x y -> below y z -> below x z.
Proof.
  intros [Hx | ->] Hyz; [left; assumption | assumption].
Qed.

Lemma refines_le (n n' : nat) :
  (n <= n')%nat ->
  refines (parse_json NESTING_LIMIT n) (parse_json NESTING_LIMIT n') /\
  (forall h c, refines (parse_array_loop NESTING_LIMIT n h c)
                       (parse_array_loop NESTING_LIMIT n' h c)) /\
  (forall h c, refines (parse_object_loop NESTING_LIMIT n h c)
                       (parse_object_loop NESTING_LIMIT n' h c)).
Proof.
  induction 1 as [| m Hle (IHj & IHa & IHo)].
  - repeat split; intros; apply refines_refl.
  - destruct (refines_step m) as (Sj & Sa & So).
    repeat split; intros; intro w; eapply below_trans;
      first [ apply IHj | apply IHa | apply IHo | idtac ];
      first [ apply Sj | apply Sa | apply So ].
Qed.

(** A result reached with some fuel is the result with any larger
    fuel. *)
Lemma parse_json_fuel (n n' : nat) (w : world) :
  (n <= n')%nat ->
  fst (parse_json NESTING_LIMIT n w) <> OutOfFuel ->
  parse_json NESTING_LIMIT n' w = parse_json NESTING_LIMIT n w.
Proof.
  intros Hle Hdef.
  destruct (refines_le n n' Hle) as (Hj & _).
  destruct (Hj w) as [Hbot | Heq]; [contradiction | symmetry; exact Heq].
Qed.

Lemma parse_stable (raw : list ascii) (fuel : nat) :
  (2 * length raw + 2 <= fuel)%nat ->
  fst (parse NESTING_LIMIT raw) <> OutOfFuel ->
  parse_json NESTING_LIMIT fuel (fresh raw) = parse NESTING_LIMIT raw.
Proof.
  intros Hle Hdef. unfold parse. apply parse_json_fuel; assumption.
Qed.

End Monotone.

End Fuel.

(** ** Running the parser on a known prefix

    Equations for the primitive steps when the bytes from [pos] on are
    known; they drive the proofs about whole families of inputs. *)
Module Exec.

Import Document Behaviour.

Lemma drop_cons_lookup (raw : list ascii) (p : nat) c l :
  drop p raw = c :: l -> raw !! p = Some c /\ (p < length raw)%nat.
Proof.
  intros H. split.
  - rewrite <- (Nat.add_0_r p), <- lookup_drop, H. reflexivity.
  - destruct (Nat.lt_ge_cases p (length raw)) as [Hlt | Hge]; [exact Hlt |].
    rewrite drop_ge in H by exact Hge. discriminate.
Qed.

Lemma drop_app_advance (raw : list ascii) (p : nat) l1 l2 :
  drop p raw = l1 ++ l2 -> drop (p + length l1) raw = l2.
Proof.
  intros H. rewrite <- drop_drop, H, drop_app_length. reflexivity.
Qed.

Lemma drop_app_bound (raw : list ascii) (p : nat) l1 l2 :
  (p <= length raw)%nat -> drop p raw = l1 ++ l2 ->
  (p + length l1 <= length raw)%nat.
Proof.
  intros Hp H. apply (f_equal length) in H.
  rewrite length_drop, length_app in H. lia.
Qed.

Lemma char_at_head raw dp p c l :
  drop p raw = c :: l -> char_at (mkBuffer raw dp p) p = Some c.
Proof.
  intros H. destruct (drop_cons_lookup _ _ _ _ H) as [Hl _].
  unfold char_at. simpl. rewrite Hl. reflexivity.
Qed.

Lemma char_at_end raw dp p :
  (p <= length raw)%nat -> drop p raw = [] ->
  char_at (mkBuffer raw dp p) p = Some Char.NUL.
Proof.
  intros Hp H. apply (f_equal length) in H. rewrite length_drop in H. simpl in H.
  assert (p = length raw) as -> by lia.
  unfold char_at, raw_size. simpl.
  rewrite lookup_ge_None_2 by lia. rewrite Nat.eqb_refl. reflexivity.
Qed.

Lemma can_read_prefix raw dp p n l :
  drop p raw = l -> (0 < n <= length l)%nat ->
  can_read (mkBuffer raw dp p) n = true.
Proof.
  intros H Hn. apply (f_equal length) in H. rewrite length_drop in H.
  unfold can_read, raw_size. simpl.
  apply andb_true_iff. split.
  - apply negb_true_iff, Nat.eqb_neq. lia.
  - apply Nat.leb_le. lia.
Qed.

Lemma looking_at_head raw dp p c l x :
  drop p raw = c :: l -> looking_at (mkBuffer raw dp p) x = Char.eqb c x.
Proof.
  intros H. unfold looking_at.
  rewrite (can_read_prefix raw dp p 1 _ H) by (simpl; lia).
  simpl pos. rewrite (char_at_head _ _ _ _ _ H). reflexivity.
Qed.

Lemma starts_number_head raw dp p c l :
  drop p raw = c :: l ->
  starts_number (mkBuffer raw dp p) =
    (Char.eqb c "-" || Char.eqb c "+" || Char.isdigit c)%bool.
Proof.
  intros H. unfold starts_number.
  rewrite (can_read_prefix raw dp p 1 _ H) by (simpl; lia).
  simpl pos. rewrite (char_at_head _ _ _ _ _ H). reflexivity.
Qed.

Lemma skip_whitespace_stays raw dp p :
  (p <= length raw)%nat -> no_leading_space (drop p raw) ->
  skip_whitespace (mkBuffer raw dp p) = (Ok tt, mkBuffer raw dp p).
Proof.
  intros Hp Hs. unfold skip_whitespace, raw_size. cbn [pos raw_json].
  destruct (Nat.leb_spec p (length raw)) as [_ | Hgt]; [| lia].
  destruct (drop p raw) as [| c l]; cbn in *; [reflexivity |].
  rewrite Hs. reflexivity.
Qed.

Lemma peek_head raw dp p h k c l :
  drop p raw = c :: l ->
  peek (mkWorld (mkBuffer raw dp p) h k) = (Ok c, mkWorld (mkBuffer raw dp p) h k).
Proof.
  intros H. unfold peek. simpl. rewrite (char_at_head _ _ _ _ _ H). reflexivity.
Qed.


Lemma bind_ok {A B} (m : M A) (k : A -> M B) w a w' :
  m w = (Ok a, w') -> bind m k w = k a w'.
Proof. intros H. unfold bind. rewrite H. reflexivity. Qed.

Lemma bind_throw {A B} (m : M A) (k : A -> M B) w e w' :
  m w = (Throw e, w') -> bind m k w = (Throw e, w').
Proof. intros H. unfold bind. rewrite H. reflexivity. Qed.

Lemma on_buffer_eq {A} (f : scan A) b h k r b' :
  f b = (r, b') -> on_buffer f (mkWorld b h k) = (r, mkWorld b' h k).
Proof. intros H. unfold on_buffer. simpl. rewrite H. reflexivity. Qed.

Lemma skip_stays raw dp p h k :
  (p <= length raw)%nat -> no_leading_space (drop p raw) ->
  on_buffer skip_whitespace (mkWorld (mkBuffer raw dp p) h k)
  = (Ok tt, mkWorld (mkBuffer raw dp p) h k).
Proof.
  intros Hp Hs. apply on_buffer_eq, skip_whitespace_stays; assumption.
Qed.

Lemma update_live a f b (h : gmap ptr JSONItem) k it :
  h !! a = Some it ->
  update (Some a) f (mkWorld b h k) = (Ok tt, mkWorld b (<[a := f it]> h) k).
Proof.
  intros H. unfold update, bind, load. simpl. rewrite H. reflexivity.
Qed.

(** *** Plain string literals *)

Lemma parse_string_from_plain s rest p out :
  forallb plain s = true ->
  parse_string_from (s ++ Char.quote :: rest) p out = (Ok (out ++ s), (p + length s)%nat).
Proof.
  revert p out. induction s as [| c s IH]; intros p out Hs.
  - simpl. rewrite app_nil_r, Nat.add_0_r. reflexivity.
  - simpl in Hs. apply andb_true_iff in Hs as [Hc Hs].
    apply andb_true_iff in Hc as [Hq Hb].
    apply negb_true_iff in Hq. rewrite negb_true_iff in Hb.
    cbn [app parse_string_from]. rewrite Hq, Hb. cbn [negb].
    rewrite IH by assumption. rewrite <- app_assoc. cbn [app length].
    f_equal. lia.
Qed.

Lemma parse_string_plain raw dp p s rest :
  (p <= length raw)%nat -> drop p raw = s ++ Char.quote :: rest ->
  forallb plain s = true ->
  parse_string (mkBuffer raw dp p) = (Ok s, mkBuffer raw dp (p + length s + 1)).
Proof.
  intros Hp Hd Hs. unfold parse_string, raw_size. cbn [pos raw_json].
  destruct (Nat.leb_spec p (length raw)) as [_ | Hgt]; [| lia].
  rewrite Hd, parse_string_from_plain by assumption.
  cbn [app]. unfold set_pos. cbn [raw_json depth]. repeat f_equal. lia.
Qed.

End Exec.

(** ** Unsigned integers under [strtod] *)
Module Numbers.

Import Document Behaviour.

Lemma cost_bound :
  (forall d, (cost d <= 2 * length (text d) + 1)%nat) /\
  (forall es, (elems_cost es <= 2 * length (elems_text es) + 2)%nat) /\
  (forall ms, (members_cost ms <= 2 * length (members_text ms) + 2)%nat).
Proof.
  apply doc_mutind; intros; cbn [cost elems_cost members_cost text elems_text members_text];
    repeat (rewrite ?length_app, ?length_cons); try lia.
Qed.

Lemma digit_facts (d : ascii) :
  Char.isdigit d = true ->
  Char.isspace d = false /\ Char.eqb d "-" = false /\ Char.eqb d "+" = false /\
  Char.eqb (Char.tolower d) "x" = false /\ Char.eqb d Char.quote = false /\
  Char.eqb d "[" = false /\ Char.eqb d "{" = false /\
  Char.eqb d "]" = false /\ Char.eqb d "}" = false.
Proof.
  destruct d as [[] [] [] [] [] [] [] []]; vm_compute; intros H;
    try discriminate H; repeat split; reflexivity.
Qed.

Lemma delimited_no_space rest : delimited rest -> no_leading_space rest.
Proof.
  destruct rest as [| c r]; [intros; exact I |].
  intros [-> | [-> | ->]]; reflexivity.
Qed.

Lemma span_digits ds rest :
  forallb Char.isdigit ds = true -> delimited rest ->
  Strtod.span Char.isdigit (ds ++ rest) = (ds, rest).
Proof.
  intros Hds Hrest. induction ds as [| d ds IH].
  - destruct rest as [| c r]; [reflexivity |].
    destruct Hrest as [-> | [-> | ->]]; reflexivity.
  - simpl in Hds. apply andb_true_iff in Hds as [Hd Hds].
    cbn [app Strtod.span]. rewrite Hd, IH by assumption. reflexivity.
Qed.

Lemma strtod_unsigned ds rest :
  unsigned_integer ds = true -> delimited rest ->
  snd (Strtod.strtod (ds ++ rest)) = length ds.
Proof.
  intros Hu Hrest. apply andb_true_iff in Hu as [Hne Hds].
  destruct ds as [| d ds]; [discriminate Hne |]. clear Hne.
  pose proof (span_digits _ _ Hds Hrest) as Hspan.
  cbn [forallb] in Hds. apply andb_true_iff in Hds as [Hd Hds].
  destruct (digit_facts d Hd) as (Hsp & Hm & Hp & _).
  unfold Strtod.strtod. cbn [app Strtod.span]. rewrite Hsp.
  cbn [fst length drop Strtod.sign]. rewrite Hm, Hp. cbn [Nat.add drop].
  assert (Strtod.hexadecimal false (d :: ds ++ rest) = None) as Hhex.
  { unfold Strtod.hexadecimal.
    destruct ds as [| x ds'].
    - destruct rest as [| c r]; [reflexivity |]. cbn [app].
      destruct Hrest as [-> | [-> | ->]]; rewrite andb_false_r; reflexivity.
    - cbn [app]. cbn [forallb] in Hds. apply andb_true_iff in Hds as [Hx _].
      destruct (digit_facts x Hx) as (_ & _ & _ & Hxx & _).
      rewrite Hxx, andb_false_r. reflexivity. }
  unfold Strtod.subject. rewrite Hhex.
  unfold Strtod.decimal, Strtod.significand.
  change (d :: ds ++ rest) with ((d :: ds) ++ rest). rewrite Hspan.
  assert (match rest with
          | c :: l2 => if Char.eqb c "." then (fst (Strtod.span Char.isdigit l2), 1%nat)
                       else ([], 0%nat)
          | [] => ([], 0%nat)
          end = ([], 0%nat)) as ->.
  { destruct rest as [| c r]; [reflexivity |].
    destruct Hrest as [-> | [-> | ->]]; reflexivity. }
  rewrite app_nil_r. cbn [length Nat.add].
  rewrite Nat.add_0_r, Nat.add_0_r.
  change (S (length ds)) with (length (d :: ds)). rewrite drop_app_length.
  assert (Strtod.exponent "e" rest = (0, 0%nat)) as ->.
  { destruct rest as [| c r]; [reflexivity |].
    destruct Hrest as [-> | [-> | ->]]; reflexivity. }
  cbn [snd]. rewrite Nat.add_0_r. reflexivity.
Qed.

Lemma parse_number_unsigned raw dp p ds rest :
  (p <= length raw)%nat -> drop p raw = ds ++ rest ->
  unsigned_integer ds = true -> delimited rest ->
  exists v, parse_number (mkBuffer raw dp p) = (Ok v, mkBuffer raw dp (p + length ds)).
Proof.
  intros Hp Hd Hu Hrest. unfold parse_number, raw_size. cbn [pos raw_json].
  destruct (Nat.leb_spec p (length raw)) as [_ | Hgt]; [| lia].
  rewrite Hd. pose proof (strtod_unsigned ds rest Hu Hrest) as Hn.
  destruct (Strtod.strtod (ds ++ rest)) as [v n]. cbn [snd] in Hn. subst n.
  apply andb_true_iff in Hu as [Hne _].
  apply negb_true_iff in Hne. rewrite Hne.
  exists v. reflexivity.
Qed.

End Numbers.

(** ** The parser on texts of the grammar *)
Module Run.

Import Document Behaviour Exec Numbers.

Lemma destroy_leaf a it b (h : gmap ptr JSONItem) k :
  h !! a = Some it -> child it = None -> next it = None ->
  destroy_json (Some a) (mkWorld b h k) = (Ok tt, mkWorld b (delete a h) k).
Proof.
  intros Ha Hc Hn. unfold destroy_json. cbn [heap].
  destruct (size h) as [| n] eqn:Hsize.
  { apply map_size_empty_inv in Hsize. subst h. rewrite lookup_empty in Ha. discriminate. }
  cbn [destroy_json_rounds]. unfold bind, load, delete_item, ret. cbn [heap].
  rewrite Ha, Hc. cbn [heap]. rewrite Ha. unfold set_heap. cbn [buf brk heap].
  rewrite Hn. destruct n; reflexivity.
Qed.

Section Bodies.

Variable NESTING_LIMIT : Z.
Variables (pa po : M (option ptr)).

Lemma body_ok raw dp p h k dp' p' h' k' :
  (p <= length raw)%nat -> no_leading_space (drop p raw) ->
  dispatch pa po k (mkWorld (mkBuffer raw dp p) (<[k := zero_item]> h) (Pos.succ k))
    = (Ok tt, mkWorld (mkBuffer raw dp' p') h' k') ->
  (p' <= length raw)%nat -> no_leading_space (drop p' raw) ->
  (dp' = 0 -> p' = length raw) ->
  parse_json_body pa po (mkWorld (mkBuffer raw dp p) h k)
    = (Ok k, mkWorld (mkBuffer raw dp' p') h' k').
Proof.
  intros Hp Hs Hd Hp' Hs' Hend. unfold parse_json_body.
  rewrite (bind_ok new_JSONItem _ _ k
             (mkWorld (mkBuffer raw dp p) (<[k := zero_item]> h) (Pos.succ k)))
    by reflexivity.
  rewrite (bind_ok _ _ _ _ _ (skip_stays raw dp p _ _ Hp Hs)).
  rewrite (bind_ok (try_catch _ _) _ _ tt (mkWorld (mkBuffer raw dp' p') h' k'))
    by (unfold try_catch; rewrite Hd; reflexivity).
  rewrite (bind_ok _ _ _ _ _ (skip_stays raw dp' p' _ _ Hp' Hs')).
  unfold bind, get_buf, ret, throw. cbn [buf depth pos raw_size raw_json].
  destruct (Z.eqb_spec dp' 0) as [Hz | Hnz]; cbn [andb].
  - rewrite (Hend Hz), Nat.eqb_refl. reflexivity.
  - reflexivity.
Qed.

Lemma body_throw raw dp p h k e b' h' k' it :
  (p <= length raw)%nat -> no_leading_space (drop p raw) ->
  dispatch pa po k (mkWorld (mkBuffer raw dp p) (<[k := zero_item]> h) (Pos.succ k))
    = (Throw e, mkWorld b' h' k') ->
  h' !! k = Some it -> child it = None -> next it = None ->
  parse_json_body pa po (mkWorld (mkBuffer raw dp p) h k)
    = (Throw e, mkWorld b' (delete k h') k').
Proof.
  intros Hp Hs Hd Hk Hc Hn. unfold parse_json_body.
  rewrite (bind_ok new_JSONItem _ _ k
             (mkWorld (mkBuffer raw dp p) (<[k := zero_item]> h) (Pos.succ k)))
    by reflexivity.
  rewrite (bind_ok _ _ _ _ _ (skip_stays raw dp p _ _ Hp Hs)).
  apply bind_throw. unfold try_catch. rewrite Hd.
  rewrite (bind_ok _ _ _ _ _ (destroy_leaf k it b' h' k' Hk Hc Hn)).
  reflexivity.
Qed.

(** *** The dispatcher on each kind of value *)

Ltac eval_chars :=
  repeat match goal with
    | |- context [Char.eqb ?a ?b] =>
        let v := eval vm_compute in (Char.eqb a b) in
        change (Char.eqb a b) with v
    | |- context [Char.isdigit ?a] =>
        let v := eval vm_compute in (Char.isdigit a) in
        change (Char.isdigit a) with v
    end;
  cbv beta iota;
  cbn [orb andb negb].

Ltac guards H :=
  match type of H with
  | drop ?p ?raw = _ =>
      match goal with
      | |- context [looking_at (mkBuffer raw ?dp p) _] =>
          rewrite !(fun x => looking_at_head raw dp p _ _ x H),
            ?(starts_number_head raw dp p _ _ H)
      end
  end.

Ltac enter_dispatch H :=
  unfold dispatch;
  rewrite (bind_ok get_buf _ _ _ _ eq_refl);
  cbn [buf];
  guards H.

Lemma compare_at_eq raw dp p n word l :
  drop p raw = l -> take n l = bytes word ->
  compare_at (mkBuffer raw dp p) n word = true.
Proof.
  intros Hd Ht. unfold compare_at. cbn [pos raw_json].
  rewrite Hd. apply bool_decide_eq_true_2. exact Ht.
Qed.

Lemma compare_at_ne raw dp p n word l :
  drop p raw = l -> take n l <> bytes word ->
  compare_at (mkBuffer raw dp p) n word = false.
Proof.
  intros Hd Ht. unfold compare_at. cbn [pos raw_json].
  rewrite Hd. apply bool_decide_eq_false_2. exact Ht.
Qed.

Ltac finish_scalar :=
  unfold advance, set_buf, set_pos;
  cbn [buf heap brk raw_json depth pos];
  eexists; split; [reflexivity |];
  split; [ rewrite lookup_insert_eq; eexists; reflexivity
         | intros a Ha; rewrite ?lookup_insert_ne by congruence; reflexivity ].

Lemma dispatch_null raw dp p h1 k1 item it rest :
  drop p raw = text Null ++ rest -> h1 !! item = Some it ->
  scalar_dispatched pa po raw dp p h1 k1 item (length (text Null)).
Proof.
  intros H Hit. cbn in H. unfold scalar_dispatched.
  enter_dispatch H. eval_chars.
  rewrite (can_read_prefix raw dp p 4 _ H) by (cbn [length]; lia).
  rewrite (compare_at_eq raw dp p _ _ _ H) by reflexivity. cbn [andb].
  rewrite (bind_ok _ _ _ _ _ (update_live item _ _ _ _ _ Hit)).
  finish_scalar.
Qed.

Lemma dispatch_true raw dp p h1 k1 item it rest :
  drop p raw = text (Bool true) ++ rest -> h1 !! item = Some it ->
  scalar_dispatched pa po raw dp p h1 k1 item (length (text (Bool true))).
Proof.
  intros H Hit. cbn in H. unfold scalar_dispatched.
  enter_dispatch H. eval_chars.
  rewrite (compare_at_ne raw dp p 4 "null" _ H) by discriminate.
  rewrite andb_false_r.
  rewrite (can_read_prefix raw dp p 1 _ H) by (cbn [length]; lia).
  rewrite (compare_at_eq raw dp p _ _ _ H) by reflexivity. cbn [andb].
  rewrite (bind_ok _ _ _ _ _ (update_live item _ _ _ _ _ Hit)).
  rewrite (bind_ok _ _ _ _ _ (update_live item _ _ _ _ _ (lookup_insert_eq _ _ _))).
  finish_scalar.
Qed.

Lemma dispatch_false raw dp p h1 k1 item it rest :
  drop p raw = text (Bool false) ++ rest -> h1 !! item = Some it ->
  scalar_dispatched pa po raw dp p h1 k1 item (length (text (Bool false))).
Proof.
  intros H Hit. cbn in H. unfold scalar_dispatched.
  enter_dispatch H. eval_chars.
  rewrite (compare_at_ne raw dp p 4 "null" _ H) by discriminate.
  rewrite andb_false_r.
  rewrite (can_read_prefix raw dp p 1 _ H) by (cbn [length]; lia).
  rewrite (compare_at_ne raw dp p 4 "true" _ H) by discriminate.
  rewrite (compare_at_eq raw dp p _ _ _ H) by reflexivity. cbn [andb].
  rewrite (bind_ok _ _ _ _ _ (update_live item _ _ _ _ _ Hit)).
  rewrite (bind_ok _ _ _ _ _ (update_live item _ _ _ _ _ (lookup_insert_eq _ _ _))).
  finish_scalar.
Qed.

Lemma dispatch_string raw dp p h1 k1 item it s rest :
  (p <= length raw)%nat ->
  drop p raw = text (Str s) ++ rest -> plain_string s = true ->
  h1 !! item = Some it ->
  scalar_dispatched pa po raw dp p h1 k1 item (length (text (Str s))).
Proof.
  intros Hp H Hs Hit. cbn [text app] in H. unfold scalar_dispatched.
  enter_dispatch H. eval_chars.
  rewrite (bind_ok _ _ _ _ _ (update_live item _ _ _ _ _ Hit)).
  rewrite (bind_ok (advance 1) _ _ tt
             (mkWorld (mkBuffer raw dp (p + 1)) (<[item := with_type j_string it]> h1) k1))
    by reflexivity.
  assert (drop (p + 1) raw = s ++ Char.quote :: rest) as Hd.
  { apply (drop_app_advance raw p [Char.quote]). rewrite H, <- app_assoc. reflexivity. }
  assert (p + 1 <= length raw)%nat as Hp1.
  { apply (drop_app_bound raw p [Char.quote] _ Hp H). }
  rewrite (bind_ok _ _ _ _ _
             (on_buffer_eq _ _ _ _ _ _ (parse_string_plain raw dp (p + 1) s rest Hp1 Hd Hs))).
  rewrite (update_live item _ _ _ _ _ (lookup_insert_eq _ _ _)).
  cbn [text length]. rewrite length_app. cbn [length].
  replace (p + S (length s + 1))%nat with (p + 1 + length s + 1)%nat by lia.
  finish_scalar.
Qed.

Lemma dispatch_number raw dp p h1 k1 item it ds rest :
  (p <= length raw)%nat ->
  drop p raw = text (Num ds) ++ rest -> unsigned_integer ds = true ->
  delimited rest -> h1 !! item = Some it ->
  scalar_dispatched pa po raw dp p h1 k1 item (length (text (Num ds))).
Proof.
  intros Hp H Hu Hrest Hit. cbn [text] in H. unfold scalar_dispatched.
  destruct (parse_number_unsigned raw dp p ds rest Hp H Hu Hrest) as [v Hv].
  pose proof Hu as Hu'. apply andb_true_iff in Hu' as [Hne Hds].
  destruct ds as [| d ds']; [discriminate Hne |].
  cbn [forallb] in Hds. apply andb_true_iff in Hds as [Hd _].
  destruct (digit_facts d Hd) as (_ & _ & _ & _ & Hq & _).
  cbn [app] in H.
  enter_dispatch H. rewrite Hq, Hd, !orb_true_r. cbv beta iota.
  rewrite (bind_ok _ _ _ _ _ (update_live item _ _ _ _ _ Hit)).
  rewrite (bind_ok _ _ _ _ _ (on_buffer_eq _ _ _ _ _ _ Hv)).
  rewrite (update_live item _ _ _ _ _ (lookup_insert_eq _ _ _)).
  cbn [text].
  finish_scalar.
Qed.

Lemma dispatch_array raw dp p h1 k1 item it l :
  drop p raw = "["%char :: l -> h1 !! item = Some it ->
  dispatch pa po item (mkWorld (mkBuffer raw dp p) h1 k1)
  = bind pa (fun c => update (Some item) (with_child c))
      (mkWorld (mkBuffer raw dp (p + 1)) (<[item := with_type j_array it]> h1) k1).
Proof.
  intros H Hit. enter_dispatch H. eval_chars.
  rewrite (bind_ok _ _ _ _ _ (update_live item _ _ _ _ _ Hit)).
  rewrite (bind_ok (advance 1) _ _ tt
             (mkWorld (mkBuffer raw dp (p + 1)) (<[item := with_type j_array it]> h1) k1))
    by reflexivity.
  reflexivity.
Qed.

Lemma dispatch_object raw dp p h1 k1 item it l :
  drop p raw = "{"%char :: l -> h1 !! item = Some it ->
  dispatch pa po item (mkWorld (mkBuffer raw dp p) h1 k1)
  = bind po (fun c => update (Some item) (with_child c))
      (mkWorld (mkBuffer raw dp (p + 1)) (<[item := with_type j_object it]> h1) k1).
Proof.
  intros H Hit. enter_dispatch H. eval_chars.
  rewrite (bind_ok _ _ _ _ _ (update_live item _ _ _ _ _ Hit)).
  rewrite (bind_ok (advance 1) _ _ tt
             (mkWorld (mkBuffer raw dp (p + 1)) (<[item := with_type j_object it]> h1) k1))
    by reflexivity.
  reflexivity.
Qed.

End Bodies.

(** *** Linking, loop rounds and container bodies *)

Lemma link_throw pj head current w e w' :
  pj w = (Throw e, w') -> link pj head current w = (Throw e, w').
Proof.
  intros H. unfold link. destruct head; apply bind_throw; exact H.
Qed.

Lemma link_ok pj head current w pn b' (h' : gmap ptr JSONItem) k' base k :
  pj w = (Ok pn, mkWorld b' h' k') ->
  is_Some (h' !! pn) -> (base <= pn)%positive -> linked base k h' head current ->
  exists hd h'',
    link pj head current w = (Ok (Some hd, Some pn), mkWorld b' h'' k') /\
    is_Some (h'' !! pn) /\
    (forall a, (a < base)%positive -> h'' !! a = h' !! a).
Proof.
  intros Hpj [itn Hn] Hbase [-> | (c & [hd ->] & -> & Hc & _ & [itc Hitc])].
  - exists pn, h'. unfold link. rewrite (bind_ok _ _ _ _ _ Hpj).
    split; [reflexivity |]. split; [eexists; exact Hn | reflexivity].
  - unfold link. rewrite (bind_ok _ _ _ _ _ Hpj).
    rewrite (bind_ok _ _ _ _ _ (update_live c _ _ _ _ _ Hitc)).
    assert (is_Some (<[c := with_next (Some pn) itc]> h' !! pn)) as [itn' Hn'].
    { rewrite lookup_insert_is_Some. destruct (decide (c = pn)); [left | right]; eauto. }
    rewrite (bind_ok _ _ _ _ _ (update_live pn _ _ _ _ _ Hn')).
    eexists _, _. split; [reflexivity |]. split.
    + rewrite lookup_insert_eq. eexists; reflexivity.
    + intros a Ha. rewrite !lookup_insert_ne by lia. reflexivity.
Qed.

Lemma array_round_enter pj continue head current raw dp p h k c l :
  (p <= length raw)%nat -> drop p raw = c :: l ->
  Char.isspace c = false -> Char.eqb c "]" = false ->
  parse_array_round pj continue head current (mkWorld (mkBuffer raw dp p) h k)
  = bind (link pj head current)
      (fun hc =>
         on_buffer skip_whitespace ;;
         c <- peek ;;
         if Char.eqb c "]" then ret (fst hc)
         else if negb (Char.eqb c ",") then
           b <- get_buf ;;
           throw (InvalidArrayContinuation (pos b))
         else
           advance 1 ;;
           continue (fst hc) (snd hc))
      (mkWorld (mkBuffer raw dp p) h k).
Proof.
  intros Hp Hd Hs Hc. unfold parse_array_round.
  rewrite (bind_ok _ _ _ _ _ (peek_head raw dp p h k c l Hd)).
  rewrite (bind_ok get_buf _ _ _ _ eq_refl). cbn [buf pos]; unfold raw_size; cbn [raw_json].
  rewrite Hc. destruct (drop_cons_lookup _ _ _ _ Hd) as [_ Hlt].
  apply Nat.ltb_lt in Hlt. rewrite Hlt. cbn [negb andb].
  rewrite (bind_ok _ _ _ _ _ (skip_stays raw dp p h k Hp ltac:(rewrite Hd; exact Hs))).
  reflexivity.
Qed.

Lemma after_element_close (continue : option ptr -> option ptr -> M (option ptr))
    (hc : option ptr * option ptr) raw dp p h k l :
  (p <= length raw)%nat -> drop p raw = "]"%char :: l ->
  (on_buffer skip_whitespace ;;
   c <- peek ;;
   if Char.eqb c "]" then ret (fst hc)
   else if negb (Char.eqb c ",") then
     b <- get_buf ;;
     throw (InvalidArrayContinuation (pos b))
   else
     advance 1 ;;
     continue (fst hc) (snd hc))
    (mkWorld (mkBuffer raw dp p) h k)
  = (Ok (fst hc), mkWorld (mkBuffer raw dp p) h k).
Proof.
  intros Hp Hd.
  rewrite (bind_ok _ _ _ _ _ (skip_stays raw dp p h k Hp ltac:(rewrite Hd; reflexivity))).
  rewrite (bind_ok _ _ _ _ _ (peek_head raw dp p h k _ l Hd)).
  reflexivity.
Qed.

Lemma after_element_comma (continue : option ptr -> option ptr -> M (option ptr))
    (hc : option ptr * option ptr) raw dp p h k l :
  (p <= length raw)%nat -> drop p raw = ","%char :: l ->
  (on_buffer skip_whitespace ;;
   c <- peek ;;
   if Char.eqb c "]" then ret (fst hc)
   else if negb (Char.eqb c ",") then
     b <- get_buf ;;
     throw (InvalidArrayContinuation (pos b))
   else
     advance 1 ;;
     continue (fst hc) (snd hc))
    (mkWorld (mkBuffer raw dp p) h k)
  = continue (fst hc) (snd hc) (mkWorld (mkBuffer raw dp (p + 1)) h k).
Proof.
  intros Hp Hd.
  rewrite (bind_ok _ _ _ _ _ (skip_stays raw dp p h k Hp ltac:(rewrite Hd; reflexivity))).
  rewrite (bind_ok _ _ _ _ _ (peek_head raw dp p h k _ l Hd)).
  reflexivity.
Qed.

Lemma object_round_enter pj continue head current raw dp p h k nm c l :
  (p <= length raw)%nat ->
  drop p raw = Char.quote :: nm ++ Char.quote :: ":"%char :: c :: l ->
  plain_string nm = true -> Char.isspace c = false ->
  parse_object_round pj continue head current (mkWorld (mkBuffer raw dp p) h k)
  = bind (link pj head current)
      (fun hc =>
         update (snd hc) (with_name nm) ;;
         on_buffer skip_whitespace ;;
         c <- peek ;;
         if Char.eqb c "}" then ret (fst hc)
         else
           b <- get_buf ;;
           if negb (looking_at b ",") then throw (InvalidObjectContinuation (pos b))
           else
             advance 1 ;;
             continue (fst hc) (snd hc))
      (mkWorld (mkBuffer raw dp (p + length nm + 3)) h k).
Proof.
  intros Hp Hd Hnm Hs. unfold parse_object_round.
  rewrite (bind_ok _ _ _ _ _ (peek_head raw dp p h k _ _ Hd)).
  rewrite (bind_ok get_buf _ _ _ _ eq_refl). cbn [buf pos]; unfold raw_size; cbn [raw_json].
  destruct (drop_cons_lookup _ _ _ _ Hd) as [_ Hlt].
  apply Nat.ltb_lt in Hlt. rewrite Hlt.
  change (Char.eqb Char.quote "}") with false. cbn [negb andb].
  rewrite (bind_ok _ _ _ _ _ (skip_stays raw dp p h k Hp ltac:(rewrite Hd; reflexivity))).
  rewrite (bind_ok get_buf _ _ _ _ eq_refl). cbn [buf pos].
  rewrite (looking_at_head raw dp p _ _ Char.quote Hd).
  change (Char.eqb Char.quote Char.quote) with true. cbn [negb].
  rewrite (bind_ok (advance 1) _ _ tt (mkWorld (mkBuffer raw dp (p + 1)) h k)) by reflexivity.
  assert (drop (p + 1) raw = nm ++ Char.quote :: ":"%char :: c :: l) as Hd1.
  { apply (drop_app_advance raw p [Char.quote]). exact Hd. }
  assert (p + 1 <= length raw)%nat as Hp1.
  { apply (drop_app_bound raw p [Char.quote] _ Hp Hd). }
  rewrite (bind_ok _ _ _ _ _
             (on_buffer_eq _ _ h k _ _ (parse_string_plain raw dp (p + 1) nm _ Hp1 Hd1 Hnm))).
  assert (drop (p + 1 + length nm + 1) raw = ":"%char :: c :: l) as Hd2.
  { pose proof (drop_app_advance raw (p + 1) (nm ++ [Char.quote]) (":"%char :: c :: l)) as Ha.
    rewrite <- app_assoc, length_app, Nat.add_assoc in Ha. apply Ha. exact Hd1. }
  assert (p + 1 + length nm + 1 <= length raw)%nat as Hp2.
  { pose proof (drop_app_bound raw (p + 1) (nm ++ [Char.quote]) (":"%char :: c :: l) Hp1) as Hb.
    rewrite <- app_assoc, length_app, Nat.add_assoc in Hb. apply Hb. exact Hd1. }
  rewrite (bind_ok _ _ _ _ _
             (skip_stays raw dp _ h k Hp2 ltac:(rewrite Hd2; reflexivity))).
  rewrite (bind_ok get_buf _ _ _ _ eq_refl). cbn [buf pos].
  rewrite (looking_at_head raw dp _ _ _ ":" Hd2).
  change (Char.eqb ":" ":") with true. cbn [negb].
  rewrite (bind_ok (advance 1) _ _ tt
             (mkWorld (mkBuffer raw dp (p + 1 + length nm + 1 + 1)) h k)) by reflexivity.
  assert (drop (p + 1 + length nm + 1 + 1) raw = c :: l) as Hd3.
  { apply (drop_app_advance raw _ [":"%char]). exact Hd2. }
  assert (p + 1 + length nm + 1 + 1 <= length raw)%nat as Hp3.
  { apply (drop_app_bound raw _ [":"%char] _ Hp2 Hd2). }
  rewrite (bind_ok _ _ _ _ _
             (skip_stays raw dp _ h k Hp3 ltac:(rewrite Hd3; exact Hs))).
  replace (p + 1 + length nm + 1 + 1)%nat with (p + length nm + 3)%nat by lia.
  reflexivity.
Qed.

Lemma after_member_close (continue : option ptr -> option ptr -> M (option ptr))
    (hc : option ptr * option ptr) raw dp p h k l :
  (p <= length raw)%nat -> drop p raw = "}"%char :: l ->
  (on_buffer skip_whitespace ;;
   c <- peek ;;
   if Char.eqb c "}" then ret (fst hc)
   else
     b <- get_buf ;;
     if negb (looking_at b ",") then throw (InvalidObjectContinuation (pos b))
     else
       advance 1 ;;
       continue (fst hc) (snd hc))
    (mkWorld (mkBuffer raw dp p) h k)
  = (Ok (fst hc), mkWorld (mkBuffer raw dp p) h k).
Proof.
  intros Hp Hd.
  rewrite (bind_ok _ _ _ _ _ (skip_stays raw dp p h k Hp ltac:(rewrite Hd; reflexivity))).
  rewrite (bind_ok _ _ _ _ _ (peek_head raw dp p h k _ l Hd)).
  reflexivity.
Qed.

Lemma after_member_comma (continue : option ptr -> option ptr -> M (option ptr))
    (hc : option ptr * option ptr) raw dp p h k l :
  (p <= length raw)%nat -> drop p raw = ","%char :: l ->
  (on_buffer skip_whitespace ;;
   c <- peek ;;
   if Char.eqb c "}" then ret (fst hc)
   else
     b <- get_buf ;;
     if negb (looking_at b ",") then throw (InvalidObjectContinuation (pos b))
     else
       advance 1 ;;
       continue (fst hc) (snd hc))
    (mkWorld (mkBuffer raw dp p) h k)
  = continue (fst hc) (snd hc) (mkWorld (mkBuffer raw dp (p + 1)) h k).
Proof.
  intros Hp Hd.
  rewrite (bind_ok _ _ _ _ _ (skip_stays raw dp p h k Hp ltac:(rewrite Hd; reflexivity))).
  rewrite (bind_ok _ _ _ _ _ (peek_head raw dp p h k _ l Hd)).
  change (Char.eqb "," "}") with false. cbv beta iota.
  rewrite (bind_ok get_buf _ _ _ _ eq_refl). cbn [buf pos].
  rewrite (looking_at_head raw dp p _ _ "," Hd).
  reflexivity.
Qed.

Section Containers.

Variable NESTING_LIMIT : Z.
Hypothesis limit_range : 0 <= NESTING_LIMIT < 2 ^ 32 - 1.

Lemma uint32_small z : 0 <= z < 2 ^ 32 -> uint32 z = z.
Proof. intros H. unfold uint32. apply Z.mod_small. exact H. Qed.

Lemma array_body_limit loop raw dp p h k :
  0 <= dp <= NESTING_LIMIT -> NESTING_LIMIT < dp + 1 ->
  parse_array_body NESTING_LIMIT loop (mkWorld (mkBuffer raw dp p) h k)
  = (Throw (NestingLimitExceeded p), mkWorld (mkBuffer raw (dp + 1) p) h k).
Proof.
  intros Hdp Hlim. unfold parse_array_body.
  rewrite (bind_ok incr_depth _ _ tt (mkWorld (mkBuffer raw (dp + 1) p) h k)).
  2:{ unfold incr_depth, set_buf, set_depth. cbn [buf heap brk raw_json depth pos].
      rewrite uint32_small by lia. reflexivity. }
  rewrite (bind_ok get_buf _ _ _ _ eq_refl). cbn [buf depth pos].
  destruct (Z.gtb_spec (dp + 1) NESTING_LIMIT); [reflexivity | lia].
Qed.

Lemma object_body_limit loop raw dp p h k :
  0 <= dp <= NESTING_LIMIT -> NESTING_LIMIT < dp + 1 ->
  parse_object_body NESTING_LIMIT loop (mkWorld (mkBuffer raw dp p) h k)
  = (Throw (NestingLimitExceeded p), mkWorld (mkBuffer raw (dp + 1) p) h k).
Proof.
  intros Hdp Hlim. unfold parse_object_body.
  rewrite (bind_ok incr_depth _ _ tt (mkWorld (mkBuffer raw (dp + 1) p) h k)).
  2:{ unfold incr_depth, set_buf, set_depth. cbn [buf heap brk raw_json depth pos].
      rewrite uint32_small by lia. reflexivity. }
  rewrite (bind_ok get_buf _ _ _ _ eq_refl). cbn [buf depth pos].
  destruct (Z.gtb_spec (dp + 1) NESTING_LIMIT); [reflexivity | lia].
Qed.

Lemma array_body_enter loop raw dp p h k c l :
  0 <= dp -> dp + 1 <= NESTING_LIMIT -> (p <= length raw)%nat ->
  drop p raw = c :: l -> Char.isspace c = false -> Char.eqb c "]" = false ->
  parse_array_body NESTING_LIMIT loop (mkWorld (mkBuffer raw dp p) h k)
  = bind (loop None None)
      (fun head =>
         c <- peek ;;
         if negb (Char.eqb c "]") then throw UnexpectedEOF
         else advance 1 ;; decr_depth ;; ret head)
      (mkWorld (mkBuffer raw (dp + 1) p) h k).
Proof.
  intros Hdp Hlim Hp Hd Hs Hc. unfold parse_array_body.
  rewrite (bind_ok incr_depth _ _ tt (mkWorld (mkBuffer raw (dp + 1) p) h k)).
  2:{ unfold incr_depth, set_buf, set_depth. cbn [buf heap brk raw_json depth pos].
      rewrite uint32_small by lia. reflexivity. }
  rewrite (bind_ok get_buf _ _ _ _ eq_refl). cbn [buf depth pos].
  destruct (Z.gtb_spec (dp + 1) NESTING_LIMIT); [lia |].
  rewrite (bind_ok _ _ _ _ _ (skip_stays raw (dp + 1) p h k Hp ltac:(rewrite Hd; exact Hs))).
  rewrite (bind_ok _ _ _ _ _ (peek_head raw (dp + 1) p h k c l Hd)).
  rewrite Hc. reflexivity.
Qed.

Lemma object_body_enter loop raw dp p h k c l :
  0 <= dp -> dp + 1 <= NESTING_LIMIT -> (p <= length raw)%nat ->
  drop p raw = c :: l -> Char.isspace c = false -> Char.eqb c "}" = false ->
  parse_object_body NESTING_LIMIT loop (mkWorld (mkBuffer raw dp p) h k)
  = bind (loop None None)
      (fun head =>
         c <- peek ;;
         if negb (Char.eqb c "}") then throw UnexpectedEOF
         else advance 1 ;; decr_depth ;; ret head)
      (mkWorld (mkBuffer raw (dp + 1) p) h k).
Proof.
  intros Hdp Hlim Hp Hd Hs Hc. unfold parse_object_body.
  rewrite (bind_ok incr_depth _ _ tt (mkWorld (mkBuffer raw (dp + 1) p) h k)).
  2:{ unfold incr_depth, set_buf, set_depth. cbn [buf heap brk raw_json depth pos].
      rewrite uint32_small by lia. reflexivity. }
  rewrite (bind_ok get_buf _ _ _ _ eq_refl). cbn [buf depth pos].
  destruct (Z.gtb_spec (dp + 1) NESTING_LIMIT); [lia |].
  rewrite (bind_ok _ _ _ _ _ (skip_stays raw (dp + 1) p h k Hp ltac:(rewrite Hd; exact Hs))).
  rewrite (bind_ok _ _ _ _ _ (peek_head raw (dp + 1) p h k c l Hd)).
  rewrite Hc. reflexivity.
Qed.

(** The code after the loop, at the closing bracket [close]. *)
Lemma close_container (close : ascii) (head : option ptr) raw dp p h k l :
  0 <= dp <= NESTING_LIMIT -> drop p raw = close :: l ->
  (c <- peek ;;
   if negb (Char.eqb c close) then throw UnexpectedEOF
   else advance 1 ;; decr_depth ;; ret head)
    (mkWorld (mkBuffer raw (dp + 1) p) h k)
  = (Ok head, mkWorld (mkBuffer raw dp (p + 1)) h k).
Proof.
  intros Hdp Hd.
  rewrite (bind_ok _ _ _ _ _ (peek_head raw (dp + 1) p h k close l Hd)).
  unfold Char.eqb. rewrite Ascii.eqb_refl. cbn [negb].
  unfold bind, advance, decr_depth, ret, set_buf, set_depth, set_pos.
  cbn [buf heap brk raw_json depth pos].
  rewrite uint32_small by lia. repeat f_equal. lia.
Qed.

(** *** The three recursive functions on texts of the grammar *)

Lemma nesting_nonneg :
  (forall d, 0 <= nesting d) /\
  (forall es, 0 <= elems_nesting es) /\
  (forall ms, 0 <= members_nesting ms).
Proof.
  apply doc_mutind; intros; cbn [nesting elems_nesting members_nesting]; lia.
Qed.

Lemma text_head d :
  well_formed d = true ->
  exists c l, text d = c :: l /\ Char.isspace c = false /\
              Char.eqb c "]" = false /\ Char.eqb c "}" = false.
Proof.
  destruct d as [| [] | s | ds | es | ms]; intros Hwf;
    try (eexists _, _; repeat split; reflexivity).
  cbn [well_formed] in Hwf. apply andb_true_iff in Hwf as [Hne Hds].
  destruct ds as [| d ds]; [discriminate Hne |].
  cbn [forallb] in Hds. apply andb_true_iff in Hds as [Hd _].
  destruct (digit_facts d Hd) as (Hsp & _ & _ & _ & _ & _ & _ & Hb & Hc).
  exists d, ds. repeat split; assumption.
Qed.

Lemma elems_text_head es :
  elems_well_formed es = true ->
  exists c l, elems_text es = c :: l /\ Char.isspace c = false /\
              Char.eqb c "]" = false.
Proof.
  destruct es as [d | d es]; cbn [elems_well_formed elems_text]; intros Hwf.
  - destruct (text_head d Hwf) as (c & l & -> & Hs & Hb & _). eauto.
  - apply andb_true_iff in Hwf as [Hwf _].
    destruct (text_head d Hwf) as (c & l & -> & Hs & Hb & _).
    eexists _, _. split; [reflexivity | auto].
Qed.

Lemma parse_json_unfold fuel :
  parse_json NESTING_LIMIT (S fuel)
  = parse_json_body
      (parse_array_body NESTING_LIMIT (parse_array_loop NESTING_LIMIT fuel))
      (parse_object_body NESTING_LIMIT (parse_object_loop NESTING_LIMIT fuel)).
Proof. reflexivity. Qed.

Lemma after_value raw p (t rest : list ascii) dp :
  (p <= length raw)%nat -> drop p raw = t ++ rest -> delimited rest ->
  (dp = 0 -> rest = []) ->
  (p + length t <= length raw)%nat /\
  no_leading_space (drop (p + length t) raw) /\
  (dp = 0 -> (p + length t)%nat = length raw).
Proof.
  intros Hp Hd Hrest Htop.
  pose proof (drop_app_bound raw p t rest Hp Hd) as Hb.
  pose proof (drop_app_advance raw p t rest Hd) as Ha.
  repeat split; [exact Hb | rewrite Ha; apply delimited_no_space, Hrest |].
  intros Hz. rewrite (Htop Hz) in Ha.
  apply (f_equal length) in Ha. rewrite length_drop in Ha. cbn [length] in Ha. lia.
Qed.

Lemma scalar_parses d :
  well_formed d = true -> nesting d = 0 -> cost d = 1%nat ->
  (forall pa po raw dp p h1 k1 item it rest,
      (p <= length raw)%nat -> drop p raw = text d ++ rest -> delimited rest ->
      h1 !! item = Some it ->
      scalar_dispatched pa po raw dp p h1 k1 item (length (text d))) ->
  json_parses NESTING_LIMIT d.
Proof.
  intros Hwf Hn Hc Hdisp fuel raw dp p h k rest Hfuel Hp Hd Hrest Hdp Htop r.
  subst r. rewrite Hn, Z.add_0_r.
  destruct (Z.leb_spec dp NESTING_LIMIT) as [_ | Hgt]; [| lia].
  destruct fuel as [| f]; [lia |]. rewrite parse_json_unfold.
  destruct (text_head d Hwf) as (c & l & Hc' & Hsp & _).
  destruct (after_value raw p (text d) rest dp Hp Hd Hrest Htop) as (Hp' & Hs' & Hend).
  destruct (Hdisp (parse_array_body NESTING_LIMIT (parse_array_loop NESTING_LIMIT f))
                  (parse_object_body NESTING_LIMIT (parse_object_loop NESTING_LIMIT f))
                  raw dp p (<[k := zero_item]> h) (Pos.succ k) k zero_item rest
                  Hp Hd Hrest (lookup_insert_eq _ _ _))
    as (h' & Hrun & Hlive & Hframe).
  exists h', (Pos.succ k). split; [| split; [lia | split; [exact Hlive |]]].
  - apply body_ok; try assumption.
    rewrite Hd, Hc'. exact Hsp.
  - intros a Ha. rewrite Hframe by lia. apply lookup_insert_ne. lia.
Qed.

Lemma array_parses es :
  elems_well_formed es = true -> elems_parse NESTING_LIMIT es -> json_parses NESTING_LIMIT (Arr es).
Proof.
  intros Hwf IH fuel raw dp p h k rest Hfuel Hp Hd Hrest Hdp Htop r. subst r.
  destruct fuel as [| f]; [cbn [cost] in Hfuel; lia |].
  cbn [cost] in Hfuel. rewrite parse_json_unfold.
  set (pa := parse_array_body NESTING_LIMIT (parse_array_loop NESTING_LIMIT f)).
  set (po := parse_object_body NESTING_LIMIT (parse_object_loop NESTING_LIMIT f)).
  destruct (after_value raw p _ rest dp Hp Hd Hrest Htop) as (Hp' & Hs' & Hend).
  cbn [text app] in Hd.
  assert (no_leading_space (drop p raw)) as Hs by (rewrite Hd; reflexivity).
  pose proof (dispatch_array pa po raw dp p (<[k := zero_item]> h) (Pos.succ k) k
                zero_item _ Hd (lookup_insert_eq _ _ _)) as Hdisp.
  set (h2 := <[k := with_type j_array zero_item]> (<[k := zero_item]> h)) in Hdisp.
  assert (h2 !! k = Some (with_type j_array zero_item)) as Hk2
    by apply lookup_insert_eq.
  assert (forall a, (a < k)%positive -> h2 !! a = h !! a) as Hfr2.
  { intros a Ha. unfold h2. rewrite !lookup_insert_ne by lia. reflexivity. }
  destruct (elems_text_head es Hwf) as (c & l & Hc & Hsp & Hcl).
  assert (drop (p + 1) raw = elems_text es ++ "]"%char :: rest) as Hd1.
  { apply (drop_app_advance raw p ["["%char]). rewrite Hd, <- app_assoc. reflexivity. }
  assert (p + 1 <= length raw)%nat as Hp1
    by apply (drop_app_bound raw p ["["%char] _ Hp Hd).
  pose proof (proj1 (proj2 nesting_nonneg) es) as Hnn.
  cbn [nesting].
  destruct (Z_le_gt_dec (dp + 1) NESTING_LIMIT) as [Hroom | Hfull].
  - (* the array is entered *)
    specialize (IH f raw (dp + 1) (p + 1)%nat h2 (Pos.succ k) rest (Pos.succ k) None None
                  ltac:(lia) Hp1 Hd1 ltac:(lia) ltac:(lia) (or_introl eq_refl)).
    cbv zeta in IH.
    assert (pa (mkWorld (mkBuffer raw dp (p + 1)) h2 (Pos.succ k))
            = bind (parse_array_loop NESTING_LIMIT f None None)
                (fun head =>
                   c <- peek ;;
                   if negb (Char.eqb c "]") then throw UnexpectedEOF
                   else advance 1 ;; decr_depth ;; ret head)
                (mkWorld (mkBuffer raw (dp + 1) (p + 1)) h2 (Pos.succ k))) as Henter.
    { unfold pa. apply (array_body_enter _ raw dp (p + 1)%nat h2 (Pos.succ k) c
                          (l ++ "]"%char :: rest)); try assumption; try lia.
      rewrite Hd1, Hc. reflexivity. }
    replace (dp + (1 + elems_nesting es)) with (dp + 1 + elems_nesting es) by lia.
    destruct (Z.leb_spec (dp + 1 + elems_nesting es) NESTING_LIMIT) as [Hok | Hbad].
    + destruct IH as (hd & h3 & k3 & Hloop & Hk3 & Hfr3).
      assert (h3 !! k = Some (with_type j_array zero_item)) as Hk3'
        by (rewrite Hfr3 by lia; exact Hk2).
      pose proof (drop_app_advance raw (p + 1) _ _ Hd1) as Hd2.
      exists (<[k := with_child (Some hd) (with_type j_array zero_item)]> h3), k3.
      split; [| split; [lia | split]].
      * apply body_ok; try assumption.
        assert (pa (mkWorld (mkBuffer raw dp (p + 1)) h2 (Pos.succ k))
                = (Ok (Some hd),
                   mkWorld (mkBuffer raw dp (p + 1 + length (elems_text es) + 1)) h3 k3))
          as Hpa.
        { rewrite Henter, (bind_ok _ _ _ _ _ Hloop).
          apply (close_container "]" (Some hd) raw dp _ h3 k3 rest ltac:(lia) Hd2). }
        rewrite Hdisp, (bind_ok _ _ _ _ _ Hpa).
        rewrite (update_live k _ _ _ _ _ Hk3').
        cbn [text length]. rewrite length_app. cbn [length].
        replace (p + S (length (elems_text es) + 1))%nat
          with (p + 1 + length (elems_text es) + 1)%nat by lia.
        reflexivity.
      * rewrite lookup_insert_eq. eexists; reflexivity.
      * intros a Ha. rewrite lookup_insert_ne by lia.
        rewrite Hfr3 by lia. apply Hfr2. exact Ha.
    + destruct IH as (q & b' & h3 & k3 & Hloop & Hk3 & Hfr3).
      assert (h3 !! k = Some (with_type j_array zero_item)) as Hk3'
        by (rewrite Hfr3 by lia; exact Hk2).
      exists q, b', (delete k h3), k3. split; [| split; [lia |]].
      * eapply (body_throw pa po raw dp p h k _ b' h3 k3);
          [exact Hp | exact Hs | | exact Hk3' | reflexivity | reflexivity].
        rewrite Hdisp. apply bind_throw. rewrite Henter. apply bind_throw. exact Hloop.
      * intros a Ha. rewrite lookup_delete_ne by lia.
        rewrite Hfr3 by lia. apply Hfr2. exact Ha.
  - (* the limit is reached at entry *)
    destruct (Z.leb_spec (dp + (1 + elems_nesting es)) NESTING_LIMIT) as [Hok | Hbad];
      [lia |].
    exists (p + 1)%nat, (mkBuffer raw (dp + 1) (p + 1)), (delete k h2), (Pos.succ k).
    split; [| split; [lia |]].
    + eapply (body_throw pa po raw dp p h k _ _ h2);
        [exact Hp | exact Hs | | exact Hk2 | reflexivity | reflexivity].
      rewrite Hdisp. apply bind_throw. unfold pa.
      apply array_body_limit; lia.
    + intros a Ha. rewrite lookup_delete_ne by lia. apply Hfr2. exact Ha.
Qed.

Lemma members_text_head ms :
  exists l, members_text ms = Char.quote :: l.
Proof. destruct ms; eexists; reflexivity. Qed.

Lemma object_parses ms :
  members_well_formed ms = true -> members_parse NESTING_LIMIT ms -> json_parses NESTING_LIMIT (Obj ms).
Proof.
  intros Hwf IH fuel raw dp p h k rest Hfuel Hp Hd Hrest Hdp Htop r. subst r.
  destruct fuel as [| f]; [cbn [cost] in Hfuel; lia |].
  cbn [cost] in Hfuel. rewrite parse_json_unfold.
  set (pa := parse_array_body NESTING_LIMIT (parse_array_loop NESTING_LIMIT f)).
  set (po := parse_object_body NESTING_LIMIT (parse_object_loop NESTING_LIMIT f)).
  destruct (after_value raw p _ rest dp Hp Hd Hrest Htop) as (Hp' & Hs' & Hend).
  cbn [text app] in Hd.
  assert (no_leading_space (drop p raw)) as Hs by (rewrite Hd; reflexivity).
  pose proof (dispatch_object pa po raw dp p (<[k := zero_item]> h) (Pos.succ k) k
                zero_item _ Hd (lookup_insert_eq _ _ _)) as Hdisp.
  set (h2 := <[k := with_type j_object zero_item]> (<[k := zero_item]> h)) in Hdisp.
  assert (h2 !! k = Some (with_type j_object zero_item)) as Hk2
    by apply lookup_insert_eq.
  assert (forall a, (a < k)%positive -> h2 !! a = h !! a) as Hfr2.
  { intros a Ha. unfold h2. rewrite !lookup_insert_ne by lia. reflexivity. }
  destruct (members_text_head ms) as (l & Hc).
  set (c := Char.quote) in Hc.
  assert (Char.isspace c = false) as Hsp by reflexivity.
  assert (Char.eqb c "}" = false) as Hcl by reflexivity.
  assert (drop (p + 1) raw = members_text ms ++ "}"%char :: rest) as Hd1.
  { apply (drop_app_advance raw p ["{"%char]). rewrite Hd, <- app_assoc. reflexivity. }
  assert (p + 1 <= length raw)%nat as Hp1
    by apply (drop_app_bound raw p ["{"%char] _ Hp Hd).
  pose proof (proj2 (proj2 nesting_nonneg) ms) as Hnn.
  cbn [nesting].
  destruct (Z_le_gt_dec (dp + 1) NESTING_LIMIT) as [Hroom | Hfull].
  - (* the object is entered *)
    specialize (IH f raw (dp + 1) (p + 1)%nat h2 (Pos.succ k) rest (Pos.succ k) None None
                  ltac:(lia) Hp1 Hd1 ltac:(lia) ltac:(lia) (or_introl eq_refl)).
    cbv zeta in IH.
    assert (po (mkWorld (mkBuffer raw dp (p + 1)) h2 (Pos.succ k))
            = bind (parse_object_loop NESTING_LIMIT f None None)
                (fun head =>
                   c <- peek ;;
                   if negb (Char.eqb c "}") then throw UnexpectedEOF
                   else advance 1 ;; decr_depth ;; ret head)
                (mkWorld (mkBuffer raw (dp + 1) (p + 1)) h2 (Pos.succ k))) as Henter.
    { unfold po. apply (object_body_enter _ raw dp (p + 1)%nat h2 (Pos.succ k) c
                          (l ++ "}"%char :: rest)); try assumption; try lia.
      rewrite Hd1, Hc. reflexivity. }
    replace (dp + (1 + members_nesting ms)) with (dp + 1 + members_nesting ms) by lia.
    destruct (Z.leb_spec (dp + 1 + members_nesting ms) NESTING_LIMIT) as [Hok | Hbad].
    + destruct IH as (hd & h3 & k3 & Hloop & Hk3 & Hfr3).
      assert (h3 !! k = Some (with_type j_object zero_item)) as Hk3'
        by (rewrite Hfr3 by lia; exact Hk2).
      pose proof (drop_app_advance raw (p + 1) _ _ Hd1) as Hd2.
      exists (<[k := with_child (Some hd) (with_type j_object zero_item)]> h3), k3.
      split; [| split; [lia | split]].
      * apply body_ok; try assumption.
        assert (po (mkWorld (mkBuffer raw dp (p + 1)) h2 (Pos.succ k))
                = (Ok (Some hd),
                   mkWorld (mkBuffer raw dp (p + 1 + length (members_text ms) + 1)) h3 k3))
          as Hpo.
        { rewrite Henter, (bind_ok _ _ _ _ _ Hloop).
          apply (close_container "}" (Some hd) raw dp _ h3 k3 rest ltac:(lia) Hd2). }
        rewrite Hdisp, (bind_ok _ _ _ _ _ Hpo).
        rewrite (update_live k _ _ _ _ _ Hk3').
        cbn [text length]. rewrite length_app. cbn [length].
        replace (p + S (length (members_text ms) + 1))%nat
          with (p + 1 + length (members_text ms) + 1)%nat by lia.
        reflexivity.
      * rewrite lookup_insert_eq. eexists; reflexivity.
      * intros a Ha. rewrite lookup_insert_ne by lia.
        rewrite Hfr3 by lia. apply Hfr2. exact Ha.
    + destruct IH as (q & b' & h3 & k3 & Hloop & Hk3 & Hfr3).
      assert (h3 !! k = Some (with_type j_object zero_item)) as Hk3'
        by (rewrite Hfr3 by lia; exact Hk2).
      exists q, b', (delete k h3), k3. split; [| split; [lia |]].
      * eapply (body_throw pa po raw dp p h k _ b' h3 k3);
          [exact Hp | exact Hs | | exact Hk3' | reflexivity | reflexivity].
        rewrite Hdisp. apply bind_throw. rewrite Henter. apply bind_throw. exact Hloop.
      * intros a Ha. rewrite lookup_delete_ne by lia.
        rewrite Hfr3 by lia. apply Hfr2. exact Ha.
  - (* the limit is reached at entry *)
    destruct (Z.leb_spec (dp + (1 + members_nesting ms)) NESTING_LIMIT) as [Hok | Hbad];
      [lia |].
    exists (p + 1)%nat, (mkBuffer raw (dp + 1) (p + 1)), (delete k h2), (Pos.succ k).
    split; [| split; [lia |]].
    + eapply (body_throw pa po raw dp p h k _ _ h2);
        [exact Hp | exact Hs | | exact Hk2 | reflexivity | reflexivity].
      rewrite Hdisp. apply bind_throw. unfold po.
      apply object_body_limit; lia.
    + intros a Ha. rewrite lookup_delete_ne by lia. apply Hfr2. exact Ha.
Qed.

Lemma linked_frame base k (h h1 : gmap ptr JSONItem) head current :
  linked base k h head current ->
  (forall a, (a < k)%positive -> h1 !! a = h !! a) ->
  linked base k h1 head current.
Proof.
  intros [Hn | (c & Hh & Hc & Hb & Hlt & Hlive)] Hfr; [left; exact Hn | right].
  exists c. rewrite (Hfr c Hlt). auto.
Qed.

Lemma parse_array_loop_unfold fuel head current :
  parse_array_loop NESTING_LIMIT (S fuel) head current
  = parse_array_round (parse_json NESTING_LIMIT fuel)
      (parse_array_loop NESTING_LIMIT fuel) head current.
Proof. reflexivity. Qed.

Lemma parse_object_loop_unfold fuel head current :
  parse_object_loop NESTING_LIMIT (S fuel) head current
  = parse_object_round (parse_json NESTING_LIMIT fuel)
      (parse_object_loop NESTING_LIMIT fuel) head current.
Proof. reflexivity. Qed.

Lemma elems_last d :
  well_formed d = true -> json_parses NESTING_LIMIT d -> elems_parse NESTING_LIMIT (Last d).
Proof.
  intros Hwf IH fuel raw dp p h k rest base head current
         Hfuel Hp Hd Hdp Hbase Hlinked r. subst r.
  destruct fuel as [| f]; [cbn [elems_cost] in Hfuel; lia |].
  cbn [elems_cost elems_text elems_nesting] in *.
  rewrite parse_array_loop_unfold.
  destruct (text_head d Hwf) as (c & l & Hc & Hsp & Hcl & _).
  rewrite (array_round_enter _ _ head current raw dp p h k c (l ++ "]"%char :: rest) Hp
             ltac:(rewrite Hd, Hc; reflexivity) Hsp Hcl).
  specialize (IH f raw dp p h k ("]"%char :: rest) ltac:(lia) Hp Hd
                ltac:(right; left; reflexivity) ltac:(lia) ltac:(lia)).
  cbv zeta in IH.
  pose proof (drop_app_advance raw p _ _ Hd) as Hd'.
  pose proof (drop_app_bound raw p _ _ Hp Hd) as Hp'.
  destruct (Z.leb_spec (dp + nesting d) NESTING_LIMIT) as [Hok | Hbad].
  - destruct IH as (h1 & k1 & Hrun & Hk1 & Hlive & Hfr).
    destruct (link_ok _ head current _ k _ h1 k1 base k Hrun Hlive Hbase
                (linked_frame _ _ _ _ _ _ Hlinked Hfr))
      as (hd & h2 & Hlink & Hlive2 & Hfr2).
    exists hd, h2, k1. split; [| split; [lia |]].
    + rewrite (bind_ok _ _ _ _ _ Hlink).
      apply (after_element_close _ (Some hd, Some k) raw dp _ h2 k1 rest Hp' Hd').
    + intros a Ha. rewrite Hfr2 by exact Ha. apply Hfr. lia.
  - destruct IH as (q & b' & h1 & k1 & Hrun & Hk1 & Hfr).
    exists q, b', h1, k1. split; [| split; [exact Hk1 |]].
    + apply bind_throw, link_throw. exact Hrun.
    + intros a Ha. apply Hfr. lia.
Qed.

Lemma elems_more d es :
  well_formed d = true -> json_parses NESTING_LIMIT d -> elems_parse NESTING_LIMIT es ->
  elems_parse NESTING_LIMIT (More d es).
Proof.
  intros Hwf IH IHes fuel raw dp p h k rest base head current
         Hfuel Hp Hd Hdp Hbase Hlinked r. subst r.
  destruct fuel as [| f]; [cbn [elems_cost] in Hfuel; lia |].
  cbn [elems_cost elems_text elems_nesting] in *.
  rewrite <- app_assoc in Hd. cbn [app] in Hd.
  rewrite parse_array_loop_unfold.
  destruct (text_head d Hwf) as (c & l & Hc & Hsp & Hcl & _).
  rewrite (array_round_enter _ _ head current raw dp p h k c
             (l ++ ","%char :: elems_text es ++ "]"%char :: rest) Hp
             ltac:(rewrite Hd, Hc; reflexivity) Hsp Hcl).
  specialize (IH f raw dp p h k (","%char :: elems_text es ++ "]"%char :: rest)
                ltac:(lia) Hp Hd ltac:(left; reflexivity) ltac:(lia) ltac:(lia)).
  cbv zeta in IH.
  pose proof (drop_app_advance raw p _ _ Hd) as Hd'.
  pose proof (drop_app_bound raw p _ _ Hp Hd) as Hp'.
  destruct (Z.leb_spec (dp + nesting d) NESTING_LIMIT) as [Hok | Hbad].
  - destruct IH as (h1 & k1 & Hrun & Hk1 & Hlive & Hfr).
    destruct (link_ok _ head current _ k _ h1 k1 base k Hrun Hlive Hbase
                (linked_frame _ _ _ _ _ _ Hlinked Hfr))
      as (hd & h2 & Hlink & Hlive2 & Hfr2).
    rewrite (bind_ok _ _ _ _ _ Hlink).
    rewrite (after_element_comma _ (Some hd, Some k) raw dp _ h2 k1 _ Hp' Hd').
    cbn [fst snd].
    pose proof (drop_app_advance raw _ [","%char] _ Hd') as Hd2.
    pose proof (drop_app_bound raw _ [","%char] _ Hp' Hd') as Hp2.
    cbn [length] in Hd2, Hp2.
    specialize (IHes f raw dp (p + length (text d) + 1)%nat h2 k1 rest base
                  (Some hd) (Some k) ltac:(lia) Hp2 Hd2 Hdp ltac:(lia)).
    specialize (IHes ltac:(right; exists k; repeat split; eauto; lia)).
    cbv zeta in IHes.
    destruct (Z.leb_spec (dp + elems_nesting es) NESTING_LIMIT) as [Hok2 | Hbad2].
    + destruct (Z.leb_spec (dp + Z.max (nesting d) (elems_nesting es)) NESTING_LIMIT);
        [| lia].
      destruct IHes as (hd' & h3 & k3 & Hloop & Hk3 & Hfr3).
      exists hd', h3, k3. split; [| split; [lia |]].
      * rewrite Hloop. rewrite length_app. cbn [length].
        replace (p + (length (text d) + S (length (elems_text es))))%nat
          with (p + length (text d) + 1 + length (elems_text es))%nat by lia.
        reflexivity.
      * intros a Ha. rewrite Hfr3, Hfr2 by exact Ha. apply Hfr. lia.
    + destruct (Z.leb_spec (dp + Z.max (nesting d) (elems_nesting es)) NESTING_LIMIT);
        [lia |].
      destruct IHes as (q & b' & h3 & k3 & Hloop & Hk3 & Hfr3).
      exists q, b', h3, k3. split; [exact Hloop | split; [lia |]].
      intros a Ha. rewrite Hfr3, Hfr2 by exact Ha. apply Hfr. lia.
  - destruct (Z.leb_spec (dp + Z.max (nesting d) (elems_nesting es)) NESTING_LIMIT);
      [lia |].
    destruct IH as (q & b' & h1 & k1 & Hrun & Hk1 & Hfr).
    exists q, b', h1, k1. split; [| split; [exact Hk1 |]].
    + apply bind_throw, link_throw. exact Hrun.
    + intros a Ha. apply Hfr. lia.
Qed.

(** The bytes of a member up to its value. *)
Lemma member_prefix raw p nm (t : list ascii) :
  (p <= length raw)%nat ->
  drop p raw = Char.quote :: nm ++ Char.quote :: ":"%char :: t ->
  (p + length nm + 3 <= length raw)%nat /\ drop (p + length nm + 3) raw = t.
Proof.
  intros Hp Hd.
  pose proof (drop_app_bound raw p (Char.quote :: nm ++ [Char.quote; ":"%char]) t Hp) as Hb.
  pose proof (drop_app_advance raw p (Char.quote :: nm ++ [Char.quote; ":"%char]) t) as Ha.
  cbn [app length] in Hb, Ha. rewrite <- app_assoc, length_app in Hb, Ha.
  cbn [app length] in Hb, Ha.
  replace (p + S (length nm + 2))%nat with (p + length nm + 3)%nat in Hb, Ha by lia.
  split; [apply Hb | apply Ha]; exact Hd.
Qed.

Lemma members_last nm d :
  plain_string nm = true -> well_formed d = true -> json_parses NESTING_LIMIT d ->
  members_parse NESTING_LIMIT (LastMember nm d).
Proof.
  intros Hnm Hwf IH fuel raw dp p h k rest base head current
         Hfuel Hp Hd Hdp Hbase Hlinked r. subst r.
  destruct fuel as [| f]; [cbn [members_cost] in Hfuel; lia |].
  cbn [members_cost members_text members_nesting] in *.
  cbn [app] in Hd. rewrite <- app_assoc in Hd. cbn [app] in Hd.
  rewrite parse_object_loop_unfold.
  destruct (text_head d Hwf) as (c & l & Hc & Hsp & _ & Hcl).
  rewrite (object_round_enter _ _ head current raw dp p h k nm c
             (l ++ "}"%char :: rest) Hp ltac:(rewrite Hd, Hc; reflexivity) Hnm Hsp).
  destruct (member_prefix raw p nm _ Hp Hd) as [Hp0 Hd0].
  specialize (IH f raw dp (p + length nm + 3)%nat h k ("}"%char :: rest)
                ltac:(lia) Hp0 Hd0 ltac:(right; right; reflexivity)
                ltac:(lia) ltac:(lia)).
  cbv zeta in IH.
  pose proof (drop_app_advance raw _ _ _ Hd0) as Hd'.
  pose proof (drop_app_bound raw _ _ _ Hp0 Hd0) as Hp'.
  destruct (Z.leb_spec (dp + nesting d) NESTING_LIMIT) as [Hok | Hbad].
  - destruct IH as (h1 & k1 & Hrun & Hk1 & Hlive & Hfr).
    destruct (link_ok _ head current _ k _ h1 k1 base k Hrun Hlive Hbase
                (linked_frame _ _ _ _ _ _ Hlinked Hfr))
      as (hd & h2 & Hlink & [itk Hitk] & Hfr2).
    exists hd, (<[k := with_name nm itk]> h2), k1. split; [| split; [lia |]].
    + rewrite (bind_ok _ _ _ _ _ Hlink). cbn [snd].
      rewrite (bind_ok _ _ _ _ _ (update_live k _ _ _ _ _ Hitk)).
      rewrite (after_member_close _ (Some hd, Some k) raw dp _ _ k1 rest Hp' Hd').
      cbn [fst]. rewrite length_cons, length_app. cbn [length].
      replace (p + S (length nm + S (S (length (text d)))))%nat
        with (p + length nm + 3 + length (text d))%nat by lia.
      reflexivity.
    + intros a Ha. rewrite lookup_insert_ne by lia.
      rewrite Hfr2 by exact Ha. apply Hfr. lia.
  - destruct IH as (q & b' & h1 & k1 & Hrun & Hk1 & Hfr).
    exists q, b', h1, k1. split; [| split; [exact Hk1 |]].
    + apply bind_throw, link_throw. exact Hrun.
    + intros a Ha. apply Hfr. lia.
Qed.

Lemma members_more nm d ms :
  plain_string nm = true -> well_formed d = true -> json_parses NESTING_LIMIT d ->
  members_parse NESTING_LIMIT ms -> members_parse NESTING_LIMIT (MoreMembers nm d ms).
Proof.
  intros Hnm Hwf IH IHms fuel raw dp p h k rest base head current
         Hfuel Hp Hd Hdp Hbase Hlinked r. subst r.
  destruct fuel as [| f]; [cbn [members_cost] in Hfuel; lia |].
  cbn [members_cost members_text members_nesting] in *.
  cbn [app] in Hd. rewrite <- app_assoc in Hd. cbn [app] in Hd.
  rewrite <- app_assoc in Hd. cbn [app] in Hd.
  rewrite parse_object_loop_unfold.
  destruct (text_head d Hwf) as (c & l & Hc & Hsp & _ & Hcl).
  rewrite (object_round_enter _ _ head current raw dp p h k nm c
             (l ++ ","%char :: members_text ms ++ "}"%char :: rest) Hp
             ltac:(rewrite Hd, Hc; reflexivity) Hnm Hsp).
  destruct (member_prefix raw p nm _ Hp Hd) as [Hp0 Hd0].
  specialize (IH f raw dp (p + length nm + 3)%nat h k
                (","%char :: members_text ms ++ "}"%char :: rest)
                ltac:(lia) Hp0 Hd0 ltac:(left; reflexivity) ltac:(lia) ltac:(lia)).
  cbv zeta in IH.
  pose proof (drop_app_advance raw _ _ _ Hd0) as Hd'.
  pose proof (drop_app_bound raw _ _ _ Hp0 Hd0) as Hp'.
  destruct (Z.leb_spec (dp + nesting d) NESTING_LIMIT) as [Hok | Hbad].
  - destruct IH as (h1 & k1 & Hrun & Hk1 & Hlive & Hfr).
    destruct (link_ok _ head current _ k _ h1 k1 base k Hrun Hlive Hbase
                (linked_frame _ _ _ _ _ _ Hlinked Hfr))
      as (hd & h2 & Hlink & [itk Hitk] & Hfr2).
    rewrite (bind_ok _ _ _ _ _ Hlink). cbn [snd].
    rewrite (bind_ok _ _ _ _ _ (update_live k _ _ _ _ _ Hitk)).
    rewrite (after_member_comma _ (Some hd, Some k) raw dp _ _ k1 _ Hp' Hd').
    cbn [fst snd].
    pose proof (drop_app_advance raw _ [","%char] _ Hd') as Hd2.
    pose proof (drop_app_bound raw _ [","%char] _ Hp' Hd') as Hp2.
    cbn [length] in Hd2, Hp2.
    specialize (IHms f raw dp (p + length nm + 3 + length (text d) + 1)%nat
                  (<[k := with_name nm itk]> h2) k1 rest base
                  (Some hd) (Some k) ltac:(lia) Hp2 Hd2 Hdp ltac:(lia)).
    specialize (IHms ltac:(right; exists k; repeat split;
                           [eexists; reflexivity | lia | lia
                           | rewrite lookup_insert_eq; eexists; reflexivity])).
    cbv zeta in IHms.
    assert (forall a, (a < base)%positive ->
                      <[k := with_name nm itk]> h2 !! a = h !! a) as Hfr2'.
    { intros a Ha. rewrite lookup_insert_ne by lia.
      rewrite Hfr2 by exact Ha. apply Hfr. lia. }
    assert ((p + length (Char.quote :: nm ++ Char.quote :: ":"%char ::
                           text d ++ ","%char :: members_text ms))%nat
            = (p + length nm + 3 + length (text d) + 1 + length (members_text ms))%nat)
      as Hlen.
    { rewrite length_cons, length_app. cbn [length]. rewrite length_app. cbn [length]. lia. }
    destruct (Z.leb_spec (dp + members_nesting ms) NESTING_LIMIT) as [Hok2 | Hbad2].
    + destruct (Z.leb_spec (dp + Z.max (nesting d) (members_nesting ms)) NESTING_LIMIT);
        [| lia].
      destruct IHms as (hd' & h3 & k3 & Hloop & Hk3 & Hfr3).
      exists hd', h3, k3. split; [| split; [lia |]].
      * rewrite Hloop, Hlen. reflexivity.
      * intros a Ha. rewrite Hfr3 by exact Ha. apply Hfr2'. exact Ha.
    + destruct (Z.leb_spec (dp + Z.max (nesting d) (members_nesting ms)) NESTING_LIMIT);
        [lia |].
      destruct IHms as (q & b' & h3 & k3 & Hloop & Hk3 & Hfr3).
      exists q, b', h3, k3. split; [exact Hloop | split; [lia |]].
      intros a Ha. rewrite Hfr3 by exact Ha. apply Hfr2'. exact Ha.
  - destruct (Z.leb_spec (dp + Z.max (nesting d) (members_nesting ms)) NESTING_LIMIT);
      [lia |].
    destruct IH as (q & b' & h1 & k1 & Hrun & Hk1 & Hfr).
    exists q, b', h1, k1. split; [| split; [exact Hk1 |]].
    + apply bind_throw, link_throw. exact Hrun.
    + intros a Ha. apply Hfr. lia.
Qed.

(** Every well-formed text parses, or hits the nesting limit, according
    to its nesting alone. *)
Theorem grammar_parses :
  (forall d, well_formed d = true -> json_parses NESTING_LIMIT d) /\
  (forall es, elems_well_formed es = true -> elems_parse NESTING_LIMIT es) /\
  (forall ms, members_well_formed ms = true -> members_parse NESTING_LIMIT ms).
Proof.
  apply doc_mutind.
  - intros Hwf. apply scalar_parses; try reflexivity.
    intros. eapply dispatch_null; eassumption.
  - intros [] Hwf; apply scalar_parses; try reflexivity; intros;
      [eapply dispatch_true | eapply dispatch_false]; eassumption.
  - intros s Hwf. apply scalar_parses; try reflexivity; [exact Hwf |].
    intros. eapply dispatch_string; eassumption.
  - intros ds Hwf. apply scalar_parses; try reflexivity; [exact Hwf |].
    intros. eapply dispatch_number; eassumption.
  - intros es IH Hwf. apply array_parses; [exact Hwf | apply IH, Hwf].
  - intros ms IH Hwf. apply object_parses; [exact Hwf | apply IH, Hwf].
  - intros d IH Hwf. apply elems_last; [exact Hwf | apply IH, Hwf].
  - intros d IH es IHes Hwf. cbn [elems_well_formed] in Hwf.
    apply andb_true_iff in Hwf as [Hd Hes]. apply elems_more; auto.
  - intros nm d IH Hwf. cbn [members_well_formed] in Hwf.
    apply andb_true_iff in Hwf as [Hnm Hd]. apply members_last; auto.
  - intros nm d IH ms IHms Hwf. cbn [members_well_formed] in Hwf.
    apply andb_true_iff in Hwf as [Hwf Hms].
    apply andb_true_iff in Hwf as [Hnm Hd]. apply members_more; auto.
Qed.

End Containers.

End Run.

(** ** The nesting of the texts of the grammar *)
Module Depth.

Import Document Behaviour.

Lemma deepest_step (c : ascii) (l : list ascii) o b :
  Char.eqb c Char.quote = false ->
  (Char.eqb c "[" || Char.eqb c "{")%bool = false ->
  (Char.eqb c "]" || Char.eqb c "}")%bool = false ->
  deepest (c :: l) false false o b = deepest l false false o b.
Proof. intros H1 H2 H3. cbn [deepest]. rewrite H1, H2, H3. reflexivity. Qed.

Lemma deepest_digits (ds rest : list ascii) o b :
  forallb Char.isdigit ds = true ->
  deepest (ds ++ rest) false false o b = deepest rest false false o b.
Proof.
  induction ds as [| d ds IH]; intros Hds; [reflexivity |].
  cbn [forallb] in Hds. apply andb_true_iff in Hds as [Hd Hds].
  destruct (Numbers.digit_facts d Hd) as (_ & _ & _ & _ & Hq & Ha & Ho & Hca & Hco).
  cbn [app]. rewrite deepest_step, IH by (assumption || (rewrite ?Ha, ?Ho, ?Hca, ?Hco; reflexivity)).
  reflexivity.
Qed.

Lemma deepest_string (s rest : list ascii) o b :
  plain_string s = true ->
  deepest (s ++ Char.quote :: rest) true false o b = deepest rest false false o b.
Proof.
  induction s as [| c s IH]; intros Hs.
  - reflexivity.
  - unfold plain_string in Hs. cbn [forallb] in Hs. apply andb_true_iff in Hs as [Hc Hs].
    unfold plain in Hc. apply andb_true_iff in Hc as [Hq Hb].
    apply negb_true_iff in Hq, Hb.
    cbn [app deepest]. rewrite Hb, Hq. apply IH. exact Hs.
Qed.

Lemma deepest_text :
  (forall d, well_formed d = true -> forall rest o b, o <= b ->
     deepest (text d ++ rest) false false o b
     = deepest rest false false o (Z.max b (o + nesting d))) /\
  (forall es, elems_well_formed es = true -> forall rest o b, o <= b ->
     deepest (elems_text es ++ rest) false false o b
     = deepest rest false false o (Z.max b (o + elems_nesting es))) /\
  (forall ms, members_well_formed ms = true -> forall rest o b, o <= b ->
     deepest (members_text ms ++ rest) false false o b
     = deepest rest false false o (Z.max b (o + members_nesting ms))).
Proof.
  apply doc_mutind.
  - intros _ rest o b Hob. cbn [text nesting]. rewrite Z.add_0_r, Z.max_l by lia. reflexivity.
  - intros [] _ rest o b Hob; cbn [text nesting]; rewrite Z.add_0_r, Z.max_l by lia;
      reflexivity.
  - intros s Hs rest o b Hob. cbn [text nesting well_formed] in *.
    rewrite Z.add_0_r, Z.max_l by lia.
    cbn [app deepest]. change (Char.eqb Char.quote Char.quote) with true. cbv iota.
    rewrite <- app_assoc. cbn [app]. apply deepest_string. exact Hs.
  - intros ds Hds rest o b Hob. cbn [text nesting well_formed] in *.
    rewrite Z.add_0_r, Z.max_l by lia.
    apply andb_true_iff in Hds as [_ Hds]. apply deepest_digits. exact Hds.
  - intros es IH Hwf rest o b Hob. cbn [text nesting well_formed] in *.
    pose proof (proj1 (proj2 (Run.nesting_nonneg)) es) as Hnn.
    cbn [app deepest]. change (Char.eqb "[" Char.quote) with false.
    change (Char.eqb "[" "[" || Char.eqb "[" "{")%bool with true. cbv iota.
    rewrite <- app_assoc, (IH Hwf) by lia.
    cbn [app deepest]. f_equal; lia.
  - intros ms IH Hwf rest o b Hob. cbn [text nesting well_formed] in *.
    pose proof (proj2 (proj2 (Run.nesting_nonneg)) ms) as Hnn.
    cbn [app deepest]. change (Char.eqb "{" Char.quote) with false.
    change (Char.eqb "{" "[" || Char.eqb "{" "{")%bool with true. cbv iota.
    rewrite <- app_assoc, (IH Hwf) by lia.
    cbn [app deepest]. f_equal; lia.
  - intros d IH Hwf rest o b Hob. cbn [elems_text elems_nesting elems_well_formed] in *.
    apply IH; assumption.
  - intros d IH es IHes Hwf rest o b Hob.
    cbn [elems_text elems_nesting elems_well_formed] in *.
    apply andb_true_iff in Hwf as [Hd Hes].
    rewrite <- app_assoc, (IH Hd) by lia. cbn [app].
    rewrite deepest_step by reflexivity. rewrite (IHes Hes) by lia. f_equal. lia.
  - intros nm d IH Hwf rest o b Hob.
    cbn [members_text members_nesting members_well_formed] in *.
    apply andb_true_iff in Hwf as [Hnm Hd].
    cbn [app deepest]. change (Char.eqb Char.quote Char.quote) with true. cbv iota.
    rewrite <- app_assoc. cbn [app]. rewrite deepest_string by exact Hnm.
    rewrite deepest_step by reflexivity. apply IH; assumption.
  - intros nm d IH ms IHms Hwf rest o b Hob.
    cbn [members_text members_nesting members_well_formed] in *.
    apply andb_true_iff in Hwf as [Hwf Hms]. apply andb_true_iff in Hwf as [Hnm Hd].
    cbn [app deepest]. change (Char.eqb Char.quote Char.quote) with true. cbv iota.
    rewrite <- app_assoc. cbn [app]. rewrite deepest_string by exact Hnm.
    rewrite deepest_step by reflexivity.
    rewrite <- app_assoc, (IH Hd) by lia. cbn [app].
    rewrite deepest_step by reflexivity. rewrite (IHms Hms) by lia. f_equal. lia.
Qed.

(** On the texts of the grammar, the nesting counted on the bytes is the
    nesting of the value. *)
Lemma max_nesting_text (d : doc) :
  well_formed d = true -> max_nesting (text d) = nesting d.
Proof.
  intros Hwf. unfold max_nesting.
  pose proof (proj1 deepest_text d Hwf [] 0 0 ltac:(lia)) as H.
  rewrite app_nil_r in H. rewrite H. cbn [deepest].
  pose proof (proj1 Run.nesting_nonneg d). lia.
Qed.

End Depth.

(** ** The scanners on any buffer *)
Module Scanners.

Import Document Behaviour Literal.

Lemma char_eqb_eq (a b : ascii) : Char.eqb a b = true <-> a = b.
Proof. unfold Char.eqb. apply Ascii.eqb_eq. Qed.

Lemma char_eqb_neq (a b : ascii) : Char.eqb a b = false <-> a <> b.
Proof. unfold Char.eqb. apply Ascii.eqb_neq. Qed.

Lemma skip_whitespace_from_spec (rest : list ascii) (p : nat) :
  let p' := skip_whitespace_from rest p in
  (p <= p' <= p + length rest)%nat /\
  Forall (fun c => Char.isspace c = true) (take (p' - p) rest) /\
  match rest !! (p' - p)%nat with
  | Some c => Char.isspace c = false
  | None => p' = (p + length rest)%nat
  end.
Proof.
  revert p. induction rest as [| c rest IH]; intros p; cbn [skip_whitespace_from length].
  - rewrite Nat.sub_diag. cbn. repeat split; try lia. constructor.
  - destruct (Char.isspace c) eqn:Hc.
    + specialize (IH (S p)). cbv zeta in IH. destruct IH as (Hb & Hall & Hstop).
      set (p' := skip_whitespace_from rest (S p)) in *.
      replace (p' - p)%nat with (S (p' - S p)) by lia.
      cbn [take lookup list_lookup]. repeat split; try lia.
      * constructor; assumption.
      * destruct (rest !! (p' - S p)%nat); [exact Hstop | lia].
    + rewrite Nat.sub_diag. cbn. repeat split; try lia; [constructor | exact Hc].
Qed.


Lemma written_plain (c : ascii) rest p out :
  plain c = true ->
  parse_string_from (written c ++ rest) p out
  = parse_string_from rest (p + length (written c)) (out ++ [c]).
Proof.
  intros Hc. unfold written.
  destruct (Char.eqb c Char.BS) eqn:H1;
    [apply char_eqb_eq in H1; subst c; cbn [app length]; reflexivity |].
  destruct (Char.eqb c Char.FF) eqn:H2;
    [apply char_eqb_eq in H2; subst c; cbn [app length]; reflexivity |].
  destruct (Char.eqb c Char.LF) eqn:H3;
    [apply char_eqb_eq in H3; subst c; cbn [app length]; reflexivity |].
  destruct (Char.eqb c Char.CR) eqn:H4;
    [apply char_eqb_eq in H4; subst c; cbn [app length]; reflexivity |].
  destruct (Char.eqb c Char.TAB) eqn:H5;
    [apply char_eqb_eq in H5; subst c; cbn [app length]; reflexivity |].
  unfold plain in Hc. apply andb_true_iff in Hc as [Hq Hb].
  apply negb_true_iff in Hq, Hb.
  cbn [app length parse_string_from]. rewrite Hq, Hb. cbn [negb].
  rewrite Nat.add_1_r. reflexivity.
Qed.

Lemma literal_scanned (s : list ascii) rest p out :
  plain_string s = true ->
  parse_string_from (literal s ++ rest) p out
  = parse_string_from rest (p + length (literal s)) (out ++ s).
Proof.
  revert p out. induction s as [| c s IH]; intros p out Hs.
  - cbn. rewrite Nat.add_0_r, app_nil_r. reflexivity.
  - unfold plain_string in Hs. cbn [forallb] in Hs. apply andb_true_iff in Hs as [Hc Hs].
    unfold literal. cbn [flat_map]. fold (literal s).
    rewrite <- app_assoc, written_plain by exact Hc.
    rewrite IH by exact Hs. rewrite length_app, <- app_assoc, Nat.add_assoc. reflexivity.
Qed.

Lemma skip_whitespace_from_app (ws rest : list ascii) (p : nat) :
  forallb Char.isspace ws = true ->
  match rest with c :: _ => Char.isspace c = false | [] => True end ->
  skip_whitespace_from (ws ++ rest) p = (p + length ws)%nat.
Proof.
  revert p. induction ws as [| c ws IH]; intros p Hws Hrest.
  - cbn [app length]. rewrite Nat.add_0_r.
    destruct rest as [| c r]; [reflexivity |]. cbn. rewrite Hrest. reflexivity.
  - cbn [forallb] in Hws. apply andb_true_iff in Hws as [Hc Hws].
    cbn [app skip_whitespace_from length]. rewrite Hc, IH by assumption. lia.
Qed.

Lemma skip_whitespace_app (ws rest : list ascii) dp :
  forallb Char.isspace ws = true ->
  match rest with c :: _ => Char.isspace c = false | [] => True end ->
  skip_whitespace (mkBuffer (ws ++ rest) dp 0)
  = (Ok tt, mkBuffer (ws ++ rest) dp (length ws)).
Proof.
  intros Hws Hrest. unfold skip_whitespace. cbn [pos raw_json Nat.leb].
  rewrite drop_0, skip_whitespace_from_app by assumption. reflexivity.
Qed.

Lemma dispatch_no_value pa po item raw dp p h k rest :
  (p <= length raw)%nat -> drop p raw = rest -> no_value_at rest = true ->
  dispatch pa po item (mkWorld (mkBuffer raw dp p) h k)
  = (Throw InvalidJSON, mkWorld (mkBuffer raw dp p) h k).
Proof.
  intros Hp Hd Hno. unfold dispatch.
  rewrite (Exec.bind_ok get_buf _ _ _ _ eq_refl). cbn [buf].
  destruct rest as [| c l].
  - assert (forall n, (0 < n)%nat -> can_read (mkBuffer raw dp p) n = false) as Hcr.
    { intros n Hn. unfold can_read, raw_size. cbn [raw_json pos].
      apply (f_equal length) in Hd. rewrite length_drop in Hd. cbn [length] in Hd.
      apply andb_false_iff. right. apply Nat.leb_gt. lia. }
    unfold looking_at, starts_number. rewrite !Hcr by lia. reflexivity.
  - cbn [no_value_at] in Hno. apply andb_true_iff in Hno as [_ Hop].
    apply negb_true_iff in Hop. unfold opens_value in Hop.
    repeat (apply orb_false_iff in Hop as [Hop ?]).
    rewrite !(fun x => Exec.looking_at_head raw dp p c l x Hd),
      (Exec.starts_number_head raw dp p c l Hd).
    repeat match goal with H : _ = false |- _ => rewrite H; clear H end.
    cbn [orb].
    assert (forall n w, (0 < n)%nat ->
              Char.eqb c (hd Char.NUL (bytes w)) = false ->
              compare_at (mkBuffer raw dp p) n w = false) as Hcmp.
    { intros n w Hn Hne. unfold compare_at. cbn [pos raw_json]. rewrite Hd.
      apply bool_decide_eq_false_2. intros Heq.
      destruct n; [lia |]. cbn [take] in Heq. rewrite <- Heq in Hne. cbn [hd] in Hne.
      unfold Char.eqb in Hne. rewrite Ascii.eqb_refl in Hne. discriminate. }
    rewrite (Hcmp 4%nat "null"%string), (Hcmp 4%nat "true"%string),
      (Hcmp 5%nat "false"%string) by (assumption || lia).
    rewrite !andb_false_r. reflexivity.
Qed.

(** *** [strtod] stays inside its argument *)

Lemma span_fst_length (f : ascii -> bool) (l : list ascii) :
  (length (fst (Strtod.span f l)) <= length l)%nat.
Proof.
  induction l as [| c l IH]; cbn [Strtod.span]; [cbn; lia |].
  destruct (f c); [| cbn; lia].
  destruct (Strtod.span f l) as [a r]. cbn [fst length] in *. lia.
Qed.

Lemma span_split (f : ascii -> bool) (l : list ascii) :
  l = fst (Strtod.span f l) ++ snd (Strtod.span f l).
Proof.
  induction l as [| c l IH]; cbn [Strtod.span]; [reflexivity |].
  destruct (f c); [| reflexivity].
  destruct (Strtod.span f l) as [a r]. cbn [fst snd app] in *. congruence.
Qed.

Lemma sign_length (l : list ascii) : (snd (Strtod.sign l) <= length l)%nat.
Proof.
  destruct l as [| c l]; cbn [Strtod.sign]; [cbn; lia |].
  destruct (Char.eqb c "-"); [cbn; lia |].
  destruct (Char.eqb c "+"); cbn; lia.
Qed.

Lemma significand_length f base val l m frac n :
  Strtod.significand f base val l = Some (m, frac, n) -> (n <= length l)%nat.
Proof.
  unfold Strtod.significand. intros H.
  pose proof (span_split f l) as Hsplit.
  destruct (Strtod.span f l) as [ip l1]. cbn [fst snd] in Hsplit.
  apply (f_equal length) in Hsplit. rewrite length_app in Hsplit.
  destruct l1 as [| c l2].
  - destruct (ip ++ []); [discriminate |]. injection H as <- <- <-. cbn in *. lia.
  - destruct (Char.eqb c ".").
    + pose proof (span_fst_length f l2) as Hfp.
      destruct (ip ++ fst (Strtod.span f l2)); [discriminate |].
      injection H as <- <- <-. cbn [length] in *. lia.
    + destruct (ip ++ []); [discriminate |]. injection H as <- <- <-. cbn in *. lia.
Qed.

Lemma exponent_length marker l : (snd (Strtod.exponent marker l) <= length l)%nat.
Proof.
  unfold Strtod.exponent. destruct l as [| c l]; [cbn; lia |].
  destruct (Char.eqb (Char.tolower c) marker); [| cbn; lia].
  pose proof (sign_length l) as Hs.
  destruct (Strtod.sign l) as [neg sn]. cbn [snd] in Hs.
  pose proof (span_fst_length Char.isdigit (drop sn l)) as Hd.
  rewrite length_drop in Hd.
  destruct (fst (Strtod.span Char.isdigit (drop sn l))); cbn [snd length] in *; lia.
Qed.

Lemma decimal_length neg l v n :
  Strtod.decimal neg l = Some (v, n) -> (n <= length l)%nat.
Proof.
  unfold Strtod.decimal. intros H.
  destruct (Strtod.significand Char.isdigit 10 Char.digit_val l) as [[[m frac] k] |] eqn:Hs;
    [| discriminate].
  apply significand_length in Hs.
  pose proof (exponent_length "e" (drop k l)) as He. rewrite length_drop in He.
  destruct (Strtod.exponent "e" (drop k l)) as [e en]. cbn [snd] in He.
  injection H as _ <-. lia.
Qed.

Lemma hexadecimal_length neg l v n :
  Strtod.hexadecimal neg l = Some (v, n) -> (n <= length l)%nat.
Proof.
  unfold Strtod.hexadecimal. intros H.
  destruct l as [| z [| x l']]; try discriminate.
  destruct (Char.eqb z "0" && Char.eqb (Char.tolower x) "x")%bool; [| discriminate].
  destruct (Strtod.significand Char.isxdigit 16 Char.xdigit_val l') as [[[m frac] k] |] eqn:Hs;
    [| discriminate].
  apply significand_length in Hs.
  pose proof (exponent_length "p" (drop k l')) as He. rewrite length_drop in He.
  destruct (Strtod.exponent "p" (drop k l')) as [e en]. cbn [snd] in He.
  injection H as _ <-. cbn [length]. lia.
Qed.

Lemma starts_with_length word l :
  Strtod.starts_with word l = true -> (length (bytes word) <= length l)%nat.
Proof.
  unfold Strtod.starts_with. intros H. apply bool_decide_eq_true in H.
  apply (f_equal length) in H. rewrite length_map, length_take in H. lia.
Qed.

Lemma special_length neg l v n :
  Strtod.special neg l = Some (v, n) -> (n <= length l)%nat.
Proof.
  unfold Strtod.special. intros H.
  destruct (Strtod.starts_with "infinity" l) eqn:H1.
  { apply starts_with_length in H1. injection H as _ <-. exact H1. }
  destruct (Strtod.starts_with "inf" l) eqn:H2.
  { apply starts_with_length in H2. injection H as _ <-. exact H2. }
  destruct (Strtod.starts_with "nan" l) eqn:H3; [| discriminate].
  apply starts_with_length in H3. change (length (bytes "nan")) with 3%nat in H3.
  destruct (drop 3 l) as [| c l'] eqn:Hd; [injection H as _ <-; exact H3 |].
  apply (f_equal length) in Hd. rewrite length_drop in Hd. cbn [length] in Hd.
  destruct (Char.eqb c "("); [| injection H as _ <-; exact H3].
  pose proof (span_split Strtod.is_nchar l') as Hsp.
  destruct (Strtod.span Strtod.is_nchar l') as [ns r]. cbn [fst snd] in Hsp.
  apply (f_equal length) in Hsp. rewrite length_app in Hsp.
  destruct r as [| d r']; [injection H as _ <-; exact H3 |].
  destruct (Char.eqb d ")"); injection H as _ <-; cbn [length] in *; lia.
Qed.

Lemma strtod_length (l : list ascii) : (snd (Strtod.strtod l) <= length l)%nat.
Proof.
  unfold Strtod.strtod.
  pose proof (span_fst_length Char.isspace l) as Hws.
  set (ws := length (fst (Strtod.span Char.isspace l))) in *.
  pose proof (sign_length (drop ws l)) as Hs. rewrite length_drop in Hs.
  destruct (Strtod.sign (drop ws l)) as [neg sn]. cbn [snd] in Hs.
  destruct (Strtod.subject neg (drop (ws + sn) l)) as [[v n] |] eqn:Hsub; [| cbn; lia].
  cbn [snd]. assert (n <= length (drop (ws + sn) l))%nat as Hn.
  { unfold Strtod.subject in Hsub.
    destruct (Strtod.hexadecimal neg (drop (ws + sn) l)) as [[v1 n1] |] eqn:Hh.
    - injection Hsub as <- <-. eapply hexadecimal_length, Hh.
    - destruct (Strtod.decimal neg (drop (ws + sn) l)) as [[v1 n1] |] eqn:Hdec.
      + injection Hsub as <- <-. eapply decimal_length, Hdec.
      + eapply special_length, Hsub. }
  rewrite length_drop in Hn. lia.
Qed.

End Scanners.

(** ** The tree that a parse builds *)
Module Build.

Import Document Behaviour Tree Exec Numbers.

Lemma ends_facts (c : ascii) :
  (Char.isspace c || Char.eqb c "," || Char.eqb c "]" || Char.eqb c "}")%bool = true ->
  Char.isdigit c = false /\ Char.eqb c "." = false /\
  Char.eqb (Char.tolower c) "e" = false /\ Char.eqb (Char.tolower c) "x" = false.
Proof.
  destruct c as [[] [] [] [] [] [] [] []]; vm_compute; intros H;
    try discriminate H; repeat split; reflexivity.
Qed.

Lemma delimited_ends rest : delimited rest -> ends_value rest = true.
Proof.
  destruct rest as [| c r]; [reflexivity |].
  intros [-> | [-> | ->]]; reflexivity.
Qed.

Lemma span_digits_ends ds rest :
  forallb Char.isdigit ds = true -> ends_value rest = true ->
  Strtod.span Char.isdigit (ds ++ rest) = (ds, rest).
Proof.
  intros Hds Hrest. induction ds as [| d ds IH].
  - destruct rest as [| c r]; [reflexivity |].
    cbn [app Strtod.span]. destruct (ends_facts c Hrest) as (-> & _). reflexivity.
  - simpl in Hds. apply andb_true_iff in Hds as [Hd Hds].
    cbn [app Strtod.span]. rewrite Hd, IH by assumption. reflexivity.
Qed.

Lemma strtod_unsigned_exact ds rest :
  unsigned_integer ds = true -> ends_value rest = true ->
  Strtod.strtod (ds ++ rest)
  = (Strtod.scaled false (Strtod.number_of 10 Char.digit_val ds) 10 0, length ds).
Proof.
  intros Hu Hrest. apply andb_true_iff in Hu as [Hne Hds].
  destruct ds as [| d ds]; [discriminate Hne |]. clear Hne.
  pose proof (span_digits_ends _ _ Hds Hrest) as Hspan.
  cbn [forallb] in Hds. apply andb_true_iff in Hds as [Hd Hds].
  destruct (digit_facts d Hd) as (Hsp & Hm & Hp & _).
  unfold Strtod.strtod. cbn [app Strtod.span]. rewrite Hsp.
  cbn [fst length drop Strtod.sign]. rewrite Hm, Hp. cbn [Nat.add drop].
  assert (Strtod.hexadecimal false (d :: ds ++ rest) = None) as Hhex.
  { unfold Strtod.hexadecimal.
    destruct ds as [| x ds'].
    - destruct rest as [| c r]; [reflexivity |]. cbn [app].
      destruct (ends_facts c Hrest) as (_ & _ & _ & ->).
      rewrite andb_false_r. reflexivity.
    - cbn [app]. cbn [forallb] in Hds. apply andb_true_iff in Hds as [Hx _].
      destruct (digit_facts x Hx) as (_ & _ & _ & Hxx & _).
      rewrite Hxx, andb_false_r. reflexivity. }
  unfold Strtod.subject. rewrite Hhex.
  unfold Strtod.decimal, Strtod.significand.
  change (d :: ds ++ rest) with ((d :: ds) ++ rest). rewrite Hspan.
  assert (match rest with
          | c :: l2 => if Char.eqb c "." then (fst (Strtod.span Char.isdigit l2), 1%nat)
                       else ([], 0%nat)
          | [] => ([], 0%nat)
          end = ([], 0%nat)) as ->.
  { destruct rest as [| c r]; [reflexivity |].
    destruct (ends_facts c Hrest) as (_ & -> & _). reflexivity. }
  rewrite app_nil_r. cbn [length Nat.add].
  rewrite Nat.add_0_r, Nat.add_0_r.
  change (S (length ds)) with (length (d :: ds)). rewrite drop_app_length.
  assert (Strtod.exponent "e" rest = (0, 0%nat)) as ->.
  { destruct rest as [| c r]; [reflexivity |]. unfold Strtod.exponent.
    destruct (ends_facts c Hrest) as (_ & _ & -> & _). reflexivity. }
  rewrite Nat.add_0_r. reflexivity.
Qed.

Lemma strtod_unsigned_value ds rest :
  unsigned_integer ds = true -> ends_value rest = true ->
  Strtod.strtod (ds ++ rest) = (fst (Strtod.strtod ds), length ds).
Proof.
  intros Hu Hrest.
  pose proof (strtod_unsigned_exact ds [] Hu eq_refl) as H0. rewrite app_nil_r in H0.
  rewrite H0. apply strtod_unsigned_exact; assumption.
Qed.

Lemma parse_number_unsigned_value raw dp p ds rest :
  (p <= length raw)%nat -> drop p raw = ds ++ rest ->
  unsigned_integer ds = true -> ends_value rest = true ->
  parse_number (mkBuffer raw dp p)
  = (Ok (fst (Strtod.strtod ds)), mkBuffer raw dp (p + length ds)).
Proof.
  intros Hp Hd Hu Hrest. unfold parse_number, raw_size. cbn [pos raw_json].
  destruct (Nat.leb_spec p (length raw)) as [_ | Hgt]; [| lia].
  rewrite Hd, (strtod_unsigned_value ds rest Hu Hrest).
  apply andb_true_iff in Hu as [Hne _].
  apply negb_true_iff in Hne. rewrite Hne. reflexivity.
Qed.

Ltac eval_chars :=
  repeat match goal with
    | |- context [Char.eqb ?a ?b] =>
        let v := eval vm_compute in (Char.eqb a b) in
        change (Char.eqb a b) with v
    | |- context [Char.isdigit ?a] =>
        let v := eval vm_compute in (Char.isdigit a) in
        change (Char.isdigit a) with v
    end;
  cbv beta iota;
  cbn [orb andb negb].

Ltac enter_dispatch raw dp p H :=
  unfold dispatch;
  rewrite (bind_ok get_buf _ _ _ _ eq_refl);
  cbn [buf];
  rewrite !(fun x => looking_at_head raw dp p _ _ x H),
    ?(starts_number_head raw dp p _ _ H).

Ltac finish_built :=
  unfold advance, set_buf, set_pos;
  cbn [buf heap brk raw_json depth pos];
  eexists; split; [reflexivity |];
  split; [ rewrite lookup_insert_eq; reflexivity
         | intros a Ha; rewrite ?lookup_insert_ne by congruence; reflexivity ].

(** The dispatcher on a scalar writes its kind and value into the fresh
    node and touches no other node. *)
Lemma scalar_built pa po (d : doc) raw dp p (h : gmap ptr JSONItem) k1 item rest :
  well_formed d = true -> nesting d = 0 -> cost d = 1%nat ->
  (p <= length raw)%nat -> drop p raw = text d ++ rest -> ends_value rest = true ->
  exists h',
    dispatch pa po item (mkWorld (mkBuffer raw dp p) (<[item := zero_item]> h) k1)
    = (Ok tt, mkWorld (mkBuffer raw dp (p + length (text d))) h' k1) /\
    h' !! item = Some (node_of d item [] None None) /\
    (forall a, a <> item -> h' !! a = h !! a).
Proof.
  intros Hwf Hn Hc Hp H Hrest.
  pose proof (lookup_insert_eq h item zero_item) as Hit.
  destruct d as [| [] | s | ds | es | ms]; try discriminate Hc.
  - cbn in H. enter_dispatch raw dp p H. eval_chars.
    rewrite (can_read_prefix raw dp p 4 _ H) by (cbn [length]; lia).
    rewrite (Run.compare_at_eq raw dp p _ _ _ H) by reflexivity. cbn [andb].
    rewrite (bind_ok _ _ _ _ _ (update_live item _ _ _ _ _ Hit)).
    finish_built.
  - cbn in H. enter_dispatch raw dp p H. eval_chars.
    rewrite (Run.compare_at_ne raw dp p 4 "null" _ H) by discriminate.
    rewrite andb_false_r.
    rewrite (can_read_prefix raw dp p 1 _ H) by (cbn [length]; lia).
    rewrite (Run.compare_at_eq raw dp p _ _ _ H) by reflexivity. cbn [andb].
    rewrite (bind_ok _ _ _ _ _ (update_live item _ _ _ _ _ Hit)).
    rewrite (bind_ok _ _ _ _ _ (update_live item _ _ _ _ _ (lookup_insert_eq _ _ _))).
    finish_built.
  - cbn in H. enter_dispatch raw dp p H. eval_chars.
    rewrite (Run.compare_at_ne raw dp p 4 "null" _ H) by discriminate.
    rewrite andb_false_r.
    rewrite (can_read_prefix raw dp p 1 _ H) by (cbn [length]; lia).
    rewrite (Run.compare_at_ne raw dp p 4 "true" _ H) by discriminate.
    rewrite (Run.compare_at_eq raw dp p _ _ _ H) by reflexivity. cbn [andb].
    rewrite (bind_ok _ _ _ _ _ (update_live item _ _ _ _ _ Hit)).
    rewrite (bind_ok _ _ _ _ _ (update_live item _ _ _ _ _ (lookup_insert_eq _ _ _))).
    finish_built.
  - cbn [well_formed] in Hwf. cbn [text app] in H.
    enter_dispatch raw dp p H. eval_chars.
    rewrite (bind_ok _ _ _ _ _ (update_live item _ _ _ _ _ Hit)).
    rewrite (bind_ok (advance 1) _ _ tt
               (mkWorld (mkBuffer raw dp (p + 1))
                  (<[item := with_type j_string zero_item]> (<[item := zero_item]> h)) k1))
      by reflexivity.
    assert (drop (p + 1) raw = s ++ Char.quote :: rest) as Hd.
    { apply (drop_app_advance raw p [Char.quote]). rewrite H, <- app_assoc. reflexivity. }
    assert (p + 1 <= length raw)%nat as Hp1.
    { apply (drop_app_bound raw p [Char.quote] _ Hp H). }
    rewrite (bind_ok _ _ _ _ _
               (on_buffer_eq _ _ _ _ _ _ (parse_string_plain raw dp (p + 1) s rest Hp1 Hd Hwf))).
    rewrite (update_live item _ _ _ _ _ (lookup_insert_eq _ _ _)).
    cbn [text length]. rewrite length_app. cbn [length].
    replace (p + S (length s + 1))%nat with (p + 1 + length s + 1)%nat by lia.
    finish_built.
  - cbn [well_formed] in Hwf. cbn [text] in H.
    pose proof (parse_number_unsigned_value raw dp p ds rest Hp H Hwf Hrest) as Hv.
    pose proof Hwf as Hu'. apply andb_true_iff in Hu' as [Hne Hds].
    destruct ds as [| d ds']; [discriminate Hne |].
    cbn [forallb] in Hds. apply andb_true_iff in Hds as [Hd _].
    destruct (digit_facts d Hd) as (_ & _ & _ & _ & Hq & _).
    cbn [app] in H.
    unfold dispatch. rewrite (bind_ok get_buf _ _ _ _ eq_refl). cbn [buf].
    rewrite !(fun x => looking_at_head raw dp p _ _ x H),
      ?(starts_number_head raw dp p _ _ H).
    rewrite Hq, Hd, !orb_true_r. cbv beta iota.
    rewrite (bind_ok _ _ _ _ _ (update_live item _ _ _ _ _ Hit)).
    rewrite (bind_ok _ _ _ _ _ (on_buffer_eq _ _ _ _ _ _ Hv)).
    rewrite (update_live item _ _ _ _ _ (lookup_insert_eq _ _ _)).
    cbn [text].
    finish_built.
  - cbn [cost] in Hc. destruct es; discriminate Hc.
  - cbn [cost] in Hc. destruct ms; discriminate Hc.
Qed.

(** *** The representation predicate *)

Lemma rep_unfold h k d nm pv nx :
  rep h k d nm pv nx <->
  h !! k = Some (node_of d k nm pv nx) /\
  match d with
  | Arr es => rep_elems h (Pos.succ k) es None
  | Obj ms => rep_members h (Pos.succ k) ms None
  | _ => True
  end.
Proof. destruct d; reflexivity. Qed.

Lemma rep_root h k d nm pv nx :
  rep h k d nm pv nx -> h !! k = Some (node_of d k nm pv nx).
Proof. intros H. apply rep_unfold in H. apply H. Qed.

(** Only the nodes of a value matter, and the name and the sibling links
    of its root can be rewritten. *)
Lemma rep_change :
  (forall d h h' k nm pv nx nm' pv' nx',
      rep h k d nm pv nx ->
      h' !! k = Some (node_of d k nm' pv' nx') ->
      (forall a, (k < a < k + nodes d)%positive -> h' !! a = h !! a) ->
      rep h' k d nm' pv' nx') /\
  (forall es h h' k pv,
      rep_elems h k es pv ->
      (forall a, (k <= a < k + elems_nodes es)%positive -> h' !! a = h !! a) ->
      rep_elems h' k es pv) /\
  (forall ms h h' k pv,
      rep_members h k ms pv ->
      (forall a, (k <= a < k + members_nodes ms)%positive -> h' !! a = h !! a) ->
      rep_members h' k ms pv).
Proof.
  apply doc_mutind.
  - intros h h' k nm pv nx nm' pv' nx' _ Hk _. split; [exact Hk | exact I].
  - intros b h h' k nm pv nx nm' pv' nx' _ Hk _. split; [exact Hk | exact I].
  - intros s h h' k nm pv nx nm' pv' nx' _ Hk _. split; [exact Hk | exact I].
  - intros ds h h' k nm pv nx nm' pv' nx' _ Hk _. split; [exact Hk | exact I].
  - intros es IH h h' k nm pv nx nm' pv' nx' [_ Hes] Hk Hfr. split; [exact Hk |].
    apply (IH h); [exact Hes |]. intros a Ha. apply Hfr. cbn [nodes]. lia.
  - intros ms IH h h' k nm pv nx nm' pv' nx' [_ Hms] Hk Hfr. split; [exact Hk |].
    apply (IH h); [exact Hms |]. intros a Ha. apply Hfr. cbn [nodes]. lia.
  - intros d IH h h' k pv Hd Hfr. cbn [rep_elems elems_nodes] in *.
    apply (IH h h' k [] pv None [] pv None Hd).
    + rewrite Hfr by lia. apply (rep_root _ _ _ _ _ _ Hd).
    + intros a Ha. apply Hfr. lia.
  - intros d IH es IHes h h' k pv [Hd Hes] Hfr. cbn [rep_elems elems_nodes] in *. split.
    + apply (IH h h' k [] pv _ [] pv _ Hd).
      * rewrite Hfr by lia. apply (rep_root _ _ _ _ _ _ Hd).
      * intros a Ha. apply Hfr. lia.
    + apply (IHes h); [exact Hes |]. intros a Ha. apply Hfr. lia.
  - intros nm d IH h h' k pv Hd Hfr. cbn [rep_members members_nodes] in *.
    apply (IH h h' k nm pv None nm pv None Hd).
    + rewrite Hfr by lia. apply (rep_root _ _ _ _ _ _ Hd).
    + intros a Ha. apply Hfr. lia.
  - intros nm d IH ms IHms h h' k pv [Hd Hms] Hfr. cbn [rep_members members_nodes] in *.
    split.
    + apply (IH h h' k nm pv _ nm pv _ Hd).
      * rewrite Hfr by lia. apply (rep_root _ _ _ _ _ _ Hd).
      * intros a Ha. apply Hfr. lia.
    + apply (IHms h); [exact Hms |]. intros a Ha. apply Hfr. lia.
Qed.

Lemma rep_frame h h' k d nm pv nx :
  rep h k d nm pv nx ->
  (forall a, (k <= a < k + nodes d)%positive -> h' !! a = h !! a) ->
  rep h' k d nm pv nx.
Proof.
  intros Hr Hfr. apply (proj1 rep_change d h h' k nm pv nx nm pv nx Hr).
  - rewrite Hfr by lia. apply (rep_root _ _ _ _ _ _ Hr).
  - intros a Ha. apply Hfr. lia.
Qed.

(** *** Linking, exactly *)

Lemma link_built pj head current w b' (h1 : gmap ptr JSONItem) k1 k d :
  pj w = (Ok k, mkWorld b' h1 k1) ->
  h1 !! k = Some (node_of d k [] None None) ->
  attached h1 k head current ->
  exists h2,
    link pj head current w = (Ok (Some (first_of head k), Some k), mkWorld b' h2 k1) /\
    h2 !! k = Some (node_of d k [] current None) /\
    (forall c, current = Some c -> h2 !! c = with_next (Some k) <$> h1 !! c) /\
    (forall a, a <> k -> current <> Some a -> h2 !! a = h1 !! a).
Proof.
  intros Hpj Hk Hatt. unfold link. destruct current as [c |]; cbn [attached] in Hatt.
  - destruct Hatt as (Hc & [hd ->] & [itc Hitc]).
    rewrite (bind_ok _ _ _ _ _ Hpj).
    rewrite (bind_ok _ _ _ _ _ (update_live c _ _ _ _ _ Hitc)).
    assert (<[c := with_next (Some k) itc]> h1 !! k = Some (node_of d k [] None None)) as Hk'.
    { rewrite lookup_insert_ne by lia. exact Hk. }
    rewrite (bind_ok _ _ _ _ _ (update_live k _ _ _ _ _ Hk')).
    eexists. split; [reflexivity |]. split; [| split].
    + rewrite lookup_insert_eq. reflexivity.
    + intros c' [= <-]. rewrite lookup_insert_ne by lia.
      rewrite lookup_insert_eq, Hitc. reflexivity.
    + intros a Ha Hac. rewrite !lookup_insert_ne by congruence. reflexivity.
  - subst head. rewrite (bind_ok _ _ _ _ _ Hpj).
    exists h1. split; [reflexivity |]. split; [exact Hk |]. split.
    + intros c [=].
    + reflexivity.
Qed.

Section Building.

Variable NESTING_LIMIT : Z.
Hypothesis limit_range : 0 <= NESTING_LIMIT < 2 ^ 32 - 1.

Lemma scalar_dispatch_builds d :
  well_formed d = true -> nesting d = 0 -> cost d = 1%nat -> nodes d = 1%positive ->
  dispatch_builds NESTING_LIMIT d.
Proof.
  intros Hwf Hn Hc Hnode f raw dp p h k rest Hfuel Hp Hd Hrest Hdp Hok.
  destruct (scalar_built
              (parse_array_body NESTING_LIMIT (parse_array_loop NESTING_LIMIT f))
              (parse_object_body NESTING_LIMIT (parse_object_loop NESTING_LIMIT f))
              d raw dp p h (Pos.succ k) k rest Hwf Hn Hc Hp Hd Hrest)
    as (h' & Hrun & Hnode' & Hframe).
  exists h'. rewrite Hnode. replace (k + 1)%positive with (Pos.succ k) by lia.
  split; [exact Hrun | split].
  - apply rep_unfold. split; [exact Hnode' |].
    destruct d; try exact I; discriminate Hnode || (cbn in Hnode; lia).
  - intros a Ha. apply Hframe. lia.
Qed.

Lemma array_dispatch_builds es :
  elems_well_formed es = true -> elems_build NESTING_LIMIT es ->
  dispatch_builds NESTING_LIMIT (Arr es).
Proof.
  intros Hwf IH f raw dp p h k rest Hfuel Hp Hd Hrest Hdp Hok.
  cbn [cost] in Hfuel.
  set (pa := parse_array_body NESTING_LIMIT (parse_array_loop NESTING_LIMIT f)).
  set (po := parse_object_body NESTING_LIMIT (parse_object_loop NESTING_LIMIT f)).
  cbn [text app] in Hd.
  pose proof (Run.dispatch_array pa po raw dp p (<[k := zero_item]> h) (Pos.succ k) k
                zero_item _ Hd (lookup_insert_eq _ _ _)) as Hdisp.
  set (h2 := <[k := with_type j_array zero_item]> (<[k := zero_item]> h)) in Hdisp.
  assert (h2 !! k = Some (with_type j_array zero_item)) as Hk2
    by apply lookup_insert_eq.
  assert (forall a, a <> k -> h2 !! a = h !! a) as Hfr2.
  { intros a Ha. unfold h2. rewrite !lookup_insert_ne by congruence. reflexivity. }
  destruct (Run.elems_text_head es Hwf) as (c & l & Hc & Hsp & Hcl).
  assert (drop (p + 1) raw = elems_text es ++ "]"%char :: rest) as Hd1.
  { apply (drop_app_advance raw p ["["%char]). rewrite Hd, <- app_assoc. reflexivity. }
  assert (p + 1 <= length raw)%nat as Hp1
    by apply (drop_app_bound raw p ["["%char] _ Hp Hd).
  pose proof (proj1 (proj2 Run.nesting_nonneg) es) as Hnn.
  cbn [nesting] in Hok.
  destruct (IH f raw (dp + 1) (p + 1)%nat h2 (Pos.succ k) rest None None
              ltac:(lia) Hp1 Hd1 ltac:(lia) ltac:(lia) eq_refl)
    as (h3 & Hloop & Hrep & _ & Hfr3).
  cbn [first_of] in Hloop.
  assert (pa (mkWorld (mkBuffer raw dp (p + 1)) h2 (Pos.succ k))
          = (Ok (Some (Pos.succ k)),
             mkWorld (mkBuffer raw dp (p + 1 + length (elems_text es) + 1)) h3
               (Pos.succ k + elems_nodes es))) as Hpa.
  { unfold pa.
    rewrite (Run.array_body_enter NESTING_LIMIT limit_range _ raw dp (p + 1)%nat h2
               (Pos.succ k) c (l ++ "]"%char :: rest) ltac:(lia) ltac:(lia) Hp1
               ltac:(rewrite Hd1, Hc; reflexivity) Hsp Hcl).
    rewrite (bind_ok _ _ _ _ _ Hloop).
    apply (Run.close_container NESTING_LIMIT limit_range "]" _ raw dp _ h3 _ rest ltac:(lia)).
    apply (drop_app_advance raw (p + 1) _ _ Hd1). }
  assert (h3 !! k = Some (with_type j_array zero_item)) as Hk3.
  { rewrite Hfr3 by (lia || discriminate). exact Hk2. }
  exists (<[k := with_child (Some (Pos.succ k)) (with_type j_array zero_item)]> h3).
  split; [| split].
  - cbn [nodes]. replace (k + Pos.succ (elems_nodes es))%positive
      with (Pos.succ k + elems_nodes es)%positive by lia.
    rewrite Hdisp, (bind_ok _ _ _ _ _ Hpa).
    rewrite (update_live k _ _ _ _ _ Hk3).
    cbn [text length]. rewrite length_app. cbn [length].
    replace (p + S (length (elems_text es) + 1))%nat
      with (p + 1 + length (elems_text es) + 1)%nat by lia.
    reflexivity.
  - split; [apply lookup_insert_eq |].
    apply (proj1 (proj2 rep_change) es h3); [exact Hrep |].
    intros a Ha. apply lookup_insert_ne. lia.
  - intros a Ha. cbn [nodes] in Ha. rewrite lookup_insert_ne by lia.
    rewrite Hfr3 by (lia || discriminate). apply Hfr2. lia.
Qed.

Lemma object_dispatch_builds ms :
  members_well_formed ms = true -> members_build NESTING_LIMIT ms ->
  dispatch_builds NESTING_LIMIT (Obj ms).
Proof.
  intros Hwf IH f raw dp p h k rest Hfuel Hp Hd Hrest Hdp Hok.
  cbn [cost] in Hfuel.
  set (pa := parse_array_body NESTING_LIMIT (parse_array_loop NESTING_LIMIT f)).
  set (po := parse_object_body NESTING_LIMIT (parse_object_loop NESTING_LIMIT f)).
  cbn [text app] in Hd.
  pose proof (Run.dispatch_object pa po raw dp p (<[k := zero_item]> h) (Pos.succ k) k
                zero_item _ Hd (lookup_insert_eq _ _ _)) as Hdisp.
  set (h2 := <[k := with_type j_object zero_item]> (<[k := zero_item]> h)) in Hdisp.
  assert (h2 !! k = Some (with_type j_object zero_item)) as Hk2
    by apply lookup_insert_eq.
  assert (forall a, a <> k -> h2 !! a = h !! a) as Hfr2.
  { intros a Ha. unfold h2. rewrite !lookup_insert_ne by congruence. reflexivity. }
  destruct (Run.members_text_head ms) as (l & Hc).
  set (c := Char.quote) in Hc.
  assert (Char.isspace c = false) as Hsp by reflexivity.
  assert (Char.eqb c "}" = false) as Hcl by reflexivity.
  assert (drop (p + 1) raw = members_text ms ++ "}"%char :: rest) as Hd1.
  { apply (drop_app_advance raw p ["{"%char]). rewrite Hd, <- app_assoc. reflexivity. }
  assert (p + 1 <= length raw)%nat as Hp1
    by apply (drop_app_bound raw p ["{"%char] _ Hp Hd).
  pose proof (proj2 (proj2 Run.nesting_nonneg) ms) as Hnn.
  cbn [nesting] in Hok.
  destruct (IH f raw (dp + 1) (p + 1)%nat h2 (Pos.succ k) rest None None
              ltac:(lia) Hp1 Hd1 ltac:(lia) ltac:(lia) eq_refl)
    as (h3 & Hloop & Hrep & _ & Hfr3).
  cbn [first_of] in Hloop.
  assert (po (mkWorld (mkBuffer raw dp (p + 1)) h2 (Pos.succ k))
          = (Ok (Some (Pos.succ k)),
             mkWorld (mkBuffer raw dp (p + 1 + length (members_text ms) + 1)) h3
               (Pos.succ k + members_nodes ms))) as Hpo.
  { unfold po.
    rewrite (Run.object_body_enter NESTING_LIMIT limit_range _ raw dp (p + 1)%nat h2
               (Pos.succ k) c (l ++ "}"%char :: rest) ltac:(lia) ltac:(lia) Hp1
               ltac:(rewrite Hd1, Hc; reflexivity) Hsp Hcl).
    rewrite (bind_ok _ _ _ _ _ Hloop).
    apply (Run.close_container NESTING_LIMIT limit_range "}" _ raw dp _ h3 _ rest ltac:(lia)).
    apply (drop_app_advance raw (p + 1) _ _ Hd1). }
  assert (h3 !! k = Some (with_type j_object zero_item)) as Hk3.
  { rewrite Hfr3 by (lia || discriminate). exact Hk2. }
  exists (<[k := with_child (Some (Pos.succ k)) (with_type j_object zero_item)]> h3).
  split; [| split].
  - cbn [nodes]. replace (k + Pos.succ (members_nodes ms))%positive
      with (Pos.succ k + members_nodes ms)%positive by lia.
    rewrite Hdisp, (bind_ok _ _ _ _ _ Hpo).
    rewrite (update_live k _ _ _ _ _ Hk3).
    cbn [text length]. rewrite length_app. cbn [length].
    replace (p + S (length (members_text ms) + 1))%nat
      with (p + 1 + length (members_text ms) + 1)%nat by lia.
    reflexivity.
  - split; [apply lookup_insert_eq |].
    apply (proj2 (proj2 rep_change) ms h3); [exact Hrep |].
    intros a Ha. apply lookup_insert_ne. lia.
  - intros a Ha. cbn [nodes] in Ha. rewrite lookup_insert_ne by lia.
    rewrite Hfr3 by (lia || discriminate). apply Hfr2. lia.
Qed.

(** Inside a text of the grammar the value is followed by a delimiter, so
    [parse_json] skips nothing and returns the node of its dispatcher. *)
Lemma built_of_dispatch d :
  well_formed d = true -> dispatch_builds NESTING_LIMIT d -> json_builds NESTING_LIMIT d.
Proof.
  intros Hwf Hdisp fuel raw dp p h k rest Hfuel Hp Hd Hrest Hdp Htop Hok.
  destruct fuel as [| f]; [destruct d; cbn [cost] in Hfuel; lia |].
  rewrite Run.parse_json_unfold.
  destruct (Run.text_head d Hwf) as (c & l & Hc' & Hsp & _).
  destruct (Run.after_value raw p (text d) rest dp Hp Hd Hrest Htop) as (Hp' & Hs' & Hend).
  destruct (Hdisp f raw dp p h k rest Hfuel Hp Hd (delimited_ends _ Hrest) Hdp Hok)
    as (h' & Hrun & Hrep & Hframe).
  exists h'. split; [| split; assumption].
  apply Run.body_ok; try assumption.
  rewrite Hd, Hc'. exact Hsp.
Qed.

Lemma scalar_builds d :
  well_formed d = true -> nesting d = 0 -> cost d = 1%nat -> nodes d = 1%positive ->
  json_builds NESTING_LIMIT d.
Proof.
  intros Hwf Hn Hc Hnode.
  apply built_of_dispatch, scalar_dispatch_builds; assumption.
Qed.

Lemma array_builds es :
  elems_well_formed es = true -> elems_build NESTING_LIMIT es ->
  json_builds NESTING_LIMIT (Arr es).
Proof.
  intros Hwf IH. apply built_of_dispatch; [exact Hwf |].
  apply array_dispatch_builds; assumption.
Qed.

Lemma object_builds ms :
  members_well_formed ms = true -> members_build NESTING_LIMIT ms ->
  json_builds NESTING_LIMIT (Obj ms).
Proof.
  intros Hwf IH. apply built_of_dispatch; [exact Hwf |].
  apply object_dispatch_builds; assumption.
Qed.

Lemma attached_frame (h h1 : gmap ptr JSONItem) k head current :
  attached h k head current ->
  (forall a, (a < k)%positive -> h1 !! a = h !! a) ->
  attached h1 k head current.
Proof.
  destruct current as [c |]; cbn [attached]; [| tauto].
  intros (Hc & Hh & Hl) Hfr. rewrite (Hfr c Hc). auto.
Qed.

Lemma elems_last_builds d :
  well_formed d = true -> json_builds NESTING_LIMIT d ->
  elems_build NESTING_LIMIT (Last d).
Proof.
  intros Hwf IH fuel raw dp p h k rest head current Hfuel Hp Hd Hdp Hok Hatt.
  destruct fuel as [| f]; [cbn [elems_cost] in Hfuel; lia |].
  cbn [elems_cost elems_text elems_nesting elems_nodes rep_elems] in *.
  rewrite Run.parse_array_loop_unfold.
  destruct (Run.text_head d Hwf) as (c & l & Hc & Hsp & Hcl & _).
  rewrite (Run.array_round_enter _ _ head current raw dp p h k c (l ++ "]"%char :: rest) Hp
             ltac:(rewrite Hd, Hc; reflexivity) Hsp Hcl).
  destruct (IH f raw dp p h k ("]"%char :: rest) ltac:(lia) Hp Hd
              ltac:(right; left; reflexivity) ltac:(lia) ltac:(lia) Hok)
    as (h1 & Hrun & Hrep & Hfr).
  pose proof (drop_app_advance raw p _ _ Hd) as Hd'.
  pose proof (drop_app_bound raw p _ _ Hp Hd) as Hp'.
  destruct (link_built _ head current _ _ h1 _ k d Hrun (rep_root _ _ _ _ _ _ Hrep)
              (attached_frame _ _ _ _ _ Hatt (fun a Ha => Hfr a (or_introl Ha))))
    as (h2 & Hlink & Hk2 & Hc2 & Hfr2).
  exists h2. split; [| split; [| split]].
  - rewrite (bind_ok _ _ _ _ _ Hlink).
    apply (Run.after_element_close _ (Some (first_of head k), Some k) raw dp _ h2 _ rest Hp' Hd').
  - apply (proj1 rep_change d h1 h2 k [] None None [] current None Hrep Hk2).
    intros a Ha. apply Hfr2; [lia |].
    destruct current as [c0 |]; [| discriminate]. destruct Hatt as [Hlt _].
    intros [= ->]. lia.
  - intros c0 Hc0. rewrite (Hc2 c0 Hc0). subst current. destruct Hatt as [Hlt _].
    rewrite (Hfr c0 (or_introl Hlt)). reflexivity.
  - intros a Ha Hne. rewrite Hfr2 by (lia || exact Hne). apply Hfr. exact Ha.
Qed.

Lemma elems_more_builds d es :
  well_formed d = true -> json_builds NESTING_LIMIT d -> elems_build NESTING_LIMIT es ->
  elems_build NESTING_LIMIT (More d es).
Proof.
  intros Hwf IH IHes fuel raw dp p h k rest head current Hfuel Hp Hd Hdp Hok Hatt.
  destruct fuel as [| f]; [cbn [elems_cost] in Hfuel; lia |].
  cbn [elems_cost elems_text elems_nesting elems_nodes rep_elems] in *.
  rewrite <- app_assoc in Hd. cbn [app] in Hd.
  rewrite Run.parse_array_loop_unfold.
  destruct (Run.text_head d Hwf) as (c & l & Hc & Hsp & Hcl & _).
  rewrite (Run.array_round_enter _ _ head current raw dp p h k c
             (l ++ ","%char :: elems_text es ++ "]"%char :: rest) Hp
             ltac:(rewrite Hd, Hc; reflexivity) Hsp Hcl).
  destruct (IH f raw dp p h k (","%char :: elems_text es ++ "]"%char :: rest)
              ltac:(lia) Hp Hd ltac:(left; reflexivity) ltac:(lia) ltac:(lia) ltac:(lia))
    as (h1 & Hrun & Hrep & Hfr).
  pose proof (drop_app_advance raw p _ _ Hd) as Hd'.
  pose proof (drop_app_bound raw p _ _ Hp Hd) as Hp'.
  destruct (link_built _ head current _ _ h1 _ k d Hrun (rep_root _ _ _ _ _ _ Hrep)
              (attached_frame _ _ _ _ _ Hatt (fun a Ha => Hfr a (or_introl Ha))))
    as (h2 & Hlink & Hk2 & Hc2 & Hfr2).
  rewrite (bind_ok _ _ _ _ _ Hlink).
  rewrite (Run.after_element_comma _ (Some (first_of head k), Some k) raw dp _ h2 _ _ Hp' Hd').
  cbn [fst snd].
  pose proof (drop_app_advance raw _ [","%char] _ Hd') as Hd2.
  pose proof (drop_app_bound raw _ [","%char] _ Hp' Hd') as Hp2.
  cbn [length] in Hd2, Hp2.
  destruct (IHes f raw dp (p + length (text d) + 1)%nat h2 (k + nodes d)%positive rest
              (Some (first_of head k)) (Some k) ltac:(lia) Hp2 Hd2 Hdp ltac:(lia))
    as (h3 & Hloop & Hrep3 & Hc3 & Hfr3).
  { cbn [attached]. split; [lia |]. split; [eexists; reflexivity |].
    rewrite Hk2. eexists; reflexivity. }
  assert (forall c0, current = Some c0 -> (c0 < k)%positive) as Hcur.
  { intros c0 ->. apply Hatt. }
  exists h3. split; [| split; [| split]].
  - rewrite Hloop. cbn [first_of]. rewrite length_app. cbn [length].
    replace (p + (length (text d) + S (length (elems_text es))))%nat
      with (p + length (text d) + 1 + length (elems_text es))%nat by lia.
    rewrite Pos.add_assoc. reflexivity.
  - split; [| exact Hrep3].
    apply (proj1 rep_change d h1 h3 k [] None None [] current (Some (k + nodes d)%positive) Hrep).
    + rewrite (Hc3 k eq_refl), Hk2. reflexivity.
    + intros a Ha. rewrite Hfr3 by (lia || (intros [= ->]; lia)).
      apply Hfr2; [lia |]. intros Heq. apply Hcur in Heq. lia.
  - intros c0 Hc0. pose proof (Hcur c0 Hc0) as Hlt.
    rewrite Hfr3 by (lia || (intros [= ->]; lia)).
    rewrite (Hc2 c0 Hc0). rewrite (Hfr c0 (or_introl Hlt)). reflexivity.
  - intros a Ha Hne. rewrite Hfr3 by (lia || (intros [= ->]; lia)).
    rewrite Hfr2 by (lia || exact Hne). apply Hfr. lia.
Qed.

Lemma members_last_builds nm d :
  plain_string nm = true -> well_formed d = true -> json_builds NESTING_LIMIT d ->
  members_build NESTING_LIMIT (LastMember nm d).
Proof.
  intros Hnm Hwf IH fuel raw dp p h k rest head current Hfuel Hp Hd Hdp Hok Hatt.
  destruct fuel as [| f]; [cbn [members_cost] in Hfuel; lia |].
  cbn [members_cost members_text members_nesting members_nodes rep_members] in *.
  cbn [app] in Hd. rewrite <- app_assoc in Hd. cbn [app] in Hd.
  rewrite Run.parse_object_loop_unfold.
  destruct (Run.text_head d Hwf) as (c & l & Hc & Hsp & _ & Hcl).
  rewrite (Run.object_round_enter _ _ head current raw dp p h k nm c
             (l ++ "}"%char :: rest) Hp ltac:(rewrite Hd, Hc; reflexivity) Hnm Hsp).
  destruct (Run.member_prefix raw p nm _ Hp Hd) as [Hp0 Hd0].
  destruct (IH f raw dp (p + length nm + 3)%nat h k ("}"%char :: rest)
              ltac:(lia) Hp0 Hd0 ltac:(right; right; reflexivity)
              ltac:(lia) ltac:(lia) Hok)
    as (h1 & Hrun & Hrep & Hfr).
  pose proof (drop_app_advance raw _ _ _ Hd0) as Hd'.
  pose proof (drop_app_bound raw _ _ _ Hp0 Hd0) as Hp'.
  destruct (link_built _ head current _ _ h1 _ k d Hrun (rep_root _ _ _ _ _ _ Hrep)
              (attached_frame _ _ _ _ _ Hatt (fun a Ha => Hfr a (or_introl Ha))))
    as (h2 & Hlink & Hk2 & Hc2 & Hfr2).
  assert (forall c0, current = Some c0 -> (c0 < k)%positive) as Hcur.
  { intros c0 ->. apply Hatt. }
  exists (<[k := with_name nm (node_of d k [] current None)]> h2).
  split; [| split; [| split]].
  - rewrite (bind_ok _ _ _ _ _ Hlink). cbn [snd].
    rewrite (bind_ok _ _ _ _ _ (update_live k _ _ _ _ _ Hk2)).
    rewrite (Run.after_member_close _ (Some (first_of head k), Some k) raw dp _ _ _ rest Hp' Hd').
    cbn [fst]. rewrite length_cons, length_app. cbn [length].
    replace (p + S (length nm + S (S (length (text d)))))%nat
      with (p + length nm + 3 + length (text d))%nat by lia.
    reflexivity.
  - apply (proj1 rep_change d h1 _ k [] None None nm current None Hrep).
    + apply lookup_insert_eq.
    + intros a Ha. rewrite lookup_insert_ne by lia. apply Hfr2; [lia |].
      intros Heq. apply Hcur in Heq. lia.
  - intros c0 Hc0. pose proof (Hcur c0 Hc0) as Hlt.
    rewrite lookup_insert_ne by lia.
    rewrite (Hc2 c0 Hc0). rewrite (Hfr c0 (or_introl Hlt)). reflexivity.
  - intros a Ha Hne. rewrite lookup_insert_ne by lia.
    rewrite Hfr2 by (lia || exact Hne). apply Hfr. exact Ha.
Qed.

Lemma members_more_builds nm d ms :
  plain_string nm = true -> well_formed d = true -> json_builds NESTING_LIMIT d ->
  members_build NESTING_LIMIT ms -> members_build NESTING_LIMIT (MoreMembers nm d ms).
Proof.
  intros Hnm Hwf IH IHms fuel raw dp p h k rest head current Hfuel Hp Hd Hdp Hok Hatt.
  destruct fuel as [| f]; [cbn [members_cost] in Hfuel; lia |].
  cbn [members_cost members_text members_nesting members_nodes rep_members] in *.
  cbn [app] in Hd. rewrite <- app_assoc in Hd. cbn [app] in Hd.
  rewrite <- app_assoc in Hd. cbn [app] in Hd.
  rewrite Run.parse_object_loop_unfold.
  destruct (Run.text_head d Hwf) as (c & l & Hc & Hsp & _ & Hcl).
  rewrite (Run.object_round_enter _ _ head current raw dp p h k nm c
             (l ++ ","%char :: members_text ms ++ "}"%char :: rest) Hp
             ltac:(rewrite Hd, Hc; reflexivity) Hnm Hsp).
  destruct (Run.member_prefix raw p nm _ Hp Hd) as [Hp0 Hd0].
  destruct (IH f raw dp (p + length nm + 3)%nat h k
              (","%char :: members_text ms ++ "}"%char :: rest)
              ltac:(lia) Hp0 Hd0 ltac:(left; reflexivity) ltac:(lia) ltac:(lia) ltac:(lia))
    as (h1 & Hrun & Hrep & Hfr).
  pose proof (drop_app_advance raw _ _ _ Hd0) as Hd'.
  pose proof (drop_app_bound raw _ _ _ Hp0 Hd0) as Hp'.
  destruct (link_built _ head current _ _ h1 _ k d Hrun (rep_root _ _ _ _ _ _ Hrep)
              (attached_frame _ _ _ _ _ Hatt (fun a Ha => Hfr a (or_introl Ha))))
    as (h2 & Hlink & Hk2 & Hc2 & Hfr2).
  assert (forall c0, current = Some c0 -> (c0 < k)%positive) as Hcur.
  { intros c0 ->. apply Hatt. }
  rewrite (bind_ok _ _ _ _ _ Hlink). cbn [snd].
  rewrite (bind_ok _ _ _ _ _ (update_live k _ _ _ _ _ Hk2)).
  rewrite (Run.after_member_comma _ (Some (first_of head k), Some k) raw dp _ _ _ _ Hp' Hd').
  cbn [fst snd].
  pose proof (drop_app_advance raw _ [","%char] _ Hd') as Hd2.
  pose proof (drop_app_bound raw _ [","%char] _ Hp' Hd') as Hp2.
  cbn [length] in Hd2, Hp2.
  set (h2' := <[k := with_name nm (node_of d k [] current None)]> h2) in *.
  destruct (IHms f raw dp (p + length nm + 3 + length (text d) + 1)%nat h2'
              (k + nodes d)%positive rest
              (Some (first_of head k)) (Some k) ltac:(lia) Hp2 Hd2 Hdp ltac:(lia))
    as (h3 & Hloop & Hrep3 & Hc3 & Hfr3).
  { cbn [attached]. split; [lia |]. split; [eexists; reflexivity |].
    unfold h2'. rewrite lookup_insert_eq. eexists; reflexivity. }
  assert ((p + length (Char.quote :: nm ++ Char.quote :: ":"%char ::
                         text d ++ ","%char :: members_text ms))%nat
          = (p + length nm + 3 + length (text d) + 1 + length (members_text ms))%nat)
    as Hlen.
  { rewrite length_cons, length_app. cbn [length]. rewrite length_app. cbn [length]. lia. }
  exists h3. split; [| split; [| split]].
  - rewrite Hloop, Hlen. cbn [first_of]. rewrite Pos.add_assoc. reflexivity.
  - split; [| exact Hrep3].
    apply (proj1 rep_change d h1 h3 k [] None None nm current
             (Some (k + nodes d)%positive) Hrep).
    + rewrite (Hc3 k eq_refl). unfold h2'. rewrite lookup_insert_eq. reflexivity.
    + intros a Ha. rewrite Hfr3 by (lia || (intros [= ->]; lia)).
      unfold h2'. rewrite lookup_insert_ne by lia.
      apply Hfr2; [lia |]. intros Heq. apply Hcur in Heq. lia.
  - intros c0 Hc0. pose proof (Hcur c0 Hc0) as Hlt.
    rewrite Hfr3 by (lia || (intros [= ->]; lia)).
    unfold h2'. rewrite lookup_insert_ne by lia.
    rewrite (Hc2 c0 Hc0). rewrite (Hfr c0 (or_introl Hlt)). reflexivity.
  - intros a Ha Hne. rewrite Hfr3 by (lia || (intros [= ->]; lia)).
    unfold h2'. rewrite lookup_insert_ne by lia.
    rewrite Hfr2 by (lia || exact Hne). apply Hfr. lia.
Qed.

(** [parse_json] builds the tree of every well-formed text within the
    nesting limit. *)
Lemma grammar_builds :
  (forall d, well_formed d = true -> json_builds NESTING_LIMIT d) /\
  (forall es, elems_well_formed es = true -> elems_build NESTING_LIMIT es) /\
  (forall ms, members_well_formed ms = true -> members_build NESTING_LIMIT ms).
Proof.
  apply doc_mutind.
  - intros Hwf. apply scalar_builds; reflexivity.
  - intros b Hwf. apply scalar_builds; reflexivity.
  - intros s Hwf. apply scalar_builds; try reflexivity. exact Hwf.
  - intros ds Hwf. apply scalar_builds; try reflexivity. exact Hwf.
  - intros es IH Hwf. apply array_builds; [exact Hwf | apply IH, Hwf].
  - intros ms IH Hwf. apply object_builds; [exact Hwf | apply IH, Hwf].
  - intros d IH Hwf. apply elems_last_builds; [exact Hwf | apply IH, Hwf].
  - intros d IH es IHes Hwf. cbn [elems_well_formed] in Hwf.
    apply andb_true_iff in Hwf as [Hd Hes]. apply elems_more_builds; auto.
  - intros nm d IH Hwf. cbn [members_well_formed] in Hwf.
    apply andb_true_iff in Hwf as [Hnm Hd]. apply members_last_builds; auto.
  - intros nm d IH ms IHms Hwf. cbn [members_well_formed] in Hwf.
    apply andb_true_iff in Hwf as [Hwf Hms].
    apply andb_true_iff in Hwf as [Hnm Hd]. apply members_more_builds; auto.
Qed.

Lemma dispatch_builds_all d :
  well_formed d = true -> dispatch_builds NESTING_LIMIT d.
Proof.
  destruct grammar_builds as (_ & Hes & Hms).
  destruct d as [| b | s | ds | es | ms]; intros Hwf.
  - apply scalar_dispatch_builds; reflexivity.
  - apply scalar_dispatch_builds; reflexivity.
  - apply scalar_dispatch_builds; try reflexivity. exact Hwf.
  - apply scalar_dispatch_builds; try reflexivity. exact Hwf.
  - apply array_dispatch_builds; [exact Hwf | apply Hes, Hwf].
  - apply object_dispatch_builds; [exact Hwf | apply Hms, Hwf].
Qed.

End Building.

(** *** Tearing a tree down *)

Lemma rep_live :
  (forall d h k nm pv nx,
      rep h k d nm pv nx ->
      forall a, (k <= a < k + nodes d)%positive -> is_Some (h !! a)) /\
  (forall es h k pv,
      rep_elems h k es pv ->
      forall a, (k <= a < k + elems_nodes es)%positive -> is_Some (h !! a)) /\
  (forall ms h k pv,
      rep_members h k ms pv ->
      forall a, (k <= a < k + members_nodes ms)%positive -> is_Some (h !! a)).
Proof.
  apply doc_mutind.
  - intros h k nm pv nx [Hk _] a Ha. cbn [nodes] in Ha.
    assert (a = k) as -> by lia. eexists; exact Hk.
  - intros b h k nm pv nx [Hk _] a Ha. cbn [nodes] in Ha.
    assert (a = k) as -> by lia. eexists; exact Hk.
  - intros s h k nm pv nx [Hk _] a Ha. cbn [nodes] in Ha.
    assert (a = k) as -> by lia. eexists; exact Hk.
  - intros ds h k nm pv nx [Hk _] a Ha. cbn [nodes] in Ha.
    assert (a = k) as -> by lia. eexists; exact Hk.
  - intros es IH h k nm pv nx [Hk Hes] a Ha. cbn [nodes] in Ha.
    destruct (decide (a = k)) as [-> | Hne]; [eexists; exact Hk |].
    apply (IH h (Pos.succ k) None Hes). lia.
  - intros ms IH h k nm pv nx [Hk Hms] a Ha. cbn [nodes] in Ha.
    destruct (decide (a = k)) as [-> | Hne]; [eexists; exact Hk |].
    apply (IH h (Pos.succ k) None Hms). lia.
  - intros d IH h k pv Hd a Ha. exact (IH h k _ _ _ Hd a Ha).
  - intros d IH es IHes h k pv [Hd Hes] a Ha. cbn [elems_nodes] in Ha.
    destruct (decide (a < k + nodes d)%positive) as [Hlt | Hge].
    + apply (IH h k _ _ _ Hd). lia.
    + apply (IHes h _ _ Hes). lia.
  - intros nm d IH h k pv Hd a Ha. exact (IH h k _ _ _ Hd a Ha).
  - intros nm d IH ms IHms h k pv [Hd Hms] a Ha. cbn [members_nodes] in Ha.
    destruct (decide (a < k + nodes d)%positive) as [Hlt | Hge].
    + apply (IH h k _ _ _ Hd). lia.
    + apply (IHms h _ _ Hms). lia.
Qed.

Lemma interval_size (m : nat) :
  forall (k : ptr) (h : gmap ptr JSONItem),
    (forall a, (k <= a)%positive -> (Pos.to_nat a < Pos.to_nat k + m)%nat ->
               is_Some (h !! a)) ->
    (m <= size h)%nat.
Proof.
  induction m as [| m IH]; intros k h Hlive; [lia |].
  assert (is_Some (h !! k)) as Hk by (apply Hlive; lia).
  pose proof (map_size_delete_Some k h Hk) as Hsz.
  assert (m <= size (delete k h))%nat as Hm.
  { apply (IH (Pos.succ k)). intros a Ha Hb.
    rewrite lookup_delete_ne by lia. apply Hlive; lia. }
  assert (size h <> 0%nat) by (apply map_size_ne_0_lookup_2 with k; exact Hk).
  lia.
Qed.

Lemma rep_size h k d nm pv nx :
  rep h k d nm pv nx -> (Pos.to_nat (nodes d) <= size h)%nat.
Proof.
  intros Hr. apply (interval_size _ k). intros a Ha Hb.
  apply (proj1 rep_live d h k nm pv nx Hr). lia.
Qed.

Lemma cleared_trans h h1 h2 lo mid hi :
  (lo <= mid)%positive -> (mid <= hi)%positive ->
  cleared h h1 lo mid -> cleared h1 h2 mid hi -> cleared h h2 lo hi.
Proof.
  intros H1 H2 [Ha Hb] [Hc Hd]. split.
  - intros a Hr. destruct (decide (a < mid)%positive).
    + rewrite Hd by lia. apply Ha. lia.
    + apply Hc. lia.
  - intros a Hr. rewrite Hd by lia. apply Hb. lia.
Qed.

Lemma destroy_round a it b (h : gmap ptr JSONItem) k f :
  h !! a = Some it ->
  destroy_json_rounds (S f) (Some a) (mkWorld b h k)
  = ((match child it with
      | Some c => destroy_json_rounds f (Some c)
      | None => ret tt
      end) ;;
     delete_item a ;;
     destroy_json_rounds f (next it)) (mkWorld b h k).
Proof.
  intros Ha. cbn [destroy_json_rounds].
  rewrite (bind_ok (load (Some a)) _ (mkWorld b h k) it (mkWorld b h k));
    [reflexivity | unfold load; cbn [heap]; rewrite Ha; reflexivity].
Qed.

Lemma delete_live a it b (h : gmap ptr JSONItem) k :
  h !! a = Some it ->
  delete_item a (mkWorld b h k) = (Ok tt, mkWorld b (delete a h) k).
Proof. intros Ha. unfold delete_item. cbn [heap]. rewrite Ha. reflexivity. Qed.

Lemma destroy_built :
  (forall d h k nm pv nx b brk f,
      rep h k d nm pv nx -> (Pos.to_nat (nodes d) <= f)%nat ->
      exists h',
        destroy_json_rounds (S f) (Some k) (mkWorld b h brk)
        = destroy_json_rounds f nx (mkWorld b h' brk) /\
        cleared h h' k (k + nodes d)) /\
  (forall es h k pv b brk f,
      rep_elems h k es pv -> (Pos.to_nat (elems_nodes es) < f)%nat ->
      exists h',
        destroy_json_rounds f (Some k) (mkWorld b h brk) = (Ok tt, mkWorld b h' brk) /\
        cleared h h' k (k + elems_nodes es)) /\
  (forall ms h k pv b brk f,
      rep_members h k ms pv -> (Pos.to_nat (members_nodes ms) < f)%nat ->
      exists h',
        destroy_json_rounds f (Some k) (mkWorld b h brk) = (Ok tt, mkWorld b h' brk) /\
        cleared h h' k (k + members_nodes ms)).
Proof.
  assert (forall d h k nm pv nx b brk f,
             rep h k d nm pv nx -> nodes d = 1%positive ->
             child (node_of d k nm pv nx) = None ->
             exists h',
               destroy_json_rounds (S f) (Some k) (mkWorld b h brk)
               = destroy_json_rounds f nx (mkWorld b h' brk) /\
               cleared h h' k (k + nodes d)) as Hleaf.
  { intros d h k nm pv nx b brk f Hr Hn Hc. pose proof (rep_root _ _ _ _ _ _ Hr) as Hk.
    exists (delete k h). split.
    - rewrite (destroy_round k _ b h brk f Hk). rewrite Hc.
      rewrite (bind_ok (ret tt) _ _ tt _ eq_refl).
      rewrite (bind_ok _ _ _ _ _ (delete_live k _ b h brk Hk)). reflexivity.
    - rewrite Hn. split; intros a Ha.
      + assert (a = k) as -> by lia. apply lookup_delete_eq.
      + apply lookup_delete_ne. lia. }
  apply doc_mutind.
  - intros h k nm pv nx b brk f Hr _. apply (Hleaf Null h k nm pv nx b brk f Hr); reflexivity.
  - intros v h k nm pv nx b brk f Hr _. apply (Hleaf (Bool v) h k nm pv nx b brk f Hr); reflexivity.
  - intros s h k nm pv nx b brk f Hr _. apply (Hleaf (Str s) h k nm pv nx b brk f Hr); reflexivity.
  - intros ds h k nm pv nx b brk f Hr _. apply (Hleaf (Num ds) h k nm pv nx b brk f Hr); reflexivity.
  - intros es IH h k nm pv nx b brk f [Hk Hes] Hf. cbn [nodes] in *.
    destruct (IH h (Pos.succ k) None b brk f Hes ltac:(lia)) as (h1 & Hrun & Hcl).
    assert (h1 !! k = Some (node_of (Arr es) k nm pv nx)) as Hk1.
    { rewrite (proj2 Hcl) by lia. exact Hk. }
    exists (delete k h1). split.
    + rewrite (destroy_round k _ b h brk f Hk). cbn [node_of child next].
      rewrite (bind_ok _ _ _ _ _ Hrun).
      rewrite (bind_ok _ _ _ _ _ (delete_live k _ b h1 brk Hk1)). reflexivity.
    + destruct Hcl as [Ha Hb]. split; intros a Hr.
      * destruct (decide (a = k)) as [-> | Hne]; [apply lookup_delete_eq |].
        rewrite lookup_delete_ne by congruence. apply Ha. lia.
      * rewrite lookup_delete_ne by lia. apply Hb. lia.
  - intros ms IH h k nm pv nx b brk f [Hk Hms] Hf. cbn [nodes] in *.
    destruct (IH h (Pos.succ k) None b brk f Hms ltac:(lia)) as (h1 & Hrun & Hcl).
    assert (h1 !! k = Some (node_of (Obj ms) k nm pv nx)) as Hk1.
    { rewrite (proj2 Hcl) by lia. exact Hk. }
    exists (delete k h1). split.
    + rewrite (destroy_round k _ b h brk f Hk). cbn [node_of child next].
      rewrite (bind_ok _ _ _ _ _ Hrun).
      rewrite (bind_ok _ _ _ _ _ (delete_live k _ b h1 brk Hk1)). reflexivity.
    + destruct Hcl as [Ha Hb]. split; intros a Hr.
      * destruct (decide (a = k)) as [-> | Hne]; [apply lookup_delete_eq |].
        rewrite lookup_delete_ne by congruence. apply Ha. lia.
      * rewrite lookup_delete_ne by lia. apply Hb. lia.
  - intros d IH h k pv b brk f Hd Hf. cbn [rep_elems elems_nodes] in *.
    destruct f as [| f]; [lia |].
    destruct (IH h k [] pv None b brk f Hd ltac:(lia)) as (h1 & Hrun & Hcl).
    exists h1. split; [| exact Hcl]. rewrite Hrun.
    destruct f; [lia | reflexivity].
  - intros d IH es IHes h k pv b brk f [Hd Hes] Hf. cbn [elems_nodes] in *.
    destruct f as [| f]; [lia |].
    destruct (IH h k [] pv _ b brk f Hd ltac:(lia)) as (h1 & Hrun & Hcl).
    assert (rep_elems h1 (k + nodes d) es (Some k)) as Hes1.
    { apply (proj1 (proj2 rep_change) es h); [exact Hes |].
      intros a Ha. apply (proj2 Hcl). lia. }
    destruct (IHes h1 _ _ b brk f Hes1 ltac:(lia)) as (h2 & Hrun2 & Hcl2).
    exists h2. split; [rewrite Hrun; exact Hrun2 |].
    rewrite Pos.add_assoc. apply (cleared_trans h h1 h2 k (k + nodes d)); try lia; assumption.
  - intros nm d IH h k pv b brk f Hd Hf. cbn [rep_members members_nodes] in *.
    destruct f as [| f]; [lia |].
    destruct (IH h k nm pv None b brk f Hd ltac:(lia)) as (h1 & Hrun & Hcl).
    exists h1. split; [| exact Hcl]. rewrite Hrun.
    destruct f; [lia | reflexivity].
  - intros nm d IH ms IHms h k pv b brk f [Hd Hms] Hf. cbn [members_nodes] in *.
    destruct f as [| f]; [lia |].
    destruct (IH h k nm pv _ b brk f Hd ltac:(lia)) as (h1 & Hrun & Hcl).
    assert (rep_members h1 (k + nodes d) ms (Some k)) as Hms1.
    { apply (proj2 (proj2 rep_change) ms h); [exact Hms |].
      intros a Ha. apply (proj2 Hcl). lia. }
    destruct (IHms h1 _ _ b brk f Hms1 ltac:(lia)) as (h2 & Hrun2 & Hcl2).
    exists h2. split; [rewrite Hrun; exact Hrun2 |].
    rewrite Pos.add_assoc. apply (cleared_trans h h1 h2 k (k + nodes d)); try lia; assumption.
Qed.

(** *** Reading a tree back *)

Lemma read_built :
  (forall d h k nm pv nx f,
      rep h k d nm pv nx -> (2 * Pos.to_nat (nodes d) <= f)%nat ->
      read f h k = Some (value_of d)) /\
  (forall es h k pv f,
      rep_elems h k es pv -> (2 * Pos.to_nat (elems_nodes es) + 1 <= f)%nat ->
      read_chain f h pv (Some k) = Some (elems_values es)) /\
  (forall ms h k pv f,
      rep_members h k ms pv -> (2 * Pos.to_nat (members_nodes ms) + 1 <= f)%nat ->
      read_chain f h pv (Some k) = Some (members_values ms)).
Proof.
  apply doc_mutind.
  - intros h k nm pv nx f [Hk _] Hf. destruct f as [| f]; [lia |].
    cbn [read]. rewrite Hk. reflexivity.
  - intros b h k nm pv nx f [Hk _] Hf. destruct f as [| f]; [lia |].
    cbn [read]. rewrite Hk. reflexivity.
  - intros s h k nm pv nx f [Hk _] Hf. destruct f as [| f]; [lia |].
    cbn [read]. rewrite Hk. reflexivity.
  - intros ds h k nm pv nx f [Hk _] Hf. destruct f as [| f]; [lia |].
    cbn [read]. rewrite Hk. reflexivity.
  - intros es IH h k nm pv nx f [Hk Hes] Hf. cbn [nodes] in Hf.
    destruct f as [| f]; [lia |].
    cbn [read]. rewrite Hk. cbn [node_of type child].
    rewrite (IH h _ _ f Hes) by lia. reflexivity.
  - intros ms IH h k nm pv nx f [Hk Hms] Hf. cbn [nodes] in Hf.
    destruct f as [| f]; [lia |].
    cbn [read]. rewrite Hk. cbn [node_of type child].
    rewrite (IH h _ _ f Hms) by lia. reflexivity.
  - intros d IH h k pv f Hd Hf. cbn [rep_elems elems_nodes] in *.
    destruct f as [| f]; [lia |].
    cbn [read_chain]. rewrite (rep_root _ _ _ _ _ _ Hd), (IH h k _ _ _ f Hd) by lia.
    cbn [node_of next prev name]. rewrite bool_decide_eq_true_2 by reflexivity.
    destruct f; [lia | reflexivity].
  - intros d IH es IHes h k pv f [Hd Hes] Hf. cbn [elems_nodes] in *.
    destruct f as [| f]; [lia |].
    cbn [read_chain]. rewrite (rep_root _ _ _ _ _ _ Hd), (IH h k _ _ _ f Hd) by lia.
    cbn [node_of next prev name]. rewrite bool_decide_eq_true_2 by reflexivity.
    rewrite (IHes h _ _ f Hes) by lia. reflexivity.
  - intros nm d IH h k pv f Hd Hf. cbn [rep_members members_nodes] in *.
    destruct f as [| f]; [lia |].
    cbn [read_chain]. rewrite (rep_root _ _ _ _ _ _ Hd), (IH h k _ _ _ f Hd) by lia.
    cbn [node_of next prev name]. rewrite bool_decide_eq_true_2 by reflexivity.
    destruct f; [lia | reflexivity].
  - intros nm d IH ms IHms h k pv f [Hd Hms] Hf. cbn [members_nodes] in *.
    destruct f as [| f]; [lia |].
    cbn [read_chain]. rewrite (rep_root _ _ _ _ _ _ Hd), (IH h k _ _ _ f Hd) by lia.
    cbn [node_of next prev name]. rewrite bool_decide_eq_true_2 by reflexivity.
    rewrite (IHms h _ _ f Hms) by lia. reflexivity.
Qed.

(** Read from the root, a tree that stands alone gives one value under
    the empty name. *)
Lemma read_tree_built h d :
  rep h 1 d [] None None -> read_tree h 1 = Some [([], value_of d)].
Proof.
  intros Hr. unfold read_tree. pose proof (rep_size _ _ _ _ _ _ Hr) as Hsz.
  replace (2 * size h + 1)%nat with (S (2 * size h)) by lia.
  cbn [read_chain].
  rewrite (rep_root _ _ _ _ _ _ Hr),
    (proj1 read_built d h 1%positive [] None None (2 * size h)%nat Hr) by lia.
  cbn [node_of next prev name]. rewrite bool_decide_eq_true_2 by reflexivity.
  destruct (2 * size h)%nat eqn:Hf; [lia | reflexivity].
Qed.

(** *** From a fresh cursor *)

Lemma skip_run raw dp p (ws rest : list ascii) (h : gmap ptr JSONItem) k :
  (p <= length raw)%nat -> drop p raw = ws ++ rest ->
  forallb Char.isspace ws = true -> no_leading_space rest ->
  on_buffer skip_whitespace (mkWorld (mkBuffer raw dp p) h k)
  = (Ok tt, mkWorld (mkBuffer raw dp (p + length ws)) h k).
Proof.
  intros Hp Hd Hws Hrest. apply on_buffer_eq.
  unfold skip_whitespace, raw_size. cbn [pos raw_json].
  destruct (Nat.leb_spec p (length raw)) as [_ | Hgt]; [| lia].
  rewrite Hd, Scanners.skip_whitespace_from_app by assumption. reflexivity.
Qed.

(** The top-level call on a text of the grammar between white space, and
    what follows it. *)
Lemma parse_framed (NESTING_LIMIT : Z) (ws1 : list ascii) (d : doc) (ws2 junk : list ascii) :
  0 <= NESTING_LIMIT < 2 ^ 32 - 1 ->
  forallb Char.isspace ws1 = true ->
  well_formed d = true -> nesting d <= NESTING_LIMIT ->
  forallb Char.isspace ws2 = true -> no_leading_space junk ->
  ends_value (ws2 ++ junk) = true ->
  exists h,
    parse NESTING_LIMIT (ws1 ++ text d ++ ws2 ++ junk)
    = (match junk with [] => Ok 1%positive | _ :: _ => Throw TrailingJunk end,
       mkWorld (mkBuffer (ws1 ++ text d ++ ws2 ++ junk) 0
                  (length ws1 + length (text d) + length ws2)) h (1 + nodes d)%positive) /\
    rep h 1 d [] None None /\
    (forall a, (1 + nodes d <= a)%positive -> h !! a = None).
Proof.
  intros Hrange Hws1 Hwf Hn Hws2 Hjunk Hends.
  set (raw := ws1 ++ text d ++ ws2 ++ junk).
  assert (length raw = length ws1 + length (text d) + length ws2 + length junk)%nat as Hlen.
  { unfold raw. rewrite !length_app. lia. }
  pose proof (proj1 cost_bound d) as Hcost.
  destruct (Run.text_head d Hwf) as (c & l & Hc & Hsp & _).
  unfold parse, fresh. fold raw.
  replace (2 * length raw + 2)%nat with (S (2 * length raw + 1)) by lia.
  rewrite Run.parse_json_unfold.
  destruct (dispatch_builds_all NESTING_LIMIT Hrange d Hwf (2 * length raw + 1)%nat raw 0
              (length ws1) ∅ 1%positive (ws2 ++ junk)
              ltac:(lia) ltac:(lia) ltac:(apply drop_app_length) Hends
              ltac:(lia) ltac:(lia))
    as (h & Hrun & Hrep & Hfr).
  change (Pos.succ 1) with 2%positive in Hrun.
  exists h. split; [| split; [exact Hrep |]].
  - unfold parse_json_body.
    rewrite (bind_ok new_JSONItem _ _ 1%positive
               (mkWorld (mkBuffer raw 0 0) (<[1%positive := zero_item]> ∅) 2%positive))
      by reflexivity.
    rewrite (bind_ok _ _ _ _ _
               (skip_run raw 0 0 ws1 (text d ++ ws2 ++ junk) _ _ ltac:(lia) eq_refl Hws1
                  ltac:(rewrite Hc; exact Hsp))).
    cbn [Nat.add].
    rewrite (bind_ok (try_catch _ _) _ _ tt _)
      by (unfold try_catch; rewrite Hrun; reflexivity).
    assert (drop (length ws1 + length (text d)) raw = ws2 ++ junk) as Hd2.
    { unfold raw. rewrite app_assoc, <- length_app. apply drop_app_length. }
    rewrite (bind_ok _ _ _ _ _
               (skip_run raw 0 (length ws1 + length (text d)) ws2 junk _ _
                  ltac:(lia) Hd2 Hws2 Hjunk)).
    unfold bind, get_buf, ret, throw, raw_size.
    cbn [buf depth pos raw_json Z.eqb andb].
    destruct junk as [| j junk'].
    + cbn [length] in Hlen. rewrite Nat.add_0_r in Hlen.
      rewrite <- Hlen, Nat.eqb_refl. reflexivity.
    + destruct (Nat.eqb_spec (length ws1 + length (text d) + length ws2) (length raw))
        as [He | _]; [cbn [length] in Hlen; lia |]. reflexivity.
  - intros a Ha. rewrite Hfr by lia. apply lookup_empty.
Qed.

Lemma spaces_end_value (ws junk : list ascii) :
  forallb Char.isspace ws = true -> ends_value junk = true ->
  ends_value (ws ++ junk) = true.
Proof.
  destruct ws as [| c ws]; intros Hws Hj; [exact Hj |].
  cbn [forallb] in Hws. apply andb_true_iff in Hws as [Hc _].
  cbn [app ends_value]. rewrite Hc. reflexivity.
Qed.

Lemma interval_exact (m : nat) :
  forall (k : ptr) (h : gmap ptr JSONItem),
    (forall a, (k <= a)%positive -> (Pos.to_nat a < Pos.to_nat k + m)%nat ->
               is_Some (h !! a)) ->
    (forall a, (a < k)%positive \/ (Pos.to_nat k + m <= Pos.to_nat a)%nat -> h !! a = None) ->
    size h = m.
Proof.
  induction m as [| m IH]; intros k h Hlive Hdead.
  - assert (h = ∅) as ->; [| apply map_size_empty].
    apply map_empty. intros a. apply Hdead. lia.
  - assert (is_Some (h !! k)) as Hk by (apply Hlive; lia).
    pose proof (map_size_delete_Some k h Hk) as Hsz.
    assert (size (delete k h) = m) as Hm.
    { apply (IH (Pos.succ k)).
      - intros a Ha Hb. rewrite lookup_delete_ne by lia. apply Hlive; lia.
      - intros a Ha. destruct (decide (a = k)) as [-> | Hne].
        + apply lookup_delete_eq.
        + rewrite lookup_delete_ne by congruence. apply Hdead. lia. }
    assert (size h <> 0%nat) by (apply map_size_ne_0_lookup_2 with k; exact Hk).
    lia.
Qed.

(** A heap that holds a tree from the first address and nothing after it
    holds exactly the nodes of the tree. *)
Lemma rep_exact h d :
  rep h 1 d [] None None ->
  (forall a, (1 + nodes d <= a)%positive -> h !! a = None) ->
  size h = Pos.to_nat (nodes d).
Proof.
  intros Hr Hfr. apply (interval_exact _ 1%positive).
  - intros a Ha Hb. apply (proj1 rep_live d h 1%positive [] None None Hr). lia.
  - intros a Ha. apply Hfr. lia.
Qed.

(** [destroy_json] on the root of such a heap frees every node. *)
Lemma destroy_exact h d b brk :
  rep h 1 d [] None None ->
  (forall a, (1 + nodes d <= a)%positive -> h !! a = None) ->
  destroy_json (Some 1%positive) (mkWorld b h brk) = (Ok tt, mkWorld b ∅ brk).
Proof.
  intros Hr Hfr. unfold destroy_json. cbn [heap].
  destruct (proj1 destroy_built d h 1%positive [] None None b brk (size h) Hr
              (rep_size _ _ _ _ _ _ Hr))
    as (h' & Hrun & Hcl & Hkeep).
  rewrite Hrun.
  assert (h' = ∅) as ->.
  { apply map_empty. intros a.
    destruct (Pos.ltb_spec a (1 + nodes d)) as [Hlt | Hge].
    - apply Hcl. lia.
    - rewrite Hkeep by lia. apply Hfr. exact Hge. }
  pose proof (rep_size _ _ _ _ _ _ Hr) as Hsz.
  destruct (size h) as [| n]; [lia | reflexivity].
Qed.

End Build.

(** ** [strtod] and the parser on the lexemes of C11 *)
Module Lexemes.

Import Document Behaviour Lexeme.

Ltac by_cases c :=
  destruct c as [[] [] [] [] [] [] [] []]; vm_compute; intros;
  try discriminate; repeat split; reflexivity.

Lemma after_facts (c : ascii) :
  follows c = true ->
  Char.isdigit c = false /\ Char.isxdigit c = false /\ Char.eqb c "." = false /\
  Char.eqb (Char.tolower c) "e" = false /\ Char.eqb (Char.tolower c) "p" = false /\
  Char.eqb (Char.tolower c) "x" = false /\ Char.eqb (Char.tolower c) "i" = false /\
  Char.eqb c "(" = false.
Proof. by_cases c. Qed.

Lemma letter_e (c : ascii) :
  letter "e" "E" c = true -> Char.eqb (Char.tolower c) "e" = true.
Proof. by_cases c. Qed.

Lemma letter_p (c : ascii) :
  letter "p" "P" c = true -> Char.eqb (Char.tolower c) "p" = true.
Proof. by_cases c. Qed.

Lemma letter_x (c : ascii) :
  letter "x" "X" c = true -> Char.eqb (Char.tolower c) "x" = true.
Proof. by_cases c. Qed.

Lemma nchar_is_nchar (c : ascii) : nchar c = Strtod.is_nchar c.
Proof. destruct c as [[] [] [] [] [] [] [] []]; reflexivity. Qed.

(** A word spelled in either case is the word once in lower case. *)
Lemma spells_tolower (word : list (ascii * ascii)) :
  Forall (fun p => Char.tolower (fst p) = fst p /\ Char.tolower (snd p) = fst p) word ->
  forall w, spells word w = true -> map Char.tolower w = map fst word.
Proof.
  induction 1 as [| [lo up] word [Hlo Hup] _ IH]; intros w Hw.
  - destruct w; [reflexivity | discriminate Hw].
  - destruct w as [| c w]; [discriminate Hw |]. cbn [spells] in Hw.
    apply andb_true_iff in Hw as [Hc Hw]. cbn [map fst]. rewrite (IH w Hw). f_equal.
    cbn [fst snd] in *. unfold letter in Hc.
    apply orb_true_iff in Hc as [Hc | Hc]; apply Ascii.eqb_eq in Hc; subst c; assumption.
Qed.

Lemma spells_inf (w : list ascii) :
  spells INF w = true -> map Char.tolower w = bytes "inf".
Proof. apply (spells_tolower INF). repeat constructor. Qed.

Lemma spells_infinity (w : list ascii) :
  spells INFINITY w = true -> map Char.tolower w = bytes "infinity".
Proof. apply (spells_tolower INFINITY). repeat constructor. Qed.

Lemma spells_nan (w : list ascii) :
  spells NAN w = true -> map Char.tolower w = bytes "nan".
Proof. apply (spells_tolower NAN). repeat constructor. Qed.

Lemma decimal_digit_facts (c : ascii) :
  Char.isdigit c = true ->
  Char.isspace c = false /\ Char.eqb c "-" = false /\ Char.eqb c "+" = false /\
  Char.eqb (Char.tolower c) "x" = false.
Proof. by_cases c. Qed.

Lemma hex_digit_facts (c : ascii) :
  Char.isxdigit c = true ->
  Char.isspace c = false /\ Char.eqb c "-" = false /\ Char.eqb c "+" = false.
Proof. by_cases c. Qed.

Lemma e_facts (c : ascii) :
  Char.eqb (Char.tolower c) "e" = true ->
  Char.isdigit c = false /\ Char.eqb c "." = false /\
  Char.eqb (Char.tolower c) "x" = false.
Proof. by_cases c. Qed.

Lemma p_facts (c : ascii) :
  Char.eqb (Char.tolower c) "p" = true ->
  Char.isxdigit c = false /\ Char.eqb c "." = false.
Proof. by_cases c. Qed.

Lemma letter_facts (c x : ascii) :
  Char.tolower c = x -> (x = "i"%char \/ x = "n"%char) ->
  Char.isspace c = false /\ Char.eqb c "-" = false /\ Char.eqb c "+" = false /\
  Char.isdigit c = false /\ Char.eqb c "0" = false /\ Char.eqb c "." = false.
Proof.
  intros <- H. revert H.
  destruct c as [[] [] [] [] [] [] [] []]; vm_compute; intros [H | H];
    try discriminate H; repeat split; reflexivity.
Qed.

Lemma span_exact (p : ascii -> bool) (a rest : list ascii) :
  forallb p a = true ->
  match rest with c :: _ => p c = false | [] => True end ->
  Strtod.span p (a ++ rest) = (a, rest).
Proof.
  intros Ha Hrest. induction a as [| x a IH].
  - destruct rest as [| c r]; [reflexivity |]. cbn [app Strtod.span].
    rewrite Hrest. reflexivity.
  - cbn [forallb] in Ha. apply andb_true_iff in Ha as [Hx Ha].
    cbn [app Strtod.span]. rewrite Hx, IH by exact Ha. reflexivity.
Qed.

Lemma significand_exact isd base val ip fp rest :
  digits_ok isd ip fp = true -> isd "."%char = false -> closes isd fp rest ->
  Strtod.significand isd base val (ip ++ fraction_text fp ++ rest)
  = Some (Strtod.number_of base val (ip ++ digits_of fp),
          length (digits_of fp), length (ip ++ fraction_text fp)).
Proof.
  intros Hok Hdot Hrest. unfold digits_ok in Hok.
  apply andb_true_iff in Hok as [Hok Hne]. apply andb_true_iff in Hok as [Hip Hfp].
  apply negb_true_iff, Nat.eqb_neq in Hne.
  unfold Strtod.significand.
  rewrite (span_exact isd ip (fraction_text fp ++ rest) Hip).
  2:{ destruct fp as [f |]; cbn [fraction_text app]; [exact Hdot |].
      destruct rest as [| c r]; [exact I | apply Hrest]. }
  destruct fp as [f |]; cbn [fraction_text digits_of app] in *.
  - change (Char.eqb "." ".") with true. cbv iota.
    rewrite (span_exact isd f rest Hfp).
    2:{ destruct rest as [| c r]; [exact I | apply Hrest]. }
    cbn [fst]. destruct (ip ++ f) as [| d ds] eqn:Hd; [cbn in Hne; lia |].
    rewrite <- Hd. rewrite !length_app. cbn [length].
    replace (length ip + 1 + length f)%nat with (length ip + S (length f))%nat by lia.
    reflexivity.
  - assert (match rest with
            | c :: l2 => if Char.eqb c "." then (fst (Strtod.span isd l2), 1%nat)
                         else ([], 0%nat)
            | [] => ([], 0%nat)
            end = ([], 0%nat)) as ->.
    { destruct rest as [| c r]; [reflexivity |].
      destruct Hrest as [_ Hc]. rewrite (Hc eq_refl). reflexivity. }
    rewrite !app_nil_r in *. destruct ip as [| d ds]; [cbn in Hne; lia |].
    cbn [length]. rewrite !Nat.add_0_r. reflexivity.
Qed.

Lemma sign_of_mark (s : sign_mark) (l : list ascii) :
  match l with c :: _ => Char.eqb c "-" = false /\ Char.eqb c "+" = false | [] => True end ->
  Strtod.sign (sign_text s ++ l)
  = (match s with Minus => true | _ => false end, length (sign_text s)).
Proof.
  intros Hl. destruct s; cbn [sign_text app length]; try reflexivity.
  destruct l as [| c r]; [reflexivity |]. destruct Hl as [Hm Hp].
  cbn [Strtod.sign]. rewrite Hm, Hp. reflexivity.
Qed.

Lemma exponent_exact m up e :
  (forall c, letter m up c = true -> Char.eqb (Char.tolower c) m = true) ->
  exponent_ok m up e = true ->
  exists ev, forall rest,
    closes_exponent m e rest ->
    Strtod.exponent m (exponent_text e ++ rest) = (ev, length (exponent_text e)).
Proof.
  intros Hletter Hok. destruct e as [[mk sg ds] |]; cbn [exponent_ok exponent_text marker
    exponent_sign exponent_digits] in *.
  - apply andb_true_iff in Hok as [Hok Hds]. apply andb_true_iff in Hok as [Hm Hne].
    apply Hletter in Hm.
    apply negb_true_iff, Nat.eqb_neq in Hne.
    destruct ds as [| d ds']; [cbn in Hne; lia |].
    pose proof Hds as Hds'. cbn [forallb] in Hds'. apply andb_true_iff in Hds' as [Hd _].
    destruct (decimal_digit_facts d Hd) as (_ & Hdm & Hdp & _).
    eexists. intros rest Hrest. cbn [app Strtod.exponent]. rewrite Hm.
    rewrite <- app_assoc.
    rewrite (sign_of_mark sg ((d :: ds') ++ rest)) by (cbn [app]; split; assumption).
    rewrite drop_app_length.
    rewrite (span_exact Char.isdigit (d :: ds') rest Hds).
    2:{ destruct rest as [| c r]; [exact I | apply Hrest]. }
    cbn [fst].
    change (length (mk :: sign_text sg ++ d :: ds'))
      with (S (length (sign_text sg ++ d :: ds'))).
    rewrite length_app.
    replace (S (length (sign_text sg) + length (d :: ds')))
      with (1 + length (sign_text sg) + length (d :: ds'))%nat by lia.
    reflexivity.
  - exists 0. intros rest Hrest. cbn [app length].
    destruct rest as [| c r]; [reflexivity |]. cbn [Strtod.exponent].
    destruct Hrest as [_ ->]. reflexivity.
Qed.

Lemma ended_closes (isd : ascii -> bool) fp rest :
  (forall c, follows c = true -> isd c = false) ->
  ended rest -> closes isd fp rest.
Proof.
  intros Hisd Hrest. destruct rest as [| c r]; [exact I |]. cbn [ended] in Hrest.
  split; [apply Hisd, Hrest |]. intros _.
  destruct (after_facts c Hrest) as (_ & _ & Hdot & _). exact Hdot.
Qed.

Lemma ended_closes_exponent m e rest :
  m = "e"%char \/ m = "p"%char ->
  ended rest -> closes_exponent m e rest.
Proof.
  intros Hm Hrest. destruct rest as [| c r]; [exact I |]. cbn [ended] in Hrest.
  destruct (after_facts c Hrest) as (Hd & _ & _ & He & Hp & _).
  split; [exact Hd |]. destruct Hm as [-> | ->]; assumption.
Qed.

(** What follows the digits of a significand: an exponent part, or what
    follows the lexeme. *)
Lemma closes_before_exponent (isd : ascii -> bool) (m up : ascii) fp e rest :
  (forall c, follows c = true -> isd c = false) ->
  (forall c, letter m up c = true -> isd c = false /\ Char.eqb c "." = false) ->
  exponent_ok m up e = true -> ended rest ->
  closes isd fp (exponent_text e ++ rest).
Proof.
  intros Hsp Hmk Hok Hrest. destruct e as [[mk sg ds] |].
  - cbn [exponent_ok marker] in Hok.
    apply andb_true_iff in Hok as [Hok _]. apply andb_true_iff in Hok as [Hm _].
    cbn [exponent_text marker app closes].
    destruct (Hmk mk Hm) as [H1 H2]. split; [exact H1 | intros _; exact H2].
  - cbn [exponent_text app]. apply ended_closes; assumption.
Qed.

Lemma decimal_exact neg ip fp e :
  digits_ok Char.isdigit ip fp = true -> exponent_ok "e" "E" e = true ->
  exists v, forall rest,
    ended rest ->
    Strtod.decimal neg (ip ++ fraction_text fp ++ exponent_text e ++ rest)
    = Some (v, length (ip ++ fraction_text fp ++ exponent_text e)).
Proof.
  intros Hds He. destruct (exponent_exact "e" "E" e letter_e He) as [ev Hev].
  eexists. intros rest Hrest. unfold Strtod.decimal.
  rewrite (significand_exact Char.isdigit 10 Char.digit_val ip fp
             (exponent_text e ++ rest) Hds eq_refl).
  2:{ apply (closes_before_exponent Char.isdigit "e" "E"); try assumption.
      - intros c Hc. apply (after_facts c Hc).
      - intros c Hc. destruct (e_facts c (letter_e c Hc)) as (H1 & H2 & _).
        split; assumption. }
  rewrite (app_assoc ip), drop_app_length.
  rewrite (Hev rest (ended_closes_exponent "e" e rest (or_introl eq_refl) Hrest)).
  rewrite (app_assoc ip), (length_app (ip ++ fraction_text fp)). reflexivity.
Qed.

Lemma hexadecimal_exact neg x ip fp e :
  letter "x" "X" x = true ->
  digits_ok Char.isxdigit ip fp = true -> exponent_ok "p" "P" e = true ->
  exists v, forall rest,
    ended rest ->
    Strtod.hexadecimal neg ("0"%char :: x :: ip ++ fraction_text fp ++ exponent_text e ++ rest)
    = Some (v, length ("0"%char :: x :: ip ++ fraction_text fp ++ exponent_text e)).
Proof.
  intros Hx Hds He. apply letter_x in Hx.
  destruct (exponent_exact "p" "P" e letter_p He) as [ev Hev].
  eexists. intros rest Hrest. unfold Strtod.hexadecimal.
  change (Char.eqb "0" "0") with true. rewrite Hx. cbn [andb].
  rewrite (significand_exact Char.isxdigit 16 Char.xdigit_val ip fp
             (exponent_text e ++ rest) Hds eq_refl).
  2:{ apply (closes_before_exponent Char.isxdigit "p" "P"); try assumption.
      - intros c Hc. apply (after_facts c Hc).
      - intros c Hc. apply (p_facts c (letter_p c Hc)). }
  rewrite (app_assoc ip), drop_app_length.
  rewrite (Hev rest (ended_closes_exponent "p" e rest (or_intror eq_refl) Hrest)).
  cbn [length]. rewrite (app_assoc ip), (length_app (ip ++ fraction_text fp)).
  reflexivity.
Qed.

Lemma hexadecimal_none neg (a rest : list ascii) :
  a <> [] -> forallb no_x a = true ->
  match rest with c :: _ => no_x c = true | [] => True end ->
  Strtod.hexadecimal neg (a ++ rest) = None.
Proof.
  intros Hne Ha Hrest. destruct a as [| z a]; [congruence |].
  cbn [forallb] in Ha. apply andb_true_iff in Ha as [_ Ha].
  destruct a as [| x a].
  - destruct rest as [| c r]; [reflexivity |]. cbn [app Strtod.hexadecimal].
    apply negb_true_iff in Hrest. rewrite Hrest, andb_false_r. reflexivity.
  - cbn [forallb] in Ha. apply andb_true_iff in Ha as [Hx _].
    apply negb_true_iff in Hx. cbn [app Strtod.hexadecimal].
    rewrite Hx, andb_false_r. reflexivity.
Qed.

Lemma digits_no_x (ds : list ascii) :
  forallb Char.isdigit ds = true -> forallb no_x ds = true.
Proof.
  induction ds as [| d ds IH]; [reflexivity |]. cbn [forallb]. intros H.
  apply andb_true_iff in H as [Hd Hds]. rewrite (IH Hds), andb_true_r.
  destruct (decimal_digit_facts d Hd) as (_ & _ & _ & Hx).
  unfold no_x. rewrite Hx. reflexivity.
Qed.

Lemma sign_no_x (s : sign_mark) : forallb no_x (sign_text s) = true.
Proof. destruct s; reflexivity. Qed.

Lemma decimal_no_x ip fp e :
  digits_ok Char.isdigit ip fp = true -> exponent_ok "e" "E" e = true ->
  forallb no_x (ip ++ fraction_text fp ++ exponent_text e) = true.
Proof.
  intros Hds He. unfold digits_ok in Hds.
  apply andb_true_iff in Hds as [Hds _]. apply andb_true_iff in Hds as [Hip Hfp].
  rewrite !forallb_app. rewrite (digits_no_x ip Hip). cbn [andb].
  apply andb_true_iff. split.
  - destruct fp as [f |]; [| reflexivity]. cbn [fraction_text forallb digits_of] in *.
    rewrite (digits_no_x f Hfp). reflexivity.
  - destruct e as [[mk sg ds] |]; [| reflexivity].
    cbn [exponent_ok exponent_text marker exponent_sign exponent_digits forallb] in *.
    apply andb_true_iff in He as [He Hd]. apply andb_true_iff in He as [Hm _].
    rewrite forallb_app, sign_no_x, (digits_no_x ds Hd).
    destruct (e_facts mk (letter_e mk Hm)) as (_ & _ & Hx).
    unfold no_x at 1. rewrite Hx. reflexivity.
Qed.

Lemma decimal_nonempty ip fp e :
  digits_ok Char.isdigit ip fp = true -> ip ++ fraction_text fp ++ exponent_text e <> [].
Proof.
  intros Hds Heq. unfold digits_ok in Hds. apply andb_true_iff in Hds as [_ Hne].
  apply negb_true_iff, Nat.eqb_neq in Hne.
  destruct ip as [| d ip]; [| discriminate Heq].
  destruct fp as [f |]; [discriminate Heq |]. cbn in Hne. lia.
Qed.

(** *** Infinities and NaNs *)

Lemma span_head (p : ascii -> bool) (c : ascii) (l : list ascii) :
  p c = false -> Strtod.span p (c :: l) = ([], c :: l).
Proof. intros H. cbn [Strtod.span]. rewrite H. reflexivity. Qed.

Lemma no_number_at_letter neg (c : ascii) (l : list ascii) :
  Char.isdigit c = false -> Char.eqb c "0" = false -> Char.eqb c "." = false ->
  Strtod.hexadecimal neg (c :: l) = None /\ Strtod.decimal neg (c :: l) = None.
Proof.
  intros Hd H0 Hdot. split.
  - unfold Strtod.hexadecimal. destruct l as [| x l']; [reflexivity |].
    rewrite H0. reflexivity.
  - unfold Strtod.decimal, Strtod.significand. rewrite (span_head _ _ _ Hd), Hdot.
    reflexivity.
Qed.

Lemma word_inf (w : list ascii) :
  map Char.tolower w = bytes "inf" ->
  exists a b c, w = [a; b; c] /\ Char.tolower a = "i"%char.
Proof.
  intros H. destruct w as [| a [| b [| c [| d w]]]]; try discriminate H.
  injection H as Ha _ _. eauto.
Qed.

Lemma special_inf neg (w rest : list ascii) :
  map Char.tolower w = bytes "inf" -> ended rest ->
  Strtod.special neg (w ++ rest) = Some (S754_infinity neg, length w).
Proof.
  intros Hw Hrest. destruct (word_inf w Hw) as (a & b & c & -> & Ha).
  unfold Strtod.special.
  assert (Strtod.starts_with "infinity" ([a; b; c] ++ rest) = false) as ->.
  { unfold Strtod.starts_with. apply bool_decide_eq_false_2. intros Heq.
    destruct rest as [| x r]; [discriminate Heq |]. cbn [ended] in Hrest.
    destruct (after_facts x Hrest) as (_ & _ & _ & _ & _ & _ & Hi & _).
    cbn in Heq. injection Heq as _ _ _ Hx _. rewrite Hx in Hi. discriminate Hi. }
  assert (Strtod.starts_with "inf" ([a; b; c] ++ rest) = true) as ->.
  { unfold Strtod.starts_with. apply bool_decide_eq_true_2. exact Hw. }
  reflexivity.
Qed.

Lemma special_infinity neg (w rest : list ascii) :
  map Char.tolower w = bytes "infinity" ->
  Strtod.special neg (w ++ rest) = Some (S754_infinity neg, length w).
Proof.
  intros Hw. unfold Strtod.special.
  assert (length w = 8%nat) as Hlen.
  { apply (f_equal length) in Hw. rewrite length_map in Hw. exact Hw. }
  assert (Strtod.starts_with "infinity" (w ++ rest) = true) as ->.
  { unfold Strtod.starts_with. apply bool_decide_eq_true_2.
    change (length (bytes "infinity")) with 8%nat. rewrite <- Hlen, take_app_length.
    exact Hw. }
  rewrite Hlen. reflexivity.
Qed.

Lemma special_nan neg (w : list ascii) (seq : option (list ascii)) (rest : list ascii) :
  map Char.tolower w = bytes "nan" -> forallb Strtod.is_nchar (digits_of seq) = true ->
  ended rest ->
  Strtod.special neg
    ((w ++ match seq with None => [] | Some s => "("%char :: s ++ [")"%char] end) ++ rest)
  = Some (S754_nan,
          length (w ++ match seq with None => [] | Some s => "("%char :: s ++ [")"%char] end)).
Proof.
  intros Hw Hseq Hrest.
  destruct w as [| a [| b [| c [| d w]]]]; try discriminate Hw.
  injection Hw as Ha Hb Hc.
  unfold Strtod.special.
  assert (forall word t, hd Char.NUL (bytes word) = "i"%char ->
            Strtod.starts_with word ([a; b; c] ++ t) = false) as Hno.
  { intros word t Hword. unfold Strtod.starts_with. apply bool_decide_eq_false_2.
    intros Heq. destruct (bytes word) as [| x bs]; [discriminate Hword |].
    cbn in Hword. subst x. cbn in Heq. injection Heq as Hx _.
    rewrite Ha in Hx. discriminate Hx. }
  rewrite <- app_assoc.
  rewrite (Hno "infinity"%string _ eq_refl), (Hno "inf"%string _ eq_refl).
  assert (Strtod.starts_with "nan" ([a; b; c] ++ match seq with
                                                | None => []
                                                | Some s => "("%char :: s ++ [")"%char]
                                                end ++ rest) = true) as ->.
  { unfold Strtod.starts_with. apply bool_decide_eq_true_2. cbn.
    rewrite Ha, Hb, Hc. reflexivity. }
  cbn [app drop]. rewrite drop_0. destruct seq as [s |]; cbn [digits_of] in Hseq.
  - cbn [app]. change (Char.eqb "(" "(") with true. cbv iota.
    rewrite <- app_assoc.
    rewrite (span_exact Strtod.is_nchar s ([")"%char] ++ rest) Hseq) by reflexivity.
    cbn [app]. change (Char.eqb ")" ")") with true. cbv iota.
    cbn [length]. rewrite length_app. cbn [length].
    replace (5 + length s)%nat with (S (S (S (S (length s + 1))))) by lia.
    reflexivity.
  - cbn [app length]. destruct rest as [| x r]; [reflexivity |]. cbn [ended] in Hrest.
    destruct (after_facts x Hrest) as (_ & _ & _ & _ & _ & _ & _ & Hp).
    rewrite Hp. reflexivity.
Qed.

(** *** Whole lexemes *)

Lemma form_head s f :
  is_lexeme (mkLexeme s f) = true ->
  exists c t, form_text f = c :: t /\
              Char.isspace c = false /\ Char.eqb c "-" = false /\ Char.eqb c "+" = false.
Proof.
  unfold is_lexeme. cbn [lexeme_form]. intros H.
  destruct f as [ip fp e | x ip fp e | w | w seq]; cbn [form_text].
  - apply andb_true_iff in H as [Hds _]. unfold digits_ok in Hds.
    apply andb_true_iff in Hds as [Hds Hne]. apply andb_true_iff in Hds as [Hip _].
    apply negb_true_iff, Nat.eqb_neq in Hne.
    destruct ip as [| d ip].
    + destruct fp as [f |]; [| cbn in Hne; lia].
      cbn [fraction_text app]. eexists _, _. repeat split; reflexivity.
    + cbn [forallb] in Hip. apply andb_true_iff in Hip as [Hd _].
      destruct (decimal_digit_facts d Hd) as (H1 & H2 & H3 & _).
      cbn [app]. eexists _, _. repeat split; assumption.
  - eexists _, _. repeat split; reflexivity.
  - assert (exists a t, w = a :: t /\ Char.tolower a = "i"%char) as (a & t & -> & Ha).
    { apply orb_true_iff in H as [H | H];
        [apply spells_inf in H | apply spells_infinity in H];
        (destruct w as [| a t]; [discriminate H |]); injection H as Ha _; eauto. }
    destruct (letter_facts a _ Ha (or_introl eq_refl)) as (H1 & H2 & H3 & _).
    eexists _, _. repeat split; assumption.
  - apply andb_true_iff in H as [H _]. apply spells_nan in H.
    destruct w as [| a t]; [discriminate H |]. injection H as Ha _.
    destruct (letter_facts a _ Ha (or_intror eq_refl)) as (H1 & H2 & H3 & _).
    cbn [app]. eexists _, _. repeat split; assumption.
Qed.

Lemma subject_exact neg s f :
  is_lexeme (mkLexeme s f) = true ->
  exists v, forall rest,
    ended rest ->
    Strtod.subject neg (form_text f ++ rest) = Some (v, length (form_text f)).
Proof.
  unfold is_lexeme. cbn [lexeme_form]. intros H.
  destruct f as [ip fp e | x ip fp e | w | w seq]; cbn [form_text].
  - apply andb_true_iff in H as [Hds He].
    destruct (decimal_exact neg ip fp e Hds He) as [v Hv].
    exists v. intros rest Hrest. unfold Strtod.subject.
    rewrite (hexadecimal_none neg (ip ++ fraction_text fp ++ exponent_text e) rest
               (decimal_nonempty ip fp e Hds) (decimal_no_x ip fp e Hds He)).
    2:{ destruct rest as [| c r]; [exact I |]. cbn [ended] in Hrest.
        destruct (after_facts c Hrest) as (_ & _ & _ & _ & _ & Hx & _).
        unfold no_x. rewrite Hx. reflexivity. }
    rewrite <- !app_assoc, (Hv rest Hrest), !app_assoc. reflexivity.
  - apply andb_true_iff in H as [H He]. apply andb_true_iff in H as [Hx Hds].
    destruct (hexadecimal_exact neg x ip fp e Hx Hds He) as [v Hv].
    exists v. intros rest Hrest. unfold Strtod.subject.
    cbn [app]. rewrite <- !app_assoc, (Hv rest Hrest), !app_assoc. reflexivity.
  - exists (S754_infinity neg). intros rest Hrest.
    assert (map Char.tolower w = bytes "inf" \/ map Char.tolower w = bytes "infinity")
      as Hword.
    { apply orb_true_iff in H as [H | H];
        [left; apply spells_inf, H | right; apply spells_infinity, H]. }
    assert (exists a t, w = a :: t /\ Char.tolower a = "i"%char) as (a & t & Hw & Ha).
    { destruct Hword as [Hword | Hword];
        (destruct w as [| a t]; [discriminate Hword |]); injection Hword as Ha _; eauto. }
    destruct (letter_facts a _ Ha (or_introl eq_refl)) as (_ & _ & _ & Hd & H0 & Hdot).
    unfold Strtod.subject. rewrite Hw. cbn [app].
    destruct (no_number_at_letter neg a (t ++ rest) Hd H0 Hdot) as [-> ->].
    change (a :: t ++ rest) with ((a :: t) ++ rest). rewrite <- Hw.
    destruct Hword as [Hword | Hword].
    + apply special_inf; assumption.
    + apply special_infinity; assumption.
  - apply andb_true_iff in H as [H Hseq]. apply spells_nan in H.
    assert (forallb Strtod.is_nchar (digits_of seq) = true) as Hseq'.
    { apply forallb_forall. intros c Hc. rewrite <- nchar_is_nchar.
      apply (proj1 (forallb_forall _ _) Hseq c Hc). }
    clear Hseq. rename Hseq' into Hseq.
    exists S754_nan. intros rest Hrest.
    destruct w as [| a t] eqn:Hw; [discriminate H |].
    pose proof H as H'. injection H' as Ha _.
    destruct (letter_facts a _ Ha (or_intror eq_refl)) as (_ & _ & _ & Hd & H0 & Hdot).
    unfold Strtod.subject. cbn [app].
    destruct (no_number_at_letter neg a
                ((t ++ match seq with
                       | None => []
                       | Some s0 => "("%char :: s0 ++ [")"%char]
                       end) ++ rest) Hd H0 Hdot) as [-> ->].
    apply (special_nan neg (a :: t) seq rest H Hseq Hrest).
Qed.

(** [strtod] takes every lexeme whole, and its value does not depend on
    the white space after it. *)
Lemma strtod_lexeme (l : lexeme) :
  is_lexeme l = true ->
  forall rest,
    ended rest ->
    Strtod.strtod (lexeme_text l ++ rest)
    = (fst (Strtod.strtod (lexeme_text l)), length (lexeme_text l)).
Proof.
  intros Hl.
  assert (exists v, forall rest,
            ended rest ->
            Strtod.strtod (lexeme_text l ++ rest) = (v, length (lexeme_text l)))
    as [v Hv].
  { destruct l as [s f]. destruct (form_head s f Hl) as (c & t & Hc & Hsp & Hm & Hp).
    destruct (subject_exact (match s with Minus => true | _ => false end) s f Hl)
      as [v Hv].
    exists v. intros rest Hrest. unfold lexeme_text. cbn [lexeme_sign lexeme_form].
    unfold Strtod.strtod.
    assert (Strtod.span Char.isspace ((sign_text s ++ form_text f) ++ rest)
            = ([], (sign_text s ++ form_text f) ++ rest)) as ->.
    { destruct s; cbn [sign_text app]; try (apply span_head; reflexivity).
      rewrite Hc. cbn [app]. apply span_head. exact Hsp. }
    cbn [fst length drop]. rewrite drop_0, <- app_assoc.
    rewrite (sign_of_mark s (form_text f ++ rest))
      by (rewrite Hc; cbn [app]; split; assumption).
    cbn [Nat.add]. rewrite drop_app_length, (Hv rest Hrest), length_app. reflexivity. }
  intros rest Hrest. rewrite (Hv rest Hrest).
  pose proof (Hv [] I) as H0. rewrite app_nil_r in H0. rewrite H0. reflexivity.
Qed.

Lemma parse_number_lexeme (l : lexeme) raw dp p (rest : list ascii) :
  is_lexeme l = true ->
  (p <= length raw)%nat -> drop p raw = lexeme_text l ++ rest -> ended rest ->
  parse_number (mkBuffer raw dp p)
  = (Ok (fst (Strtod.strtod (lexeme_text l))),
     mkBuffer raw dp (p + length (lexeme_text l))).
Proof.
  intros Hl Hp Hd Hrest. unfold parse_number, raw_size. cbn [pos raw_json].
  destruct (Nat.leb_spec p (length raw)) as [_ | Hgt]; [| lia].
  rewrite Hd, (strtod_lexeme l Hl rest Hrest).
  destruct l as [s f]. destruct (form_head s f Hl) as (c & t & Hc & _).
  unfold lexeme_text. cbn [lexeme_sign lexeme_form]. rewrite Hc, length_app.
  cbn [length]. rewrite Nat.add_succ_r. reflexivity.
Qed.

(** The top-level call on a lexeme that starts with a sign or a digit,
    with white space after it. *)
Lemma parse_lexeme (NESTING_LIMIT : Z) (l : lexeme) (ws : list ascii) :
  is_lexeme l = true -> routed l = true -> forallb Char.isspace ws = true ->
  parse NESTING_LIMIT (lexeme_text l ++ ws)
  = (Ok 1%positive,
     mkWorld (mkBuffer (lexeme_text l ++ ws) 0 (length (lexeme_text l ++ ws)))
       {[ 1%positive := number_node (fst (Strtod.strtod (lexeme_text l))) ]}
       2%positive).
Proof.
  intros Hl Hr Hws.
  assert (ended ws) as Hend.
  { destruct ws as [| c r]; [exact I |]. cbn [forallb] in Hws.
    apply andb_true_iff in Hws as [Hc _]. cbn [ended]. unfold follows.
    rewrite Hc. reflexivity. }
  pose proof (strtod_lexeme l Hl ws Hend) as Hnum.
  set (v := fst (Strtod.strtod (lexeme_text l))) in *.
  unfold routed in Hr. destruct (lexeme_text l) as [| c t] eqn:Htext; [discriminate Hr |].
  set (raw := (c :: t) ++ ws) in *.
  assert (drop 0 raw = c :: t ++ ws) as Hd by reflexivity.
  assert (Char.isspace c = false /\ Char.eqb c Char.quote = false) as [Hsp Hq].
  { revert Hr. clear. destruct c as [[] [] [] [] [] [] [] []]; vm_compute; intros H;
      try discriminate H; split; reflexivity. }
  unfold parse, fresh.
  replace (2 * length raw + 2)%nat with (S (2 * length raw + 1)) by lia.
  rewrite Run.parse_json_unfold. unfold parse_json_body.
  rewrite (Exec.bind_ok new_JSONItem _ _ 1%positive
             (mkWorld (mkBuffer raw 0 0) (<[1%positive := zero_item]> ∅) 2%positive))
    by reflexivity.
  rewrite (Exec.bind_ok _ _ _ _ _
             (Exec.skip_stays raw 0 0 _ _ ltac:(lia) ltac:(exact Hsp))).
  rewrite (Exec.bind_ok (try_catch _ _) _ _ tt
             (mkWorld (mkBuffer raw 0 (length (c :: t)))
                {[ 1%positive := number_node v ]} 2%positive)).
  2:{ unfold try_catch, dispatch.
      rewrite (Exec.bind_ok get_buf _ _ _ _ eq_refl). cbn [buf].
      rewrite (Exec.looking_at_head raw 0 0 c (t ++ ws) _ Hd), Hq.
      rewrite (Exec.starts_number_head raw 0 0 c (t ++ ws) Hd), Hr.
      rewrite (Exec.bind_ok _ _ _ _ _
                 (Exec.update_live 1%positive _ _ _ _ _ (lookup_insert_eq _ _ _))).
      rewrite (Exec.bind_ok (on_buffer parse_number) _ _ v
                 (mkWorld (mkBuffer raw 0 (length (c :: t)))
                    (<[1%positive := with_type j_number zero_item]>
                       (<[1%positive := zero_item]> ∅)) 2%positive)).
      2:{ apply Exec.on_buffer_eq. unfold parse_number, raw_size.
          cbn [pos raw_json Nat.leb]. rewrite drop_0, Hnum.
          reflexivity. }
      rewrite (Exec.update_live 1%positive _ _ _ _ _ (lookup_insert_eq _ _ _)).
      rewrite !insert_insert_eq. reflexivity. }
  rewrite (Exec.bind_ok _ _ _ _ _
             (Build.skip_run raw 0 (length (c :: t)) ws [] _ _
                ltac:(unfold raw; rewrite length_app; lia)
                ltac:(unfold raw; rewrite app_nil_r; apply drop_app_length) Hws I)).
  unfold bind, get_buf, ret, throw, raw_size.
  cbn [buf depth pos raw_json Z.eqb andb].
  assert (length raw = length (c :: t) + length ws)%nat as ->
    by (unfold raw; apply length_app).
  rewrite Nat.eqb_refl. reflexivity.
Qed.

End Lexemes.

(** * The claims of the specification *)

Import Document Behaviour.

(** C1.  A failed parse does not always free what it allocated.  On
    [1five] the root node is built, [TrailingJunk] is thrown after the
    [try] block, and the node stays live; on [[1,x]] the first element stays
    live, since the chain of [parse_array] is not yet attached to the array
    node that the handler destroys. *)
Theorem failed_parse_leaks_nodes :
  parse PARSER_NESTING_LIMIT (bytes "1five")
  = (Throw TrailingJunk,
     mkWorld (mkBuffer (bytes "1five") 0 1)
       {[ 1%positive := number_node (S754_finite false 4503599627370496 (-52)) ]}
       2%positive) /\
  parse PARSER_NESTING_LIMIT (bytes "[1,x]")
  = (Throw InvalidJSON,
     mkWorld (mkBuffer (bytes "[1,x]") 1 3)
       {[ 2%positive := number_node (S754_finite false 4503599627370496 (-52)) ]}
       4%positive).
Proof. split; vm_compute; reflexivity. Qed.

(** C2.  The escapes of a double quote, of a backslash and of a slash
    append their byte and then run into the [default] label: the string
    scanner throws [UnknownEscape] on each of them, so the literal made of
    a, an escaped double quote and b is rejected. *)
Theorem escaped_quote_is_rejected :
  parse_string (mkBuffer (json "'a\'b'") 0 1)
  = (Throw (UnknownEscape 2), mkBuffer (json "'a\'b'") 0 2) /\
  fst (parse PARSER_NESTING_LIMIT (json "'a\'b'")) = Throw (UnknownEscape 2) /\
  (forall rest p out,
      parse_string_from (Char.backslash :: Char.quote :: rest) p out
      = (Throw (UnknownEscape p), p)) /\
  (forall rest p out,
      parse_string_from (Char.backslash :: Char.backslash :: rest) p out
      = (Throw (UnknownEscape p), p)) /\
  (forall rest p out,
      parse_string_from (Char.backslash :: "/"%char :: rest) p out
      = (Throw (UnknownEscape p), p)).
Proof. repeat split; vm_compute; reflexivity. Qed.

(** C3.  The depth counter is not restored on the empty-container return
    nor on an error exit: after [[]] the parse has succeeded with depth 1,
    and after [[1 2]] it has failed with depth 1. *)
Theorem depth_is_left_raised :
  fst (parse PARSER_NESTING_LIMIT (bytes "[]")) = Ok 1%positive /\
  depth (buf (snd (parse PARSER_NESTING_LIMIT (bytes "[]")))) = 1 /\
  fst (parse PARSER_NESTING_LIMIT (bytes "[1 2]")) = Throw (InvalidArrayContinuation 3) /\
  depth (buf (snd (parse PARSER_NESTING_LIMIT (bytes "[1 2]")))) = 1.
Proof. repeat split; vm_compute; reflexivity. Qed.

(** C4.  An empty container as an element ends the enclosing array: on
    [[[],1]] the root array gets one child, the empty array, and the
    element [1] is never parsed. *)
Theorem empty_element_cuts_the_chain :
  fst (parse PARSER_NESTING_LIMIT (bytes "[[],1]")) = Ok 1%positive /\
  children (heap (snd (parse PARSER_NESTING_LIMIT (bytes "[[],1]")))) 1 = [2%positive] /\
  heap (snd (parse PARSER_NESTING_LIMIT (bytes "[[],1]"))) !! 2%positive
  = Some (with_type j_array zero_item) /\
  pos (buf (snd (parse PARSER_NESTING_LIMIT (bytes "[[],1]")))) = 3%nat.
Proof. repeat split; vm_compute; reflexivity. Qed.

(** C5.  Junk after an empty top-level array is accepted: on [[]x] the
    parse returns the root with the cursor at 1 of 3 bytes, because the
    depth is 1 when the outermost call tests for trailing bytes. *)
Theorem junk_after_empty_array_is_accepted :
  fst (parse PARSER_NESTING_LIMIT (bytes "[]x")) = Ok 1%positive /\
  buf (snd (parse PARSER_NESTING_LIMIT (bytes "[]x"))) = mkBuffer (bytes "[]x") 1 1.
Proof. split; vm_compute; reflexivity. Qed.

(** C6.  On an unterminated string literal the scanner stops at the end of
    the input and then consumes a closing quote that is not there: [pos] is
    5 on the 4 bytes of an opening quote and abc, and the next read is
    outside the string. *)
Theorem unterminated_string_overruns :
  parse_string (mkBuffer (json "'abc") 0 1)
  = (Ok (bytes "abc"), mkBuffer (json "'abc") 0 5) /\
  length (json "'abc") = 4%nat /\
  fst (parse PARSER_NESTING_LIMIT (json "'abc")) = Undefined.
Proof. repeat split; vm_compute; reflexivity. Qed.

(** Supporting C7: the limit is tested at entry to either container
    parser, on the incremented depth, before anything is read. *)
Lemma limit_checked_at_entry loop raw p h k :
  parse_array_body PARSER_NESTING_LIMIT loop
    (mkWorld (mkBuffer raw PARSER_NESTING_LIMIT p) h k)
  = (Throw (NestingLimitExceeded p),
     mkWorld (mkBuffer raw (PARSER_NESTING_LIMIT + 1) p) h k) /\
  parse_object_body PARSER_NESTING_LIMIT loop
    (mkWorld (mkBuffer raw PARSER_NESTING_LIMIT p) h k)
  = (Throw (NestingLimitExceeded p),
     mkWorld (mkBuffer raw (PARSER_NESTING_LIMIT + 1) p) h k).
Proof. split; reflexivity. Qed.

(** The boundary on nested empty arrays. *)
Lemma brackets_at_the_limit :
  fst (parse PARSER_NESTING_LIMIT (brackets 1000)) = Ok 1%positive /\
  fst (parse PARSER_NESTING_LIMIT (brackets 1001)) = Throw (NestingLimitExceeded 1001).
Proof. split; vm_compute; reflexivity. Qed.

(** On a well-formed text of the grammar, the nesting alone decides
    between a returned root and [NestingLimitExceeded]. *)
Lemma parse_by_nesting (d : doc) :
  well_formed d = true ->
  if nesting d <=? PARSER_NESTING_LIMIT
  then exists root w, parse PARSER_NESTING_LIMIT (text d) = (Ok root, w)
  else exists q w, parse PARSER_NESTING_LIMIT (text d) = (Throw (NestingLimitExceeded q), w).
Proof.
  intros Hwf.
  assert (0 <= PARSER_NESTING_LIMIT < 2 ^ 32 - 1) as Hrange by (vm_compute; split; congruence).
  destruct (Run.grammar_parses PARSER_NESTING_LIMIT Hrange) as (Hdoc & _).
  pose proof (proj1 Numbers.cost_bound d) as Hcost.
  specialize (Hdoc d Hwf (2 * length (text d) + 2)%nat (text d) 0 0%nat ∅ 1%positive []
                ltac:(lia) ltac:(lia) ltac:(cbn [drop]; rewrite app_nil_r; reflexivity)
                I ltac:(vm_compute; split; congruence) ltac:(reflexivity)).
  cbv zeta in Hdoc. rewrite Z.add_0_l in Hdoc. unfold parse, fresh.
  destruct (nesting d <=? PARSER_NESTING_LIMIT).
  - destruct Hdoc as (h' & k' & Hrun & _). eauto.
  - destruct Hdoc as (q & b' & h' & k' & Hrun & _). eauto.
Qed.

(** C7.  The nesting limit is not met on every input, because of the
    early return on an empty container.  The text of 999 opening
    brackets, an empty object and 999 closing brackets is nested exactly
    [PARSER_NESTING_LIMIT] deep and is refused, with
    [InvalidArrayContinuation] on the closing brace that the empty object
    left unread.  The text of an array whose elements are an empty array
    and an array nested 1000 deep is nested [PARSER_NESTING_LIMIT + 1]
    deep and is accepted: the parse returns at byte 3 of 2006, before the
    deep element is looked at. *)
Theorem nesting_limit_misses_empty_containers :
  max_nesting (replicate 999 "["%char ++ bytes "{}" ++ replicate 999 "]"%char)
  = PARSER_NESTING_LIMIT /\
  fst (parse PARSER_NESTING_LIMIT
         (replicate 999 "["%char ++ bytes "{}" ++ replicate 999 "]"%char))
  = Throw (InvalidArrayContinuation 1000) /\
  max_nesting (bytes "[[]," ++ text (nest 1000 (Num (bytes "7"))) ++ bytes "]")
  = PARSER_NESTING_LIMIT + 1 /\
  fst (parse PARSER_NESTING_LIMIT
         (bytes "[[]," ++ text (nest 1000 (Num (bytes "7"))) ++ bytes "]"))
  = Ok 1%positive /\
  pos (buf (snd (parse PARSER_NESTING_LIMIT
                   (bytes "[[]," ++ text (nest 1000 (Num (bytes "7"))) ++ bytes "]"))))
  = 3%nat /\
  length (bytes "[[]," ++ text (nest 1000 (Num (bytes "7"))) ++ bytes "]") = 2006%nat.
Proof. repeat split; vm_compute; reflexivity. Qed.

(** C8.  The input [5.9] parses to a single [j_number] node with no name,
    no [next], no [prev] and no [child]; its value is the binary64 number
    nearest to 5.9, namely 6642809450371482 / 2^50. *)
Theorem parse_5_9 :
  parse PARSER_NESTING_LIMIT (bytes "5.9")
  = (Ok 1%positive,
     mkWorld (mkBuffer (bytes "5.9") 0 3)
       {[ 1%positive :=
            {| next := None; prev := None; child := None; name := [];
               type := j_number;
               double_val := S754_finite false 6642809450371482 (-50);
               uint_val := 0; int_val := 0; string_val := []; bool_val := false |} ]}
       2%positive) /\
  2 ^ 52 <= 6642809450371482 < 2 ^ 53 /\
  2 * Z.abs (10 * 6642809450371482 - 59 * 2 ^ 50) <= 10.
Proof. split; [vm_compute; reflexivity | lia]. Qed.

(** C9.  On the empty input no lookahead guard holds, whatever the
    position and the number of bytes asked for, and the parse fails with
    [InvalidJSON] at position 0, with the node of the call freed. *)
Theorem empty_input_is_invalid :
  (forall dp p n, can_read (mkBuffer [] dp p) n = false) /\
  parse PARSER_NESTING_LIMIT []
  = (Throw InvalidJSON, mkWorld (mkBuffer [] 0 0) ∅ 2%positive).
Proof. split; [intros; reflexivity | vm_compute; reflexivity]. Qed.

(** C10.  The number scanner takes the whole lexeme syntax of [strtod]
    (C11 7.22.1.3): for every lexeme, that is an optional sign followed by
    a decimal constant, a hexadecimal constant, INF or INFINITY, or NAN
    with an optional parenthesised sequence, letters in either case,
    followed in the buffer by white space, a comma, a closing bracket or
    brace, or nothing, [parse_number] returns what [strtod] finds and
    moves the cursor over all of its bytes; and when the lexeme starts with a sign or a digit,
    the bytes on which the dispatcher takes the number branch, the parse
    of the lexeme, followed by any white space, returns a single
    [j_number] node with that value.  In particular [0x10] gives 16.  The
    last part pins the values of one lexeme of each form. *)
Theorem strtod_lexemes_are_numbers (l : Lexeme.lexeme) :
  Lexeme.is_lexeme l = true ->
  (forall raw dp p rest,
      (p <= length raw)%nat -> drop p raw = Lexeme.lexeme_text l ++ rest ->
      Lexeme.ended rest ->
      parse_number (mkBuffer raw dp p)
      = (Ok (fst (Strtod.strtod (Lexeme.lexeme_text l))),
         mkBuffer raw dp (p + length (Lexeme.lexeme_text l)))) /\
  (forall ws,
      Lexeme.routed l = true -> forallb Char.isspace ws = true ->
      parse PARSER_NESTING_LIMIT (Lexeme.lexeme_text l ++ ws)
      = (Ok 1%positive,
         mkWorld (mkBuffer (Lexeme.lexeme_text l ++ ws) 0
                    (length (Lexeme.lexeme_text l ++ ws)))
           {[ 1%positive := number_node (fst (Strtod.strtod (Lexeme.lexeme_text l))) ]}
           2%positive)) /\
  parse PARSER_NESTING_LIMIT (bytes "0x10")
  = (Ok 1%positive,
     mkWorld (mkBuffer (bytes "0x10") 0 4)
       {[ 1%positive := number_node (S754_finite false 4503599627370496 (-48)) ]}
       2%positive) /\
  4503599627370496 = 16 * 2 ^ 48 /\
  map (fun s => fst (Strtod.strtod (bytes s)))
    ["0X1P4"; "1e2"; "1E5"; "-0x.8p1"; "-1.5"; "-inf"; "+INFINITY"; "+NaN(x_1)"]%string
  = [S754_finite false (16 * 2 ^ 48) (-48);
     S754_finite false (100 * 2 ^ 46) (-46);
     S754_finite false (100000 * 2 ^ 36) (-36);
     S754_finite true (2 ^ 52) (-52);
     S754_finite true (3 * 2 ^ 51) (-52);
     S754_infinity true; S754_infinity false; S754_nan].
Proof.
  intros Hl. split; [| split; [| split; [| split]]].
  - intros raw dp p rest Hp Hd Hrest.
    apply (Lexemes.parse_number_lexeme l raw dp p rest Hl Hp Hd Hrest).
  - intros ws Hr Hws. apply (Lexemes.parse_lexeme PARSER_NESTING_LIMIT l ws Hl Hr Hws).
  - vm_compute. reflexivity.
  - vm_compute. reflexivity.
  - vm_compute. reflexivity.
Qed.

Lemma strtod_lexemes_are_numbers_witness :
  parse PARSER_NESTING_LIMIT
    (Lexeme.lexeme_text
       (Lexeme.mkLexeme Lexeme.Minus
          (Lexeme.Hexadecimal "X" [] (Some (bytes "8"))
             (Some (Lexeme.mkExponent "P" Lexeme.Plus (bytes "1"))))) ++ bytes " ")
  = (Ok 1%positive,
     mkWorld
       (mkBuffer
          (Lexeme.lexeme_text
             (Lexeme.mkLexeme Lexeme.Minus
                (Lexeme.Hexadecimal "X" [] (Some (bytes "8"))
                   (Some (Lexeme.mkExponent "P" Lexeme.Plus (bytes "1"))))) ++ bytes " ")
          0
          (length
             (Lexeme.lexeme_text
                (Lexeme.mkLexeme Lexeme.Minus
                   (Lexeme.Hexadecimal "X" [] (Some (bytes "8"))
                      (Some (Lexeme.mkExponent "P" Lexeme.Plus (bytes "1"))))) ++ bytes " ")))
       {[ 1%positive :=
            number_node
              (fst (Strtod.strtod
                      (Lexeme.lexeme_text
                         (Lexeme.mkLexeme Lexeme.Minus
                            (Lexeme.Hexadecimal "X" [] (Some (bytes "8"))
                               (Some (Lexeme.mkExponent "P" Lexeme.Plus (bytes "1")))))))) ]}
       2%positive).
Proof.
  apply (proj1 (proj2 (strtod_lexemes_are_numbers
                         (Lexeme.mkLexeme Lexeme.Minus
                            (Lexeme.Hexadecimal "X" [] (Some (bytes "8"))
                               (Some (Lexeme.mkExponent "P" Lexeme.Plus (bytes "1")))))
                         eq_refl))).
  - reflexivity.
  - reflexivity.
Defined.

(** The third scenario of the test driver, as a check of the embedding:
    an object of three members in order, the second an object of two
    members and the third an array of two numbers. *)
Example test_parser_object :
  let r := parse PARSER_NESTING_LIMIT
             (json "{'test': 'harry', 'next': {'inner': 6.2, 'again': null}, 'arr': [1.0, 2.0]}") in
  let h := heap (snd r) in
  fst r = Ok 1%positive /\
  buf (snd r)
  = mkBuffer (json "{'test': 'harry', 'next': {'inner': 6.2, 'again': null}, 'arr': [1.0, 2.0]}") 0 75 /\
  type <$> h !! 1%positive = Some j_object /\
  children h 1 = [2; 3; 6]%positive /\
  map (fun a => name <$> h !! a) (children h 1)
  = [Some (bytes "test"); Some (bytes "next"); Some (bytes "arr")] /\
  map (fun a => type <$> h !! a) (children h 1)
  = [Some j_string; Some j_object; Some j_array] /\
  string_val <$> h !! 2%positive = Some (bytes "harry") /\
  map (fun a => name <$> h !! a) (children h 3) = [Some (bytes "inner"); Some (bytes "again")] /\
  map (fun a => type <$> h !! a) (children h 3) = [Some j_number; Some j_null] /\
  map (fun a => type <$> h !! a) (children h 6) = [Some j_number; Some j_number] /\
  map (fun a => name <$> h !! a) (children h 6) = [Some []; Some []] /\
  map (fun a => prev <$> h !! a) (children h 1) = [Some None; Some (Some 2); Some (Some 3)]%positive.
Proof. vm_compute. repeat split; reflexivity. Qed.

(** * Beyond the claims: the scanners, the tree and its teardown *)

Import Literal Tree Scanners.

(** X1.  [skip_whitespace] from a position inside the buffer moves the
    cursor over white space only, stays inside the buffer, and stops at
    the first byte that is not white space or at the end. *)
Theorem skip_whitespace_stops_at_text (b : ParseBuffer) :
  (pos b <= raw_size b)%nat ->
  exists p',
    skip_whitespace b = (Ok tt, set_pos b p') /\
    (pos b <= p' <= raw_size b)%nat /\
    (forall i, (pos b <= i < p')%nat ->
               exists c, raw_json b !! i = Some c /\ Char.isspace c = true) /\
    (forall c, raw_json b !! p' = Some c -> Char.isspace c = false).
Proof.
  intros Hp. unfold skip_whitespace.
  destruct (Nat.leb_spec (pos b) (raw_size b)) as [_ | Hgt]; [| lia].
  pose proof (skip_whitespace_from_spec (drop (pos b) (raw_json b)) (pos b)) as H.
  cbv zeta in H. set (p' := skip_whitespace_from _ _) in *.
  rewrite length_drop in H. fold (raw_size b) in H.
  destruct H as (Hb & Hall & Hstop).
  exists p'. split; [reflexivity |]. split; [lia |]. split.
  - intros i Hi. rewrite Forall_lookup in Hall.
    assert (is_Some (take (p' - pos b) (drop (pos b) (raw_json b)) !! (i - pos b)%nat))
      as [c Hc].
    { apply lookup_lt_is_Some. rewrite length_take, length_drop.
      fold (raw_size b). lia. }
    exists c. split; [| exact (Hall _ _ Hc)].
    rewrite lookup_take_lt, lookup_drop in Hc by lia.
    replace (pos b + (i - pos b))%nat with i in Hc by lia. exact Hc.
  - intros c Hc. rewrite lookup_drop in Hstop.
    replace (pos b + (p' - pos b))%nat with p' in Hstop by lia.
    rewrite Hc in Hstop. exact Hstop.
Qed.

Lemma skip_whitespace_stops_at_text_witness :
  exists p',
    skip_whitespace (mkBuffer (bytes "  [1]") 0 0)
    = (Ok tt, set_pos (mkBuffer (bytes "  [1]") 0 0) p') /\
    (0 <= p' <= 5)%nat /\
    (forall i, (0 <= i < p')%nat ->
               exists c, bytes "  [1]" !! i = Some c /\ Char.isspace c = true) /\
    (forall c, bytes "  [1]" !! p' = Some c -> Char.isspace c = false).
Proof.
  apply (skip_whitespace_stops_at_text (mkBuffer (bytes "  [1]") 0 0)).
  vm_compute. lia.
Defined.



(** X3.  [parse_string] reads a literal back: the bytes of [s] written
    with the escapes for backspace, form feed, line feed, carriage return
    and tab, up to a closing quote, give [s], and the cursor ends after
    that quote. *)
Theorem parse_string_reads_literal raw dp p (s rest : list ascii) :
  (p <= length raw)%nat -> drop p raw = literal s ++ Char.quote :: rest ->
  plain_string s = true ->
  parse_string (mkBuffer raw dp p)
  = (Ok s, mkBuffer raw dp (p + length (literal s) + 1)).
Proof.
  intros Hp Hd Hs. unfold parse_string, raw_size. cbn [pos raw_json].
  destruct (Nat.leb_spec p (length raw)) as [_ | Hgt]; [| lia].
  rewrite Hd, literal_scanned by exact Hs.
  cbn [parse_string_from app]. change (Char.eqb Char.quote Char.quote) with true.
  cbv iota. unfold set_pos. cbn [raw_json depth].
  rewrite Nat.add_1_r. reflexivity.
Qed.

Lemma parse_string_reads_literal_witness :
  parse_string (mkBuffer (Char.quote :: literal [Char.TAB; "a"%char; Char.LF] ++ [Char.quote]) 0 1)
  = (Ok [Char.TAB; "a"%char; Char.LF],
     mkBuffer (Char.quote :: literal [Char.TAB; "a"%char; Char.LF] ++ [Char.quote]) 0
       (1 + length (literal [Char.TAB; "a"%char; Char.LF]) + 1)).
Proof.
  apply (parse_string_reads_literal _ 0 1 [Char.TAB; "a"%char; Char.LF] []).
  - vm_compute. lia.
  - reflexivity.
  - reflexivity.
Defined.

(** X4.  Every escape other than the five for backspace, form feed, line
    feed, carriage return and tab is rejected: after a backslash, any
    other byte, be it a quote, a backslash, a slash or the u of a code
    point, makes [parse_string] fail with [UnknownEscape] at the position
    of the backslash, where the cursor is left. *)
Theorem parse_string_rejects_escape raw dp p (s : list ascii) (e : ascii) (rest : list ascii) :
  (p <= length raw)%nat ->
  drop p raw = literal s ++ Char.backslash :: e :: rest ->
  plain_string s = true -> decodable e = false ->
  parse_string (mkBuffer raw dp p)
  = (Throw (UnknownEscape (p + length (literal s))),
     mkBuffer raw dp (p + length (literal s))).
Proof.
  intros Hp Hd Hs He. unfold parse_string, raw_size. cbn [pos raw_json].
  destruct (Nat.leb_spec p (length raw)) as [_ | Hgt]; [| lia].
  rewrite Hd, literal_scanned by exact Hs.
  cbn [parse_string_from app].
  change (Char.eqb Char.backslash Char.quote) with false.
  change (Char.eqb Char.backslash Char.backslash) with true.
  cbv iota. cbn [negb].
  assert (exists o, switch_escape e s = IntoDefault o) as [o ->].
  { unfold decodable in He.
    repeat (apply orb_false_iff in He as [He ?]).
    unfold switch_escape.
    repeat match goal with H : _ = false |- _ => rewrite H; clear H end.
    destruct (_ || _)%bool; eexists; reflexivity. }
  reflexivity.
Qed.

Lemma parse_string_rejects_escape_witness :
  parse_string (mkBuffer (json "'a\'b'") 0 1)
  = (Throw (UnknownEscape (1 + length (literal (bytes "a")))),
     mkBuffer (json "'a\'b'") 0 (1 + length (literal (bytes "a")))).
Proof.
  apply (parse_string_rejects_escape _ 0 1 (bytes "a") Char.quote (bytes "b" ++ [Char.quote])).
  - vm_compute. lia.
  - reflexivity.
  - reflexivity.
  - reflexivity.
Defined.

(** X5.  A backslash as the last byte of the buffer makes [parse_string]
    fail with [PrematurelyTerminatedEscape] at its position. *)
Theorem parse_string_lone_backslash raw dp p (s : list ascii) :
  (p <= length raw)%nat -> drop p raw = literal s ++ [Char.backslash] ->
  plain_string s = true ->
  parse_string (mkBuffer raw dp p)
  = (Throw (PrematurelyTerminatedEscape (p + length (literal s))),
     mkBuffer raw dp (p + length (literal s))).
Proof.
  intros Hp Hd Hs. unfold parse_string, raw_size. cbn [pos raw_json].
  destruct (Nat.leb_spec p (length raw)) as [_ | Hgt]; [| lia].
  rewrite Hd, literal_scanned by exact Hs.
  cbn [parse_string_from app].
  change (Char.eqb Char.backslash Char.quote) with false.
  change (Char.eqb Char.backslash Char.backslash) with true.
  reflexivity.
Qed.

Lemma parse_string_lone_backslash_witness :
  parse_string (mkBuffer (json "'ab" ++ [Char.backslash]) 0 1)
  = (Throw (PrematurelyTerminatedEscape (1 + length (literal (bytes "ab")))),
     mkBuffer (json "'ab" ++ [Char.backslash]) 0 (1 + length (literal (bytes "ab")))).
Proof.
  apply (parse_string_lone_backslash _ 0 1 (bytes "ab")).
  - vm_compute. lia.
  - reflexivity.
  - reflexivity.
Defined.

(** X6.  A literal that runs to the end of the buffer without a closing
    quote is accepted: [parse_string] returns its bytes and leaves the
    cursor one past the end of the buffer. *)
Theorem parse_string_without_closing_quote raw dp p (s : list ascii) :
  (p <= length raw)%nat -> drop p raw = literal s ->
  plain_string s = true ->
  parse_string (mkBuffer raw dp p) = (Ok s, mkBuffer raw dp (length raw + 1)).
Proof.
  intros Hp Hd Hs. unfold parse_string, raw_size. cbn [pos raw_json].
  destruct (Nat.leb_spec p (length raw)) as [_ | Hgt]; [| lia].
  pose proof (literal_scanned s [] p [] Hs) as Hrun.
  rewrite app_nil_r in Hrun. rewrite Hd, Hrun.
  cbn [parse_string_from app]. unfold set_pos. cbn [raw_json depth].
  apply (f_equal length) in Hd. rewrite length_drop in Hd.
  do 2 f_equal. lia.
Qed.

Lemma parse_string_without_closing_quote_witness :
  parse_string (mkBuffer (json "'abc") 0 1)
  = (Ok (bytes "abc"), mkBuffer (json "'abc") 0 (length (json "'abc") + 1)).
Proof.
  apply (parse_string_without_closing_quote _ 0 1 (bytes "abc")).
  - vm_compute. lia.
  - reflexivity.
  - reflexivity.
Defined.

(** X7.  [parse_number] from a position inside the buffer either returns
    the value [strtod] finds there, with the cursor moved forward by the
    bytes [strtod] took, at least one and never beyond the end of the
    buffer; or it fails with [BadNumber] at the position of the call and
    leaves the buffer as it was. *)
Theorem parse_number_result (b : ParseBuffer) :
  (pos b <= raw_size b)%nat ->
  match parse_number b with
  | (Ok v, b') =>
      raw_json b' = raw_json b /\ depth b' = depth b /\
      (pos b < pos b' <= raw_size b)%nat /\
      Strtod.strtod (drop (pos b) (raw_json b)) = (v, (pos b' - pos b)%nat)
  | (Throw e, b') => e = BadNumber (pos b) /\ b' = b
  | _ => False
  end.
Proof.
  intros Hp. unfold parse_number.
  destruct (Nat.leb_spec (pos b) (raw_size b)) as [_ | Hgt]; [| lia].
  pose proof (strtod_length (drop (pos b) (raw_json b))) as Hlen.
  rewrite length_drop in Hlen. fold (raw_size b) in Hlen.
  destruct (Strtod.strtod (drop (pos b) (raw_json b))) as [v n]. cbn [snd] in Hlen.
  destruct (Nat.eqb_spec n 0) as [-> | Hn].
  - split; reflexivity.
  - cbn [set_pos raw_json depth pos]. repeat split; try lia.
    f_equal. lia.
Qed.

Lemma parse_number_result_witness :
  bytes "[12]" = bytes "[12]" /\ 0 = 0 /\ (1 < 3 <= 4)%nat /\
  Strtod.strtod (drop 1 (bytes "[12]"))
  = (fst (Strtod.strtod (bytes "12")), (3 - 1)%nat).
Proof.
  apply (parse_number_result (mkBuffer (bytes "[12]") 0 1)).
  vm_compute. lia.
Defined.

(** X8.  An input with no value in it, that is white space followed by
    nothing or by a byte on which no value can start, fails with
    [InvalidJSON]; the cursor is left after the white space, and the node
    of the call is freed. *)
Theorem text_without_value_is_invalid (NESTING_LIMIT : Z) (ws rest : list ascii) :
  forallb Char.isspace ws = true -> no_value_at rest = true ->
  parse NESTING_LIMIT (ws ++ rest)
  = (Throw InvalidJSON, mkWorld (mkBuffer (ws ++ rest) 0 (length ws)) ∅ 2%positive).
Proof.
  intros Hws Hno. unfold parse, fresh.
  replace (2 * length (ws ++ rest) + 2)%nat with (S (2 * length (ws ++ rest) + 1)) by lia.
  cbn [parse_json]. unfold parse_json_body.
  rewrite (Exec.bind_ok new_JSONItem _ _ 1%positive
             (mkWorld (mkBuffer (ws ++ rest) 0 0) (<[1%positive := zero_item]> ∅) 2%positive))
    by reflexivity.
  assert (match rest with c :: _ => Char.isspace c = false | [] => True end) as Hrest.
  { destruct rest as [| c l]; [exact I |]. cbn [no_value_at] in Hno.
    apply andb_true_iff in Hno as [Hs _]. apply negb_true_iff in Hs. exact Hs. }
  rewrite (Exec.bind_ok _ _ _ _ _
             (Exec.on_buffer_eq _ _ _ _ _ _ (skip_whitespace_app ws rest 0 Hws Hrest))).
  apply Exec.bind_throw. unfold try_catch.
  rewrite (dispatch_no_value _ _ _ (ws ++ rest) 0 (length ws) _ _ rest);
    [| rewrite length_app; lia | apply drop_app_length | exact Hno].
  rewrite (Exec.bind_ok _ _ _ _ _
             (Run.destroy_leaf 1%positive zero_item _ _ _ (lookup_insert_eq _ _ _) eq_refl eq_refl)).
  rewrite delete_insert_eq, delete_empty. reflexivity.
Qed.

Lemma text_without_value_is_invalid_witness :
  parse PARSER_NESTING_LIMIT (bytes "  " ++ bytes "]")
  = (Throw InvalidJSON,
     mkWorld (mkBuffer (bytes "  " ++ bytes "]") 0 (length (bytes "  "))) ∅ 2%positive).
Proof.
  apply (text_without_value_is_invalid PARSER_NESTING_LIMIT (bytes "  ") (bytes "]")).
  - reflexivity.
  - reflexivity.
Defined.

Import Build.

(** X9.  The texts meant here are those of the grammar [doc] that are
    [well_formed]: [null], [true], [false], unsigned decimal integers,
    string literals without quote or backslash, non-empty arrays, and
    non-empty objects whose names are such strings, written with no white
    space inside.  For every such text nested no deeper than
    [PARSER_NESTING_LIMIT], with any white space before and after it,
    the parse returns the first node as root and leaves the cursor at the
    end of the input with depth zero.  The heap then holds the tree of
    the text node by node ([rep]): each node has the kind and the value of
    its element (for a number, what [strtod] gives on its digits), the
    root and the elements of an array have the empty
    name, the members of an object have their names, [child] is the first
    element, and [next] and [prev] chain the elements in the order of the
    text.  Read back from the root ([read_tree], which follows [child]
    and [next], collects the names and checks every [prev]), the tree
    gives the value of the text. *)
Theorem parse_reads_back (ws1 : list ascii) (d : doc) (ws2 : list ascii) :
  forallb Char.isspace ws1 = true ->
  well_formed d = true -> nesting d <= PARSER_NESTING_LIMIT ->
  forallb Char.isspace ws2 = true ->
  exists w,
    parse PARSER_NESTING_LIMIT (ws1 ++ text d ++ ws2) = (Ok 1%positive, w) /\
    buf w = mkBuffer (ws1 ++ text d ++ ws2) 0 (length (ws1 ++ text d ++ ws2)) /\
    rep (heap w) 1 d [] None None /\
    read_tree (heap w) 1 = Some [([], value_of d)].
Proof.
  intros Hws1 Hwf Hn Hws2.
  destruct (parse_framed PARSER_NESTING_LIMIT ws1 d ws2 []
              ltac:(vm_compute; split; congruence) Hws1 Hwf Hn Hws2 I
              (spaces_end_value ws2 [] Hws2 eq_refl))
    as (h & Hrun & Hrep & _).
  rewrite app_nil_r in Hrun. eexists. split; [exact Hrun |].
  cbn [buf heap]. split; [| split].
  - rewrite !length_app. f_equal. lia.
  - exact Hrep.
  - apply read_tree_built, Hrep.
Qed.

Lemma parse_reads_back_witness :
  exists w,
    parse PARSER_NESTING_LIMIT
      (bytes " " ++ text (Obj (MoreMembers (bytes "a") (Arr (More (Num (bytes "1")) (Last Null)))
                                (LastMember (bytes "b") (Str (bytes "x"))))) ++ bytes " ")
    = (Ok 1%positive, w) /\
    buf w
    = mkBuffer
        (bytes " " ++ text (Obj (MoreMembers (bytes "a") (Arr (More (Num (bytes "1")) (Last Null)))
                                  (LastMember (bytes "b") (Str (bytes "x"))))) ++ bytes " ")
        0
        (length (bytes " " ++ text (Obj (MoreMembers (bytes "a")
                                            (Arr (More (Num (bytes "1")) (Last Null)))
                                            (LastMember (bytes "b") (Str (bytes "x"))))) ++ bytes " ")) /\
    rep (heap w) 1
      (Obj (MoreMembers (bytes "a") (Arr (More (Num (bytes "1")) (Last Null)))
              (LastMember (bytes "b") (Str (bytes "x"))))) [] None None /\
    read_tree (heap w) 1
    = Some [([], value_of (Obj (MoreMembers (bytes "a") (Arr (More (Num (bytes "1")) (Last Null)))
                                  (LastMember (bytes "b") (Str (bytes "x"))))))].
Proof.
  apply (parse_reads_back (bytes " ")
           (Obj (MoreMembers (bytes "a") (Arr (More (Num (bytes "1")) (Last Null)))
                   (LastMember (bytes "b") (Str (bytes "x")))))
           (bytes " ")).
  - reflexivity.
  - reflexivity.
  - vm_compute. discriminate.
  - reflexivity.
Defined.

(** X10.  For every [well_formed] text of the grammar [doc] (scalars
    [null], [true], [false], unsigned decimal integers, string literals
    without quote or backslash; non-empty arrays and objects; no white
    space inside) nested no deeper than [PARSER_NESTING_LIMIT], with any
    white space before and after it, the parse allocates one node for each
    value of the text and nothing else: when it returns, the heap holds
    exactly as many nodes as the text has values. *)
Theorem parse_allocates_one_node_per_value (ws1 : list ascii) (d : doc) (ws2 : list ascii) :
  forallb Char.isspace ws1 = true ->
  well_formed d = true -> nesting d <= PARSER_NESTING_LIMIT ->
  forallb Char.isspace ws2 = true ->
  exists w,
    parse PARSER_NESTING_LIMIT (ws1 ++ text d ++ ws2) = (Ok 1%positive, w) /\
    size (heap w) = Pos.to_nat (nodes d) /\
    brk w = (1 + nodes d)%positive.
Proof.
  intros Hws1 Hwf Hn Hws2.
  destruct (parse_framed PARSER_NESTING_LIMIT ws1 d ws2 []
              ltac:(vm_compute; split; congruence) Hws1 Hwf Hn Hws2 I
              (spaces_end_value ws2 [] Hws2 eq_refl))
    as (h & Hrun & Hrep & Hfr).
  rewrite app_nil_r in Hrun. eexists. split; [exact Hrun |].
  cbn [heap brk]. split; [| reflexivity].
  apply rep_exact; assumption.
Qed.

Lemma parse_allocates_one_node_per_value_witness :
  exists w,
    parse PARSER_NESTING_LIMIT
      ([] ++ text (Arr (More (Num (bytes "1")) (Last (Arr (Last (Bool true)))))) ++ [])
    = (Ok 1%positive, w) /\
    size (heap w)
    = Pos.to_nat (nodes (Arr (More (Num (bytes "1")) (Last (Arr (Last (Bool true))))))) /\
    brk w = (1 + nodes (Arr (More (Num (bytes "1")) (Last (Arr (Last (Bool true)))))))%positive.
Proof.
  apply (parse_allocates_one_node_per_value []
           (Arr (More (Num (bytes "1")) (Last (Arr (Last (Bool true)))))) []).
  - reflexivity.
  - reflexivity.
  - vm_compute. discriminate.
  - reflexivity.
Defined.

(** X11.  For every [well_formed] text of the grammar [doc] (scalars
    [null], [true], [false], unsigned decimal integers, string literals
    without quote or backslash; non-empty arrays and objects; no white
    space inside) nested no deeper than [PARSER_NESTING_LIMIT], with any
    white space before and after it, [destroy_json] on the root that the
    parse returns frees every node of the tree: it ends without touching
    a freed node and leaves the heap empty. *)
Theorem destroy_frees_the_tree (ws1 : list ascii) (d : doc) (ws2 : list ascii) :
  forallb Char.isspace ws1 = true ->
  well_formed d = true -> nesting d <= PARSER_NESTING_LIMIT ->
  forallb Char.isspace ws2 = true ->
  exists w,
    parse PARSER_NESTING_LIMIT (ws1 ++ text d ++ ws2) = (Ok 1%positive, w) /\
    destroy_json (Some 1%positive) w = (Ok tt, set_heap w ∅).
Proof.
  intros Hws1 Hwf Hn Hws2.
  destruct (parse_framed PARSER_NESTING_LIMIT ws1 d ws2 []
              ltac:(vm_compute; split; congruence) Hws1 Hwf Hn Hws2 I
              (spaces_end_value ws2 [] Hws2 eq_refl))
    as (h & Hrun & Hrep & Hfr).
  rewrite app_nil_r in Hrun. eexists. split; [exact Hrun |].
  apply destroy_exact with d; assumption.
Qed.

Lemma destroy_frees_the_tree_witness :
  exists w,
    parse PARSER_NESTING_LIMIT
      ([] ++ text (Obj (LastMember (bytes "k") (Arr (More Null (Last (Str (bytes "s"))))))) ++ [])
    = (Ok 1%positive, w) /\
    destroy_json (Some 1%positive) w = (Ok tt, set_heap w ∅).
Proof.
  apply (destroy_frees_the_tree []
           (Obj (LastMember (bytes "k") (Arr (More Null (Last (Str (bytes "s"))))))) []).
  - reflexivity.
  - reflexivity.
  - vm_compute. discriminate.
  - reflexivity.
Defined.

(** X12.  For every [well_formed] text of the grammar [doc] (scalars
    [null], [true], [false], unsigned decimal integers, string literals
    without quote or backslash; non-empty arrays and objects, so not [[]]
    or [{}]; no white space inside) nested no deeper than
    [PARSER_NESTING_LIMIT]: when the text, after optional white space, is
    followed by a byte [c] that is not white space, and [c] either comes
    after white space or is a comma or a closing bracket or brace, the
    parse fails with [TrailingJunk] with the cursor on [c].  The error is
    raised after the tree is built and outside the handler that tears it
    down, so the heap still holds the whole tree of the text, node by node
    ([rep], as in X9), when the caller gets the error. *)
Theorem junk_after_value_leaves_tree
    (ws1 : list ascii) (d : doc) (ws2 : list ascii) (c : ascii) (junk : list ascii) :
  forallb Char.isspace ws1 = true ->
  well_formed d = true -> nesting d <= PARSER_NESTING_LIMIT ->
  forallb Char.isspace ws2 = true ->
  Char.isspace c = false -> ends_value (ws2 ++ [c]) = true ->
  exists w,
    parse PARSER_NESTING_LIMIT (ws1 ++ text d ++ ws2 ++ c :: junk) = (Throw TrailingJunk, w) /\
    pos (buf w) = (length ws1 + length (text d) + length ws2)%nat /\
    size (heap w) = Pos.to_nat (nodes d) /\
    rep (heap w) 1 d [] None None /\
    read_tree (heap w) 1 = Some [([], value_of d)].
Proof.
  intros Hws1 Hwf Hn Hws2 Hc Hends.
  destruct (parse_framed PARSER_NESTING_LIMIT ws1 d ws2 (c :: junk)
              ltac:(vm_compute; split; congruence) Hws1 Hwf Hn Hws2 Hc
              ltac:(destruct ws2; exact Hends))
    as (h & Hrun & Hrep & Hfr).
  eexists. split; [exact Hrun |].
  cbn [buf heap pos]. split; [reflexivity |]. split; [| split].
  - apply rep_exact; assumption.
  - exact Hrep.
  - apply read_tree_built, Hrep.
Qed.

Lemma junk_after_value_leaves_tree_witness :
  exists w,
    parse PARSER_NESTING_LIMIT
      ([] ++ text (Arr (More (Num (bytes "1")) (Last (Num (bytes "2"))))) ++ bytes " " ++ "x"%char :: [])
    = (Throw TrailingJunk, w) /\
    pos (buf w)
    = (length (@nil ascii) + length (text (Arr (More (Num (bytes "1")) (Last (Num (bytes "2"))))))
       + length (bytes " "))%nat /\
    size (heap w) = Pos.to_nat (nodes (Arr (More (Num (bytes "1")) (Last (Num (bytes "2")))))) /\
    rep (heap w) 1 (Arr (More (Num (bytes "1")) (Last (Num (bytes "2"))))) [] None None /\
    read_tree (heap w) 1
    = Some [([], value_of (Arr (More (Num (bytes "1")) (Last (Num (bytes "2"))))))].
Proof.
  apply (junk_after_value_leaves_tree []
           (Arr (More (Num (bytes "1")) (Last (Num (bytes "2"))))) (bytes " ") "x" []).
  - reflexivity.
  - reflexivity.
  - vm_compute. discriminate.
  - reflexivity.
  - reflexivity.
  - reflexivity.
Defined.

(** X13.  An input that starts with an empty array or an empty object,
    with or without white space between the brackets, parses to a single
    node of that kind without children, whatever follows the closing
    bracket: the closing bracket is not consumed and the depth is left at
    one, so the text after the container is never looked at. *)
Theorem empty_container_ends_the_parse (ws rest : list ascii) :
  forallb Char.isspace ws = true ->
  parse PARSER_NESTING_LIMIT ("["%char :: ws ++ "]"%char :: rest)
  = (Ok 1%positive,
     mkWorld (mkBuffer ("["%char :: ws ++ "]"%char :: rest) 1 (1 + length ws))
       {[ 1%positive := with_type j_array zero_item ]} 2%positive) /\
  parse PARSER_NESTING_LIMIT ("{"%char :: ws ++ "}"%char :: rest)
  = (Ok 1%positive,
     mkWorld (mkBuffer ("{"%char :: ws ++ "}"%char :: rest) 1 (1 + length ws))
       {[ 1%positive := with_type j_object zero_item ]} 2%positive).
Proof.
  intros Hws. split.
  - set (raw := "["%char :: ws ++ "]"%char :: rest).
    assert (length raw = S (length ws + S (length rest))) as Hlen.
    { unfold raw. cbn [length]. rewrite length_app. reflexivity. }
    assert (drop (1 + length ws) raw = "]"%char :: rest) as Hd.
    { unfold raw. cbn [Nat.add drop]. apply drop_app_length. }
    unfold parse, fresh. fold raw.
    replace (2 * length raw + 2)%nat with (S (2 * length raw + 1)) by lia.
    rewrite Run.parse_json_unfold. unfold parse_json_body.
    rewrite (Exec.bind_ok new_JSONItem _ _ 1%positive
               (mkWorld (mkBuffer raw 0 0) (<[1%positive := zero_item]> ∅) 2%positive))
      by reflexivity.
    rewrite (Exec.bind_ok _ _ _ _ _
               (Exec.skip_stays raw 0 0 _ _ ltac:(lia) ltac:(reflexivity))).
    rewrite (Exec.bind_ok (try_catch _ _) _ _ tt
               (mkWorld (mkBuffer raw 1 (1 + length ws))
                  {[ 1%positive := with_type j_array zero_item ]} 2%positive)).
    2:{ unfold try_catch.
        rewrite (Run.dispatch_array _ _ raw 0 0 _ 2%positive 1%positive zero_item
                   (ws ++ "]"%char :: rest) eq_refl (lookup_insert_eq _ _ _)).
        cbn [Nat.add].
        rewrite (Exec.bind_ok _ _ _ None
                   (mkWorld (mkBuffer raw 1 (1 + length ws))
                      (<[1%positive := with_type j_array zero_item]>
                         (<[1%positive := zero_item]> ∅)) 2%positive)).
        - rewrite (Exec.update_live 1%positive _ _ _ _ _ (lookup_insert_eq _ _ _)).
          rewrite !insert_insert_eq. reflexivity.
        - unfold parse_array_body.
          rewrite (Exec.bind_ok incr_depth _ _ tt
                     (mkWorld (mkBuffer raw 1 1)
                        (<[1%positive := with_type j_array zero_item]>
                           (<[1%positive := zero_item]> ∅)) 2%positive))
            by reflexivity.
          rewrite (Exec.bind_ok get_buf _ _ _ _ eq_refl). cbn [buf depth pos].
          change (1 >? PARSER_NESTING_LIMIT) with false. cbv iota.
          rewrite (Exec.bind_ok _ _ _ _ _
                     (skip_run raw 1 1 ws ("]"%char :: rest) _ _ ltac:(lia) eq_refl Hws
                        ltac:(reflexivity))).
          rewrite (Exec.bind_ok _ _ _ _ _
                     (Exec.peek_head raw 1 (1 + length ws) _ _ "]"%char rest Hd)).
          reflexivity. }
    rewrite (Exec.bind_ok _ _ _ _ _
               (Exec.skip_stays raw 1 (1 + length ws) _ _ ltac:(lia)
                  ltac:(rewrite Hd; reflexivity))).
    reflexivity.
  - set (raw := "{"%char :: ws ++ "}"%char :: rest).
    assert (length raw = S (length ws + S (length rest))) as Hlen.
    { unfold raw. cbn [length]. rewrite length_app. reflexivity. }
    assert (drop (1 + length ws) raw = "}"%char :: rest) as Hd.
    { unfold raw. cbn [Nat.add drop]. apply drop_app_length. }
    unfold parse, fresh. fold raw.
    replace (2 * length raw + 2)%nat with (S (2 * length raw + 1)) by lia.
    rewrite Run.parse_json_unfold. unfold parse_json_body.
    rewrite (Exec.bind_ok new_JSONItem _ _ 1%positive
               (mkWorld (mkBuffer raw 0 0) (<[1%positive := zero_item]> ∅) 2%positive))
      by reflexivity.
    rewrite (Exec.bind_ok _ _ _ _ _
               (Exec.skip_stays raw 0 0 _ _ ltac:(lia) ltac:(reflexivity))).
    rewrite (Exec.bind_ok (try_catch _ _) _ _ tt
               (mkWorld (mkBuffer raw 1 (1 + length ws))
                  {[ 1%positive := with_type j_object zero_item ]} 2%positive)).
    2:{ unfold try_catch.
        rewrite (Run.dispatch_object _ _ raw 0 0 _ 2%positive 1%positive zero_item
                   (ws ++ "}"%char :: rest) eq_refl (lookup_insert_eq _ _ _)).
        cbn [Nat.add].
        rewrite (Exec.bind_ok _ _ _ None
                   (mkWorld (mkBuffer raw 1 (1 + length ws))
                      (<[1%positive := with_type j_object zero_item]>
                         (<[1%positive := zero_item]> ∅)) 2%positive)).
        - rewrite (Exec.update_live 1%positive _ _ _ _ _ (lookup_insert_eq _ _ _)).
          rewrite !insert_insert_eq. reflexivity.
        - unfold parse_object_body.
          rewrite (Exec.bind_ok incr_depth _ _ tt
                     (mkWorld (mkBuffer raw 1 1)
                        (<[1%positive := with_type j_object zero_item]>
                           (<[1%positive := zero_item]> ∅)) 2%positive))
            by reflexivity.
          rewrite (Exec.bind_ok get_buf _ _ _ _ eq_refl). cbn [buf depth pos].
          change (1 >? PARSER_NESTING_LIMIT) with false. cbv iota.
          rewrite (Exec.bind_ok _ _ _ _ _
                     (skip_run raw 1 1 ws ("}"%char :: rest) _ _ ltac:(lia) eq_refl Hws
                        ltac:(reflexivity))).
          rewrite (Exec.bind_ok _ _ _ _ _
                     (Exec.peek_head raw 1 (1 + length ws) _ _ "}"%char rest Hd)).
          reflexivity. }
    rewrite (Exec.bind_ok _ _ _ _ _
               (Exec.skip_stays raw 1 (1 + length ws) _ _ ltac:(lia)
                  ltac:(rewrite Hd; reflexivity))).
    reflexivity.
Qed.

Lemma empty_container_ends_the_parse_witness :
  parse PARSER_NESTING_LIMIT ("["%char :: bytes " " ++ "]"%char :: bytes "]]")
  = (Ok 1%positive,
     mkWorld (mkBuffer ("["%char :: bytes " " ++ "]"%char :: bytes "]]") 1 (1 + length (bytes " ")))
       {[ 1%positive := with_type j_array zero_item ]} 2%positive) /\
  parse PARSER_NESTING_LIMIT ("{"%char :: bytes " " ++ "}"%char :: bytes "]]")
  = (Ok 1%positive,
     mkWorld (mkBuffer ("{"%char :: bytes " " ++ "}"%char :: bytes "]]") 1 (1 + length (bytes " ")))
       {[ 1%positive := with_type j_object zero_item ]} 2%positive).
Proof.
  apply (empty_container_ends_the_parse (bytes " ") (bytes "]]")).
  reflexivity.
Defined.

(** X14.  For every [well_formed] text of the grammar [doc] (scalars
    [null], [true], [false], unsigned decimal integers, string literals
    without quote or backslash; non-empty arrays and objects; no white
    space inside) nested deeper than [PARSER_NESTING_LIMIT], the parse
    fails with [NestingLimitExceeded]. *)
Theorem deeper_than_the_limit_is_refused (d : doc) :
  well_formed d = true -> PARSER_NESTING_LIMIT < nesting d ->
  exists q w,
    parse PARSER_NESTING_LIMIT (text d) = (Throw (NestingLimitExceeded q), w).
Proof.
  intros Hwf Hn. pose proof (parse_by_nesting d Hwf) as H.
  destruct (Z.leb_spec (nesting d) PARSER_NESTING_LIMIT) as [Hle | _]; [lia |].
  exact H.
Qed.

Lemma deeper_than_the_limit_is_refused_witness :
  exists q w,
    parse PARSER_NESTING_LIMIT (text (nest 1001 (Obj (LastMember (bytes "k") Null))))
    = (Throw (NestingLimitExceeded q), w).
Proof.
  apply (deeper_than_the_limit_is_refused (nest 1001 (Obj (LastMember (bytes "k") Null)))).
  - vm_compute. reflexivity.
  - vm_compute. reflexivity.
Defined.
